(** * LenslessPiCam mask synthesis: a shallow embedding of
      [lensless/hardware/mask.py] and the properties of its specification.

    Integers of the program are [nat] (or [Z] where a sign can occur),
    arrays are [seq], exceptions are the [result] type, the process-wide
    numpy generator is a state threaded through the monad [M].  Floating
    point arithmetic is reached through the interface [Scalar], which has
    two instances: IEEE binary64 (the numbers the program computes with)
    and the real numbers (the numbers its specification talks about). *)

From Stdlib Require Import ZArith String Ascii Lia Reals Lra Floats.
From mathcomp Require Import ssreflect ssrfun ssrbool eqtype ssrnat seq div.
From mathcomp Require Import path prime binomial bigop.

Set Implicit Arguments.
Unset Strict Implicit.
Unset Printing Implicit Defensive.

Local Open Scope nat_scope.

(** ** Exceptions *)

Inductive exn : Type :=
| ValueError (msg : string)
| AssertionError (msg : string)
| IndexError (msg : string)
| UnboundLocalError (name : string).

Inductive result (A : Type) : Type :=
| Ok (a : A)
| Raise (e : exn).

Arguments Ok {A} a.
Arguments Raise {A} e.

Definition bind {A B : Type} (r : result A) (k : A -> result B) : result B :=
  match r with
  | Ok a => k a
  | Raise e => Raise e
  end.

Notation "'do' x <- r ; k" := (bind r (fun x => k))
  (at level 10, x name, r at level 100, k at level 200).

Definition assert (b : bool) (msg : string) : result unit :=
  if b then Ok tt else Raise (AssertionError msg).

Definition is_ok {A : Type} (r : result A) : bool :=
  if r is Ok _ then true else false.

(** A list comprehension whose body may raise. *)
Fixpoint mapM {A B : Type} (f : A -> result B) (xs : seq A) : result (seq B) :=
  match xs with
  | [::] => Ok [::]
  | x :: xs' => do y <- f x; do ys <- mapM f xs'; Ok (y :: ys)
  end.

(** ** Python and numpy helpers *)

(** [range(start, stop)] *)
Definition range (start stop : nat) : seq nat := iota start (stop - start).

(** [range(start, stop, step)] for a positive [step] *)
Definition range_step (start stop step : nat) : seq nat :=
  [seq start + step * k | k <- iota 0 ((stop - start + step.-1) %/ step)].

(** [s.upper()] on ASCII strings *)
Definition upper_ascii (c : ascii) : ascii :=
  let n := nat_of_ascii c in
  if (97 <= n) && (n <= 122) then ascii_of_nat (n - 32) else c.

Fixpoint upper (s : string) : string :=
  match s with
  | EmptyString => EmptyString
  | String c s' => String (upper_ascii c) (upper s')
  end.

(** Two-dimensional arrays given by their rows. *)
Definition matrix (T : Type) : Type := seq (seq T).

Definition np_zeros (rows cols : nat) : matrix nat := nseq rows (nseq cols 0).

Definition get2 (A : matrix nat) (i j : nat) : nat := nth 0 (nth [::] A i) j.

(** [A[i, j] = v] for an index inside the array *)
Definition set2 (A : matrix nat) (i j v : nat) : matrix nat :=
  set_nth [::] A i (set_nth 0 (nth [::] A i) j v).

(** [A.shape] of an array that has a row *)
Definition shape2 (T : Type) (A : matrix T) : nat * nat :=
  (size A, size (head [::] A)).

(** [A.shape == (rows, cols)] *)
Definition has_shape (T : Type) (A : matrix T) (rows cols : nat) : bool :=
  (size A == rows) && all (fun r => size r == cols) A.

(** Number of cells equal to 1. *)
Definition count_ones (A : matrix nat) : nat :=
  sumn [seq count (pred1 1) r | r <- A].

(** [A[1:, 1:]] *)
Definition drop_first_row_col (T : Type) (A : matrix T) : matrix T :=
  [seq behead r | r <- behead A].

(** Arrays that carry their shape, as numpy's do: an array with no row still
    has a number of columns. *)
Record ndarray2 (T : Type) : Type := Ndarray2 {
  nrows : nat;
  ncols : nat;
  cells : matrix T
}.

(** Three-dimensional arrays [(h, w, c)], kept as the [c] planes [A[:, :, k]]. *)
Record ndarray3 (T : Type) : Type := Ndarray3 {
  dim0 : nat;
  dim1 : nat;
  planes : seq (matrix T)
}.

Definition shape3 (T : Type) (A : ndarray3 T) : nat * nat * nat :=
  (dim0 A, dim1 A, size (planes A)).

(** [A[:, :, k]] *)
Definition plane (T : Type) (A : ndarray3 T) (k : nat) : ndarray2 T :=
  Ndarray2 (dim0 A) (dim1 A) (nth [::] (planes A) k).

(** [np.dstack] of two-dimensional arrays *)
Definition np_dstack (T : Type) (xs : seq (ndarray2 T)) : result (ndarray3 T) :=
  match xs with
  | [::] => Raise (ValueError "need at least one array to concatenate")
  | x :: xs' =>
      if all (fun y => (nrows y == nrows x) && (ncols y == ncols x)) xs'
      then Ok (Ndarray3 (nrows x) (ncols x) [seq cells y | y <- xs])
      else Raise (ValueError "all the input array dimensions must match exactly")
  end.

(** ** Floating-point arithmetic as an interface

    The operations of numpy on [float64] that the masks use. *)

Class Scalar : Type := {
  F : Type;
  of_Z : Z -> F;                (* conversion of an integer *)
  fadd : F -> F -> F;
  fsub : F -> F -> F;
  fmul : F -> F -> F;
  fdiv : F -> F -> F;
  fsqrt : F -> F;               (* np.sqrt *)
  flt : F -> F -> bool;         (* x < y *)
  fle : F -> F -> bool;         (* x <= y *)
  fpi : F;                      (* np.pi *)
  fmod : F -> F -> F;           (* x % y *)
  fround : F -> F;              (* np.round: to nearest, ties to even *)
  to_int : F -> Z               (* astype(int): towards zero *)
}.

Declare Scope scalar_scope.
Delimit Scope scalar_scope with F.
Notation "x + y" := (fadd x y) : scalar_scope.
Notation "x - y" := (fsub x y) : scalar_scope.
Notation "x * y" := (fmul x y) : scalar_scope.
Notation "x / y" := (fdiv x y) : scalar_scope.
Notation "x % y" := (fmod x y) (at level 40, left associativity) : scalar_scope.
Notation "x < y" := (flt x y) : scalar_scope.
Notation "x <= y" := (fle x y) : scalar_scope.

Definition of_nat `{Scalar} (n : nat) : F := of_Z (Z.of_nat n).

(** [-x] *)
Definition fneg `{Scalar} (x : F) : F := (of_Z (-1) * x)%F.

(** [x ** 2] *)
Definition fsqr `{Scalar} (x : F) : F := (x * x)%F.

(** The literals of the program. *)
Definition f0 `{Scalar} : F := of_Z 0.
Definition f1 `{Scalar} : F := of_Z 1.
Definition f2 `{Scalar} : F := of_Z 2.
Definition half `{Scalar} : F := (f1 / f2)%F.                     (* 0.5 *)
Definition f1e_5 `{Scalar} : F := (f1 / of_Z 100000)%F.           (* 1e-5 *)

(** [np.clip(x, lo, hi)], i.e. [minimum(maximum(x, lo), hi)] *)
Definition np_clip `{Scalar} (x lo hi : F) : F :=
  let y := if (x < lo)%F then lo else x in
  if (hi < y)%F then hi else y.

(** *** The real numbers *)

Definition Rltb (x y : R) : bool := if Rlt_dec x y then true else false.
Definition Rleb (x y : R) : bool := if Rle_dec x y then true else false.

Definition Rmod (x y : R) : R := (x - IZR (Int_part (x / y)) * y)%R.

Definition Rround (x : R) : R :=
  let n := Int_part x in
  let d := (x - IZR n)%R in
  if Rltb d (1 / 2) then IZR n
  else if Rltb (1 / 2) d then IZR (n + 1)
  else if Z.even n then IZR n else IZR (n + 1).

Definition Rtrunc (x : R) : Z :=
  if Rleb 0 x then Int_part x else (- Int_part (- x))%Z.

#[export] Instance real_scalar : Scalar := {|
  F := R;
  of_Z := IZR;
  fadd := Rplus;
  fsub := Rminus;
  fmul := Rmult;
  fdiv := Rdiv;
  fsqrt := R_sqrt.sqrt;
  flt := Rltb;
  fle := Rleb;
  fpi := PI;
  fmod := Rmod;
  fround := Rround;
  to_int := Rtrunc
|}.

(** *** IEEE binary64 *)

Definition float_of_Z (z : Z) : float :=
  match z with
  | Z0 => PrimFloat.zero
  | Zpos _ => PrimFloat.of_uint63 (Uint63.of_Z z)
  | Zneg p => PrimFloat.opp (PrimFloat.of_uint63 (Uint63.of_Z (Zpos p)))
  end.

(** C's [fmod]: the exact remainder, with the sign of the dividend. *)
Definition c_fmod (a b : float) : float :=
  match Prim2SF a, Prim2SF b with
  | S754_nan, _ | _, S754_nan => PrimFloat.nan
  | S754_infinity _, _ => PrimFloat.nan
  | _, S754_zero _ => PrimFloat.nan
  | S754_zero _, _ => a
  | _, S754_infinity _ => a
  | S754_finite sa ma ea, S754_finite _ mb eb =>
      let e := Z.min ea eb in
      let r := ((Zpos ma * 2 ^ (ea - e)) mod (Zpos mb * 2 ^ (eb - e)))%Z in
      if (r =? 0)%Z then (if sa then PrimFloat.neg_zero else PrimFloat.zero)
      else SF2Prim (S754_finite sa (Z.to_pos r) e)
  end.

(** numpy's remainder on floats: [fmod], moved to the sign of the divisor. *)
Definition float_mod (a b : float) : float :=
  let m := c_fmod a b in
  if PrimFloat.eqb b PrimFloat.zero then m
  else if PrimFloat.eqb m PrimFloat.zero
       then (if PrimFloat.get_sign b then PrimFloat.neg_zero else PrimFloat.zero)
       else if Bool.eqb (PrimFloat.ltb b PrimFloat.zero) (PrimFloat.ltb m PrimFloat.zero)
            then m else PrimFloat.add m b.

Definition two52 : float := Eval vm_compute in float_of_Z (2 ^ 52).

Definition float_rint (x : float) : float :=
  let a := PrimFloat.abs x in
  if PrimFloat.ltb a two52 then
    let r := PrimFloat.sub (PrimFloat.add a two52) two52 in
    if PrimFloat.get_sign x then PrimFloat.opp r else r
  else x.

Definition int64_min : Z := Eval vm_compute in (- 2 ^ 63)%Z.

Definition float_to_int (x : float) : Z :=
  match Prim2SF x with
  | S754_zero _ => 0%Z
  | S754_finite s m e =>
      let v := if (0 <=? e)%Z then (Zpos m * 2 ^ e)%Z else (Zpos m / 2 ^ (- e))%Z in
      let z := if s then (- v)%Z else v in
      if (int64_min <=? z)%Z && (z <? - int64_min)%Z then z else int64_min
  | _ => int64_min
  end.

#[export] Instance binary64 : Scalar := {|
  F := float;
  of_Z := float_of_Z;
  fadd := PrimFloat.add;
  fsub := PrimFloat.sub;
  fmul := PrimFloat.mul;
  fdiv := PrimFloat.div;
  fsqrt := PrimFloat.sqrt;
  flt := PrimFloat.ltb;
  fle := PrimFloat.leb;
  fpi := 0x1.921fb54442d18p+1%float;
  fmod := float_mod;
  fround := float_rint;
  to_int := float_to_int
|}.

(** ** External collaborators

    The libraries the module calls: numpy's complex functions and global
    random generator, [perlin_numpy], [waveprop], [cv2], [scipy.signal].
    They are parameters of the embedding. *)

(** An entry of a mask: an integer, a float, or a complex number. *)
Inductive cell (F C : Type) : Type :=
| CInt (z : Z)
| CReal (x : F)
| CComplex (c : C).

Arguments CInt {F C} z.
Arguments CReal {F C} x.
Arguments CComplex {F C} c.

Class Collaborators `{Scalar} : Type := {
  C : Type;                                   (* complex numbers *)
  c_of_real : F -> C;
  cexp_i : F -> C;                            (* np.exp(1j * x) *)
  cangle : C -> F;                            (* np.angle *)
  cabs : C -> F;                              (* np.abs *)
  cscale : F -> C -> C;                       (* x * z, x real *)
  rng : Type;                                 (* state of np.random *)
  seed_state : Z -> rng;                      (* the state np.random.seed sets *)
  random_sample : rng -> F * rng;             (* one draw from [0, 1) *)
  (* perlin_numpy: the gradients are drawn from np.random *)
  generate_perlin_noise_2d : nat * nat -> nat * nat -> rng -> matrix F * rng;
  (* Modelled from the spec: lensless.utils.image.resize, applied to
     [A[:, :, np.newaxis]] and squeezed; "resampling of a 2D(+channel) array
     to a target shape" *)
  resize : matrix F -> nat * nat -> matrix F;
  (* waveprop.rs.angular_spectrum(...)[0] *)
  angular_spectrum : matrix (cell F C) -> F -> seq F -> F -> matrix C;
  (* waveprop.fresnel.fresnel_conv(...)[0] *)
  fresnel_conv : matrix C -> F -> F -> F -> matrix C;
  cv_Canny : matrix Z -> Z -> Z -> matrix Z;
  (* scipy.signal.max_len_seq(nbits)[0] *)
  max_len_seq : Z -> result (seq Z);
  (* waveprop.noise.add_shot_noise *)
  add_shot_noise : ndarray3 F -> F -> ndarray3 F
}.

Section StateMonad.

Context `{Collaborators}.

(** Computations that may raise and that read and write the process-wide
    generator. *)
Definition M (A : Type) : Type := rng -> result (A * rng).

Definition ret {A : Type} (a : A) : M A := fun g => Ok (a, g).

Definition bindM {A B : Type} (m : M A) (k : A -> M B) : M B :=
  fun g => match m g with
           | Ok (a, g') => k a g'
           | Raise e => Raise e
           end.

Definition lift {A : Type} (r : result A) : M A :=
  fun g => match r with
           | Ok a => Ok (a, g)
           | Raise e => Raise e
           end.

(** [np.random.seed(seed)] *)
Definition np_random_seed (seed : Z) : M unit :=
  fun _ =>
    if (0 <=? seed)%Z && (seed <? 2 ^ 32)%Z then Ok (tt, seed_state seed)
    else Raise (ValueError "Seed must be between 0 and 2**32 - 1").

(** [np.random.uniform(low, high)]: [low + (high - low) * random_sample()] *)
Definition np_random_uniform (low high : F) : M F :=
  fun g => let (u, g') := random_sample g in Ok ((low + (high - low) * u)%F, g').

End StateMonad.

Notation "x <-- m ;; k" := (bindM m (fun x => k))
  (at level 10, m at level 100, k at level 200, only parsing).

Section RandomArrays.

Context `{Collaborators}.

(** [np.random.uniform(low, high, n)] *)
Fixpoint np_random_uniform_seq (low high : F) (n : nat) : M (seq F) :=
  match n with
  | 0 => ret [::]
  | n'.+1 =>
      x <-- np_random_uniform low high ;;
      xs <-- np_random_uniform_seq low high n' ;;
      ret (x :: xs)
  end.

(** [np.random.uniform(low, high, (rows, cols))], filled row by row *)
Fixpoint np_random_uniform_matrix (low high : F) (rows cols : nat) : M (matrix F) :=
  match rows with
  | 0 => ret [::]
  | r.+1 =>
      x <-- np_random_uniform_seq low high cols ;;
      xs <-- np_random_uniform_matrix low high r cols ;;
      ret (x :: xs)
  end.

End RandomArrays.

(** ** [class Mask] *)

Module Mask.

Section Mask.

Context `{Collaborators}.

(** [feature_size] is a float or an array. *)
Variant feature_size_arg : Type :=
| FsFloat (x : F)
| FsArray (xs : seq F).

(** Elementwise operation on one-dimensional arrays, with numpy's
    broadcasting of a single element. *)
Definition broadcast {B : Type} (op : F -> F -> B) (xs ys : seq F) : result (seq B) :=
  if size xs == size ys then Ok [seq op p.1 p.2 | p <- zip xs ys]
  else if xs is [:: x] then Ok [seq op x y | y <- ys]
  else if ys is [:: y] then Ok [seq op x y | x <- xs]
  else Raise (ValueError "operands could not be broadcast together").

(** The attributes that [Mask.__init__] sets before it calls [create_mask]. *)
Record attrs : Type := Attrs {
  resolution : seq nat;
  size_ : seq F;
  feature_size : seq F;
  distance_sensor : F
}.

(** [np.all(resolution * feature_size <= size)] *)
Definition fits (resolution : seq nat) (feature_size size_ : seq F) : result bool :=
  do prod <- broadcast fmul [seq of_nat r | r <- resolution] feature_size;
  do cmp <- broadcast fle prod size_;
  Ok (all id cmp).

(** Lines 76 to 105 of [__init__]. *)
Definition init_attrs (resolution : seq nat) (distance_sensor : F)
    (size_arg : option (seq F)) (feature_size_arg_ : option feature_size_arg)
    : result attrs :=
  do _ <- assert (size resolution == 2) "Sensor resolution should be of length 2";
  do _ <- assert (isSome size_arg || isSome feature_size_arg_)
            "Either sensor_size or feature_size should be specified";
  do sz <- match size_arg, feature_size_arg_ with
           | None, Some (FsFloat x) => Ok [seq (of_nat r * x)%F | r <- resolution]
           | None, Some (FsArray xs) => broadcast fmul [seq of_nat r | r <- resolution] xs
           | None, None => Raise (AssertionError "Either sensor_size or feature_size should be specified")
           | Some s, _ =>
               do _ <- assert (size s == 2) "Sensor size should be of length 2";
               Ok s
           end;
  do fs <- match feature_size_arg_ with
           | None => broadcast fdiv sz [seq of_nat r | r <- resolution]
           | Some a =>
               do fs <- match a with
                        | FsFloat x => Ok [:: x; x]
                        | FsArray xs =>
                            do _ <- assert (size xs == 2) "Feature size should be of length 2";
                            Ok xs
                        end;
               do _ <- assert (all (fun x => (f0 < x)%F) fs) "Feature size should be positive";
               Ok fs
           end;
  do ok <- fits resolution fs sz;
  do _ <- assert ok "";
  Ok (Attrs resolution sz fs distance_sensor).

(** [compute_psf]: one plane per wavelength, [|u|^2] of the propagated mask. *)
Definition compute_psf (a : attrs) (mask : matrix (cell F C)) (psf_wavelength : seq F)
    : result (ndarray3 F) :=
  let r0 := nth 0 (resolution a) 0 in
  let r1 := nth 0 (resolution a) 1 in
  do slices <-
    foldr (fun wv acc =>
             do rest <- acc;
             let u := angular_spectrum mask wv (feature_size a) (distance_sensor a) in
             (* psf[:, :, i] = u *)
             if has_shape u r0 r1 then Ok (u :: rest)
             else Raise (ValueError "could not broadcast input array"))
          (Ok [::]) psf_wavelength;
  Ok (Ndarray3 r0 r1 [seq [seq [seq (cabs c * cabs c)%F | c <- row] | row <- u] | u <- slices]).

(** A constructed mask; [extra] holds the attributes of the subclass. *)
Record t (X : Type) : Type := Make {
  base : attrs;
  mask : matrix (cell F C);
  shape : nat * nat;
  psf_wavelength : seq F;
  psf : ndarray3 F;
  extra : X
}.

(** [Mask.__init__], given the [create_mask] of the subclass. *)
Definition init (X : Type) (create_mask : attrs -> M (matrix (cell F C) * X))
    (resolution : seq nat) (distance_sensor : F)
    (size_arg : option (seq F)) (feature_size_arg_ : option feature_size_arg)
    (psf_wavelength : seq F) : M (t X) :=
  a <-- lift (init_attrs resolution distance_sensor size_arg feature_size_arg_) ;;
  mx <-- create_mask a ;;
  psf <-- lift (compute_psf a mx.1 psf_wavelength) ;;
  ret (Make a mx.1 (shape2 mx.1) psf_wavelength psf mx.2).

End Mask.

End Mask.

(** The default [psf_wavelength=[460e-9, 550e-9, 640e-9]]. *)
Definition default_psf_wavelength `{Scalar} : seq F :=
  [:: (of_Z 460 / of_Z 1000000000)%F; (of_Z 550 / of_Z 1000000000)%F;
      (of_Z 640 / of_Z 1000000000)%F].

(** ** [class CodedAperture] *)

Module CodedAperture.

(** [is_prime], reached with [n >= 0].  [int(sqrt(n))] is the integer square
    root (the float square root is exact for every [n] below 2^52). *)
Definition is_prime (n : nat) : bool :=
  if (n %% 2 == 0) && (2 < n) then false
  else all (fun i => n %% i != 0) (range_step 3 (Nat.sqrt n).+1 2).

(** [sympy.ntheory.quadratic_residues]:
    [sorted({pow(i, 2, p) for i in range(p // 2 + 1)})] *)
Definition quadratic_residues (p : nat) : seq nat :=
  sort leq (undup [seq (i ^ 2) %% p | i <- range 0 (p %/ 2 + 1)]).

(** The two nested loops of [squarepattern]. *)
Definition squarepattern_loop (p : nat) (q : seq nat) (A : matrix nat) : matrix nat :=
  foldl (fun A j =>
    foldl (fun A i =>
      if ~~ (((i - 1) \in q) != ((j - 1) \in q)) then set2 A i j 1 else A)
      A (range 1 p))
    A (range 1 p).

(** [squarepattern] past its primality check. *)
Definition squarepattern_body (p : nat) : matrix nat :=
  let A := np_zeros p p in
  let q := quadratic_residues p in
  let A := foldl (fun A i => set2 A i 0 1) A (range 1 p) in   (* A[1:, 0] = 1 *)
  squarepattern_loop p q A.

Definition not_prime_msg : string := "p is not a valid length. It must be prime.".

Definition squarepattern (p : nat) : result (matrix nat) :=
  if ~~ is_prime p then Raise (ValueError not_prime_msg)
  else Ok (squarepattern_body p).

(** [squarepattern(4 * n_bits + 1)] for a Python integer [n_bits]: on a
    negative [p] the test [n % 2 == 0 and n > 2] of [is_prime] is false and
    [sqrt(n)] raises. *)
Definition squarepattern_of_bits (n_bits : Z) : result (matrix nat) :=
  let p := (4 * n_bits + 1)%Z in
  if (p <? 0)%Z then Raise (ValueError "math domain error")
  else squarepattern (Z.to_nat p).

(** [np.resize(a, n)]: [a] repeated up to length [n] *)
Definition np_resize (a : seq Z) (n : nat) : seq Z :=
  if (size a == 0) || (n == 0) then nseq n 0%Z
  else take n (flatten (nseq ((n + (size a).-1) %/ size a) a)).

(** [scipy.linalg.circulant(c)]: entry [(i, j)] is [c[(i - j) mod n]] *)
Definition circulant (c : seq Z) : matrix Z :=
  let n := size c in
  [seq [seq nth 0%Z c ((i + n - j) %% n) | j <- iota 0 n] | i <- iota 0 n].

(** [circulant(np.resize(v, n))[:, :k]] *)
Definition conv_matrix (v : seq Z) (n k : nat) : ndarray2 Z :=
  Ndarray2 n (minn k n) [seq take k r | r <- circulant (np_resize v n)].

Section CodedAperture.

Context `{Collaborators}.

(** [row] and [col]; [method] and [n_bits] are kept as given. *)
Record state : Type := State {
  method : string;
  n_bits : Z;
  row : seq Z;
  col : seq Z
}.

Definition cell_to_float (c : cell F C) : F :=
  match c with
  | CInt z => of_Z z
  | CReal x => x
  | CComplex z => cabs z
  end.

(** [np.round(np.clip(x, 0, 1)).astype(int)] *)
Definition binarize (x : F) : Z := to_int (fround (np_clip x f0 f1)).

(** The pattern before upscaling, with [row] and [col]. *)
Definition raw_pattern (method : string) (n_bits : Z)
    : result (matrix (cell F C) * seq Z * seq Z) :=
  do _ <- assert (String.eqb (upper method) "MURA" || String.eqb (upper method) "MLS")
            "Method should be either 'MLS' or 'MURA'";
  if String.eqb (upper method) "MURA" then
    do A <- squarepattern_of_bits n_bits;
    let m := drop_first_row_col A in
    (* self.mask[0, :] *)
    do r0 <- (if m is r :: _ then Ok r
              else Raise (IndexError "index 0 is out of bounds for axis 0 with size 0"));
    (* self.mask[:, 0] *)
    do c0 <- (if all (fun r => 0 < size r) m then Ok [seq head 0 r | r <- m]
              else Raise (IndexError "index 0 is out of bounds for axis 1 with size 0"));
    Ok ([seq [seq CInt (Z.of_nat x) | x <- r] | r <- m],
        [seq (2 * Z.of_nat x - 1)%Z | x <- r0],
        [seq (2 * Z.of_nat x - 1)%Z | x <- c0])
  else
    do s <- max_len_seq n_bits;
    let sq := [seq (b * 2 - 1)%Z | b <- s] in
    let h_r := sq ++ sq in
    Ok ([seq [seq CReal ((of_Z (x * y) + f1) / f2)%F | y <- h_r] | x <- h_r], h_r, h_r).

Definition create_mask (method : string) (n_bits : Z) (a : Mask.attrs)
    : result (matrix (cell F C) * state) :=
  do raw <- raw_pattern method n_bits;
  let '(m, row, col) := raw in
  let r0 := nth 0 (Mask.resolution a) 0 in
  let r1 := nth 0 (Mask.resolution a) 1 in
  (* np.any(self.resolution != self.mask.shape) *)
  if (r0 != (shape2 m).1) || (r1 != (shape2 m).2) then
    let upscaled := resize [seq [seq cell_to_float c | c <- r] | r <- m] (r0, r1) in
    Ok ([seq [seq CInt (binarize x) | x <- r] | r <- upscaled], State method n_bits row col)
  else Ok (m, State method n_bits row col).

(** [CodedAperture(method, n_bits, **kwargs)] *)
Definition init (method : string) (n_bits : Z)
    (resolution : seq nat) (distance_sensor : F)
    (size_arg : option (seq F)) (feature_size_arg : option Mask.feature_size_arg)
    (psf_wavelength : seq F) : M (Mask.t state) :=
  Mask.init (fun a => lift (create_mask method n_bits a))
    resolution distance_sensor size_arg feature_size_arg psf_wavelength.

(** [get_conv_matrices(img_shape)] *)
Definition get_conv_matrices (m : Mask.t state) (img_shape : nat * nat * nat)
    : ndarray2 Z * ndarray2 Z :=
  let r0 := nth 0 (Mask.resolution (Mask.base m)) 0 in
  let r1 := nth 0 (Mask.resolution (Mask.base m)) 1 in
  (conv_matrix (col (Mask.extra m)) r0 img_shape.1.1,
   conv_matrix (row (Mask.extra m)) r1 img_shape.1.2).

(** [np.dot] of two-dimensional arrays *)
Definition np_dot (A B : ndarray2 F) : result (ndarray2 F) :=
  if ncols A == nrows B then
    Ok (Ndarray2 (nrows A) (ncols B)
          [seq [seq foldl (fun acc k =>
                      (acc + nth f0 (nth [::] (cells A) i) k
                             * nth f0 (nth [::] (cells B) k) j)%F)
                    f0 (iota 0 (ncols A))
               | j <- iota 0 (ncols B)]
          | i <- iota 0 (nrows A)])
  else Raise (ValueError "shapes not aligned").

(** [numpy.linalg.multi_dot] of three arrays: the cheaper parenthesisation *)
Definition multi_dot3 (A B D : ndarray2 F) : result (ndarray2 F) :=
  let cost1 := nrows A * nrows D * (ncols A + ncols D) in
  let cost2 := ncols A * ncols D * (nrows A + nrows D) in
  if cost1 < cost2 then do AB <- np_dot A B; np_dot AB D
  else do BD <- np_dot B D; np_dot A BD.

(** [Q.T] *)
Definition transpose (T : Type) (x0 : T) (A : ndarray2 T) : ndarray2 T :=
  Ndarray2 (ncols A) (nrows A)
    [seq [seq nth x0 (nth [::] (cells A) i) j | i <- iota 0 (nrows A)]
    | j <- iota 0 (ncols A)].

Definition to_float2 (A : ndarray2 Z) : ndarray2 F :=
  Ndarray2 (nrows A) (ncols A) [seq [seq of_Z z | z <- r] | r <- cells A].

(** [simulate(obj, snr_db)] on a numpy array *)
Definition simulate (m : Mask.t state) (obj : ndarray3 F) (snr_db : option F)
    : result (ndarray3 F) :=
  let (P, Q) := get_conv_matrices m (shape3 obj) in
  let n_channels := (shape3 obj).2 in
  do chans <- mapM (fun c => multi_dot3 (to_float2 P) (plane obj c)
                               (transpose f0 (to_float2 Q)))
                   (range 0 n_channels);
  do meas <- np_dstack chans;
  Ok (if snr_db is Some s then add_shot_noise meas s else meas).

End CodedAperture.

End CodedAperture.

(** ** [class MultiLensArray] *)

Module MultiLensArray.

Section MultiLensArray.

Context `{Collaborators}.

(** A circle [(x, y, r)]. *)
Definition circle : Type := F * F * F.

(** [np.sqrt((x - cx)**2 + (y - cy)**2) < r + cr] *)
Definition overlaps (x y r : F) (c : circle) : bool :=
  let '(cx, cy, cr) := c in
  (fsqrt (fsqr (x - cx) + fsqr (y - cy)) < r + cr)%F.

(** [does_circle_overlap(circles, x, y, r)] *)
Definition does_circle_overlap (circles : seq circle) (x y r : F) : bool :=
  has (overlaps x y r) circles.

(** [no_circle_overlap(circles)]: circle [i] against [circles[i+1:]] *)
Fixpoint no_circle_overlap (circles : seq circle) : bool :=
  match circles with
  | [::] => true
  | c :: rest =>
      if does_circle_overlap rest c.1.1 c.1.2 c.2 then false
      else no_circle_overlap rest
  end.

(** The attempts of [place_spheres_on_plane] for one radius. *)
Fixpoint try_place (attempts : nat) (placed : seq circle) (width height r : F)
    : M (option circle) :=
  match attempts with
  | 0 => ret None
  | k.+1 =>
      x <-- np_random_uniform r (width - r)%F ;;
      y <-- np_random_uniform r (height - r)%F ;;
      if ~~ does_circle_overlap placed x y r then ret (Some (x, y, r))
      else try_place k placed width height r
  end.

(** The loop over the sorted radii; [placed] grows at its end. *)
Fixpoint place_loop (max_attempts : nat) (width height : F) (radius_sorted : seq F)
    (placed : seq circle) : M (seq circle) :=
  match radius_sorted with
  | [::] => ret placed
  | r :: rs =>
      c <-- try_place max_attempts placed width height r ;;
      place_loop max_attempts width height rs
        (if c is Some c' then rcons placed c' else placed)
  end.

(** [place_spheres_on_plane(width, height, radius, max_attempts)]; the
    slices [placed_circles[:, :2]] of an empty array raise. *)
Definition place_spheres_on_plane (width height : F) (radius : seq F)
    (max_attempts : nat) : M (seq (F * F) * seq F) :=
  let radius_sorted := sort (fun a b => (b <= a)%F) radius in
  placed <-- place_loop max_attempts width height radius_sorted [::] ;;
  if placed is [::] then lift (Raise (IndexError "too many indices for array"))
  else ret ([seq (c.1.1, c.1.2) | c <- placed], [seq c.2 | c <- placed]).

(** [lens_contribution(radius, locs, x, y)]; [idx] is the index of the head
    of [locs]. *)
Fixpoint lens_contribution_from (idx : nat) (radius : seq F) (locs : seq (F * F))
    (x y : F) : result F :=
  match locs with
  | [::] => Ok f0
  | loc :: locs' =>
      if idx < size radius then
        let r := nth f0 radius idx in
        if (fsqr (x - loc.1) + fsqr (y - loc.2) < fsqr r)%F
        then Ok (fsqrt (fsqr r - fsqr (x - loc.1) - fsqr (y - loc.2)))%F
        else lens_contribution_from idx.+1 radius locs' x y
      else Raise (IndexError "index out of bounds")
  end.

Definition lens_contribution (radius : seq F) (locs : seq (F * F)) (x y : F) : result F :=
  lens_contribution_from 0 radius locs x y.

(** The array [height] of [create_height_map] before its assertion. *)
Definition height_values (a : Mask.attrs) (min_height : F)
    (radius : seq F) (locs : seq (F * F)) : result (matrix F) :=
  let r0 := nth 0 (Mask.resolution a) 0 in
  let r1 := nth 0 (Mask.resolution a) 1 in
  let fs0 := nth f0 (Mask.feature_size a) 0 in
  mapM (fun x =>
    mapM (fun y =>
      do c <- lens_contribution radius locs (of_nat x + half)%F (of_nat y + half)%F;
      Ok (min_height + c * fs0)%F)
      (range 0 r1))
    (range 0 r0).

(** [create_height_map(radius, locs)] *)
Definition create_height_map (a : Mask.attrs) (min_height : F)
    (radius : seq F) (locs : seq (F * F)) : result (matrix F) :=
  do height <- height_values a min_height radius locs;
  do _ <- assert (all (all (fun h => (min_height <= h)%F)) height) "";
  Ok height.

(** The attributes of the subclass. *)
Record state : Type := State {
  N : option nat;
  radius : seq F;
  loc : seq (F * F);
  refractive_index : F;
  wavelength : F;
  seed : Z;
  min_height : F
}.

(** What [__init__] does before it calls [Mask.__init__]: the radii, and the
    locations when they are given. *)
Definition init_lenses (N : option nat) (radius : option (seq F))
    (loc : option (seq (F * F))) (seed : Z) (min_height : F)
    : M (option nat * seq F * option (seq (F * F))) :=
  match radius with
  | Some rad =>
      match loc with
      | None => lift (Raise (AssertionError ""))
      | Some l =>
          _ <-- lift (assert (size rad == size l) "") ;;
          let circles := [seq (p.1.1, p.1.2, p.2) | p <- zip l rad] in
          _ <-- lift (assert (no_circle_overlap circles) "") ;;
          ret (Some (size rad), rad, Some l)
      end
  | None =>
      match N with
      | None => lift (Raise (AssertionError ""))
      | Some n =>
          _ <-- np_random_seed seed ;;
          rad <-- np_random_uniform_seq min_height f1e_5 n ;;
          _ <-- lift (assert (n == size rad) "") ;;
          ret (Some n, rad, loc)
      end
  end.

(** [create_mask]; the default [max_attempts=1000] of the placement. *)
Definition create_mask (N : option nat) (radius : seq F) (loc : option (seq (F * F)))
    (refractive_index wavelength : F) (seed : Z) (min_height : F) (a : Mask.attrs)
    : M (matrix (cell F C) * state) :=
  lr <-- (if loc is Some l then ret (l, radius)
          else place_spheres_on_plane (nth f0 (Mask.size_ a) 0) (nth f0 (Mask.size_ a) 1)
                 radius 1000) ;;
  let fs0 := nth f0 (Mask.feature_size a) 0 in
  let fs1 := nth f0 (Mask.feature_size a) 1 in
  let locs_res := [seq (l.1 * (f1 / fs0), l.2 * (f1 / fs1))%F | l <- lr.1] in
  let radius_res := [seq (r * (f1 / fs0))%F | r <- lr.2] in
  height <-- lift (create_height_map a min_height radius_res locs_res) ;;
  let phi := [seq [seq (h * (refractive_index - f1) * f2 * fpi / wavelength)%F | h <- r]
             | r <- height] in
  ret ([seq [seq CComplex (cexp_i p) | p <- r] | r <- phi],
       State N lr.2 lr.1 refractive_index wavelength seed min_height).

(** [MultiLensArray(N, radius, loc, refractive_index, design_wv, seed,
    min_height, **kwargs)] *)
Definition init (N : option nat) (radius : option (seq F)) (loc : option (seq (F * F)))
    (refractive_index design_wv : F) (seed : Z) (min_height : F)
    (resolution : seq nat) (distance_sensor : F)
    (size_arg : option (seq F)) (feature_size_arg : option Mask.feature_size_arg)
    (psf_wavelength : seq F) : M (Mask.t state) :=
  lenses <-- init_lenses N radius loc seed min_height ;;
  let '(n, rad, l) := lenses in
  Mask.init (create_mask n rad l refractive_index design_wv seed min_height)
    resolution distance_sensor size_arg feature_size_arg psf_wavelength.

End MultiLensArray.

End MultiLensArray.

(** ** [phase_retrieval] and [class PhaseContour] *)

Module PhaseContour.

Section PhaseContour.

Context `{Collaborators}.

Definition map2 {A B : Type} (f : A -> B) (m : matrix A) : matrix B :=
  [seq [seq f x | x <- r] | r <- m].

Definition zip2 {A B D : Type} (f : A -> B -> D) (m1 : matrix A) (m2 : matrix B)
    : matrix D :=
  [seq [seq f p.1 p.2 | p <- zip rs.1 rs.2] | rs <- zip m1 m2].

(** One turn of the loop of [phase_retrieval]: the new [M_p] and [M_phi]. *)
Definition retrieval_step (target_psf : matrix F) (wv d1 dz : F)
    (st : matrix C * option (matrix C)) : matrix C * option (matrix C) :=
  let M_p := st.1 in
  (* back propagate from sensor to mask *)
  let M_phi := fresnel_conv M_p wv d1 (fneg dz) in
  (* constrain amplitude at mask to be unity *)
  let M_phi := map2 (fun z => cexp_i (cangle z)) M_phi in
  (* forward propagate from mask to sensor *)
  let M_p := fresnel_conv M_phi wv d1 dz in
  (* constrain amplitude to be sqrt(PSF) *)
  let M_p := zip2 (fun t z => cscale (fsqrt t) (cexp_i (cangle z))) target_psf M_p in
  (M_p, Some M_phi).

(** [phase_retrieval(target_psf, wv, d1, dz, n, n_iter, height_map)].
    [M_phi] is a local variable that only the loop body assigns; it is
    [None] while unbound.  The result is [phi], or [phi] and the height map. *)
Definition phase_retrieval (target_psf : matrix F) (wv : F) (d1 : Mask.feature_size_arg)
    (dz n : F) (n_iter : nat) (height_map : bool)
    : result (matrix F * option (matrix F)) :=
  let M_p := map2 (fun t => c_of_real (fsqrt t)) target_psf in
  do d1 <- match d1 with
           | Mask.FsFloat x => Ok x
           | Mask.FsArray xs =>
               if size xs < 2 then Raise (IndexError "index out of range")
               else Ok (nth f0 xs 0)
           end;
  let st := iter n_iter (retrieval_step target_psf wv d1 dz) (M_p, None) in
  match st.2 with
  | None => Raise (UnboundLocalError "M_phi")
  | Some M_phi =>
      let phi := map2 (fun z => ((cangle z + f2 * fpi) % (f2 * fpi))%F) M_phi in
      if height_map
      then Ok (phi, Some (map2 (fun p => (wv * p / (f2 * fpi * (n - f1)))%F) phi))
      else Ok (phi, None)
  end.

(** [np.interp(x, (x0, x1), (y0, y1))] *)
Definition np_interp (x x0 x1 y0 y1 : F) : F :=
  if (x1 < x)%F then y1
  else if (x < x0)%F then y0
  else if (x1 <= x)%F then y1
  else ((y1 - y0) / (x1 - x0) * (x - x0) + y0)%F.

(** The attributes of the subclass. *)
Record state : Type := State {
  target_psf : matrix Z;
  phase_pattern : matrix F;
  height_map : option (matrix F);
  noise_period : nat * nat;
  refractive_index : F;
  n_iter : nat;
  design_wv : F
}.

(** [create_mask]: the noise comes from [generate_perlin_noise_2d], which
    draws from the process-wide generator as it finds it. *)
Definition create_mask (noise_period : nat * nat) (refractive_index : F) (n_iter : nat)
    (design_wv : F) (a : Mask.attrs) : M (matrix (cell F C) * state) :=
  let r0 := nth 0 (Mask.resolution a) 0 in
  let r1 := nth 0 (Mask.resolution a) 1 in
  let proper_dim_1 := (r0 %/ noise_period.1) * noise_period.1 in
  let proper_dim_2 := (r1 %/ noise_period.2) * noise_period.2 in
  noise <-- (fun g => Ok (generate_perlin_noise_2d (proper_dim_1, proper_dim_2)
                            noise_period g)) ;;
  let noise := if (r0 != (shape2 noise).1) || (r1 != (shape2 noise).2)
               then resize noise (r0, r1) else noise in
  let binary := map2 (fun x => np_clip (fround (np_interp x (fneg f1) f1 f0 f1)) f0 f1)
                  noise in
  let img := map2 (fun b => ((to_int (np_interp b (fneg f1) f1 f0 (of_Z 255))) mod 256)%Z)
               binary in
  let target := cv_Canny img 0 255 in
  pr <-- lift (phase_retrieval (map2 of_Z target) design_wv
                 (Mask.FsArray (Mask.feature_size a)) (Mask.distance_sensor a)
                 refractive_index n_iter true) ;;
  ret (map2 (fun p => CComplex (cexp_i p)) pr.1,
       State target pr.1 pr.2 noise_period refractive_index n_iter design_wv).

(** [PhaseContour(noise_period, refractive_index, n_iter, design_wv, **kwargs)];
    there is no seed among the parameters. *)
Definition init (noise_period : nat * nat) (refractive_index : F) (n_iter : nat)
    (design_wv : F) (resolution : seq nat) (distance_sensor : F)
    (size_arg : option (seq F)) (feature_size_arg : option Mask.feature_size_arg)
    (psf_wavelength : seq F) : M (Mask.t state) :=
  Mask.init (create_mask noise_period refractive_index n_iter design_wv)
    resolution distance_sensor size_arg feature_size_arg psf_wavelength.

End PhaseContour.

End PhaseContour.

(** ** [class HeightVarying] *)

Module HeightVarying.

Section HeightVarying.

Context `{Collaborators}.

(** The attributes of the subclass. *)
Record state : Type := State {
  refractive_index : F;
  wavelength : F;
  height_map : matrix F;
  height_range : F * F;
  seed : Z
}.

(** [get_phi]: the phase of a height, wrapped modulo [2 * pi] *)
Definition phase_of_height (refractive_index wavelength h : F) : F :=
  ((h * (f2 * fpi * (refractive_index - f1) / wavelength)) % (f2 * fpi))%F.

Definition get_phi (s : state) : matrix F :=
  [seq [seq phase_of_height (refractive_index s) (wavelength s) h | h <- r]
  | r <- height_map s].

(** Reading the phase back: [phase * wavelength / (2 * pi * (n - 1))] *)
Definition height_of_phase (refractive_index wavelength phi : F) : F :=
  (phi * wavelength / (f2 * fpi * (refractive_index - f1)))%F.

(** [create_mask] *)
Definition create_mask (refractive_index wavelength : F) (height_map : option (matrix F))
    (height_range : F * F) (seed : Z) (a : Mask.attrs)
    : M (matrix (cell F C) * state) :=
  let r0 := nth 0 (Mask.resolution a) 0 in
  let r1 := nth 0 (Mask.resolution a) 1 in
  hm <-- (if height_map is Some hm then ret hm
          else np_random_uniform_matrix height_range.1 height_range.2 r0 r1) ;;
  _ <-- lift (assert (has_shape hm r0 r1) "") ;;
  let s := State refractive_index wavelength hm height_range seed in
  ret ([seq [seq CComplex (cexp_i p) | p <- r] | r <- get_phi s], s).

(** [HeightVarying(refractive_index, wavelength, height_map, height_range,
    seed, **kwargs)] *)
Definition init (refractive_index wavelength : F) (height_map : option (matrix F))
    (height_range : F * F) (seed : Z)
    (resolution : seq nat) (distance_sensor : F)
    (size_arg : option (seq F)) (feature_size_arg : option Mask.feature_size_arg)
    (psf_wavelength : seq F) : M (Mask.t state) :=
  _ <-- (if height_map is Some _ then ret tt else np_random_seed seed) ;;
  Mask.init (create_mask refractive_index wavelength height_map height_range seed)
    resolution distance_sensor size_arg feature_size_arg psf_wavelength.

End HeightVarying.

End HeightVarying.

(** ** A small executable instance of the collaborators

    Complex numbers in polar form, a linear congruential generator, and
    stand-ins for the propagators and image routines that keep shapes.  It
    runs the embedding on concrete inputs, in binary64 or over the reals. *)

Module Demo.

Section Demo.

Context `{Scalar}.

Definition complex : Type := F * F.      (* modulus, argument *)

Definition polar_of_real (x : F) : complex :=
  if (x < f0)%F then (fneg x, fpi) else (x, f0).

Definition lcg_next (g : Z) : Z :=
  ((g * 6364136223846793005 + 1442695040888963407) mod 2 ^ 64)%Z.

(** 53 bits of the state, as a float of [0, 1) *)
Definition lcg_sample (g : Z) : F * Z :=
  let g' := lcg_next g in
  ((of_Z (g' / 2 ^ 11) / of_Z (2 ^ 53))%F, g').

Fixpoint draws (n : nat) (g : Z) : seq F * Z :=
  match n with
  | 0 => ([::], g)
  | n'.+1 =>
      let (u, g1) := lcg_sample g in
      let (us, g2) := draws n' g1 in
      ((f2 * u - f1)%F :: us, g2)
  end.

Fixpoint noise_rows (rows cols : nat) (g : Z) : matrix F * Z :=
  match rows with
  | 0 => ([::], g)
  | r.+1 =>
      let (x, g1) := draws cols g in
      let (xs, g2) := noise_rows r cols g1 in
      (x :: xs, g2)
  end.

(** nearest neighbour *)
Definition nearest_resize (A : matrix F) (shape : nat * nat) : matrix F :=
  let (r, c) := shape in
  [seq [seq nth f0 (nth [::] A ((i * size A) %/ r)) ((j * size (head [::] A)) %/ c)
       | j <- iota 0 c]
  | i <- iota 0 r].

Definition cell_to_complex (x : cell F complex) : complex :=
  match x with
  | CInt z => polar_of_real (of_Z z)
  | CReal x => polar_of_real x
  | CComplex z => z
  end.

(** the propagators: the identity, and a phase advance by the modulus *)
Definition propagate_identity (mask : matrix (cell F complex)) : matrix complex :=
  [seq [seq cell_to_complex x | x <- r] | r <- mask].

Definition propagate_phase (u : matrix complex) (dz : F) : matrix complex :=
  [seq [seq (z.1, (z.2 + z.1 * dz)%F) | z <- r] | r <- u].

Definition threshold (img : matrix Z) (lo hi : Z) : matrix Z :=
  [seq [seq (if (127 <? v)%Z then hi else lo) | v <- r] | r <- img].

End Demo.

(** scipy's defaults for the feedback taps *)
Definition mls_taps (nbits : nat) : option (seq nat) :=
  match nbits with
  | 2 => Some [:: 1]
  | 3 => Some [:: 2]
  | 4 => Some [:: 3]
  | 5 => Some [:: 3]
  | 6 => Some [:: 5]
  | 7 => Some [:: 6]
  | 8 => Some [:: 7; 6; 1]
  | 9 => Some [:: 5]
  | _ => None
  end.

Fixpoint mls_loop (taps : seq nat) (nbits len : nat) (state : seq Z) (idx : nat) : seq Z :=
  match len with
  | 0 => [::]
  | len'.+1 =>
      let feedback := nth 0%Z state idx in
      let fb := foldl (fun f t => Z.lxor f (nth 0%Z state ((t + idx) %% nbits)))
                  feedback taps in
      feedback :: mls_loop taps nbits len' (set_nth 0%Z state idx fb) ((idx + 1) %% nbits)
  end.

Definition lfsr (nbits : Z) : result (seq Z) :=
  let n := Z.to_nat nbits in
  match mls_taps n with
  | Some taps => Ok (mls_loop taps n (2 ^ n - 1) (nseq n 1%Z) 0)
  | None => Raise (ValueError "unknown number of bits")
  end.

#[export] Instance collaborators `{Scalar} : Collaborators := {|
  C := complex;
  c_of_real := polar_of_real;
  cexp_i := fun phi => (f1, phi);
  cangle := fun z => z.2;
  cabs := fun z => z.1;
  cscale := fun x z => ((x * z.1)%F, z.2);
  rng := Z;
  seed_state := fun s => s;
  random_sample := lcg_sample;
  generate_perlin_noise_2d := fun shape _ g => noise_rows shape.1 shape.2 g;
  resize := nearest_resize;
  angular_spectrum := fun mask _ _ _ => propagate_identity mask;
  fresnel_conv := fun u _ _ dz => propagate_phase u dz;
  cv_Canny := threshold;
  max_len_seq := lfsr;
  add_shot_noise := fun meas _ => meas
|}.

End Demo.

(** ** Notions of the specification

    The predicates and functions in which the properties below are stated. *)

Fixpoint down_prod (p n : nat) : nat :=
  if n is m.+1 then down_prod p m * (p - n) else 1.

Definition well_shaped (rows cols : nat) (A : matrix nat) : Prop :=
  size A = rows /\ forall i, i < rows -> size (nth [::] A i) = cols.

Section Notions.

Context `{Scalar}.

(** The invariant of every constructed [Mask]. *)
Definition invariant (a : Mask.attrs) : Prop :=
  exists r0 r1 p0 p1 s0 s1,
    [/\ Mask.resolution a = [:: r0; r1], Mask.feature_size a = [:: p0; p1],
        Mask.size_ a = [:: s0; s1], (of_nat r0 * p0 <= s0)%F
      & (of_nat r1 * p1 <= s1)%F].

(** A lens: its centre and its radius, in pixels. *)
Definition lens : Type := (F * F) * F.

(** The disk of the lens strictly covers the point [(px, py)]. *)
Definition covers (px py : F) (l : lens) : bool :=
  (fsqr (px - l.1.1) + fsqr (py - l.1.2) < fsqr l.2)%F.

(** The spherical cap [sqrt(r^2 - dx^2 - dy^2)] of the lens over the point. *)
Definition cap_height (px py : F) (l : lens) : F :=
  fsqrt (fsqr l.2 - fsqr (px - l.1.1) - fsqr (py - l.1.2))%F.

(** First match wins: the cap of the first lens, in placement order, that
    covers the point; 0 when none does. *)
Definition first_cover_height (px py : F) (lenses : seq lens) : F :=
  if [seq l <- lenses | covers px py l] is l :: _ then cap_height px py l else f0.

(** The test of the program, on two circles: [c] is the candidate. *)
Definition overlap (c e : MultiLensArray.circle) : bool :=
  MultiLensArray.overlaps c.1.1 c.1.2 c.2 e.


(** Every circle passed the test against the circles after it. *)
Fixpoint listed_apart (cs : seq MultiLensArray.circle) : bool :=
  if cs is c :: cs' then all (fun e => ~~ overlap c e) cs' && listed_apart cs'
  else true.

End Notions.


Definition centre_distance (c e : R * R * R) : R :=
  R_sqrt.sqrt ((c.1.1 - e.1.1) * (c.1.1 - e.1.1) + (c.1.2 - e.1.2) * (c.1.2 - e.1.2))%R.

(** Pairwise: the centres of two distinct circles are at least the sum of
    their radii apart. *)
Definition pairwise_apart (cs : seq (R * R * R)) : Prop :=
  forall i j, (i < size cs)%N -> (j < size cs)%N -> i <> j ->
    ((nth (0, 0, 0) cs i).2 + (nth (0, 0, 0) cs j).2
     <= centre_distance (nth (0, 0, 0) cs i) (nth (0, 0, 0) cs j))%R.

(** ** Concrete inputs on the executable instance *)

(** A mask of 2 by 2 pixels on a sensor of size 1 by 1, in binary64. *)
Definition demo_attrs : @Mask.attrs binary64 :=
  Mask.Attrs [:: 2; 2] [:: 1%float; 1%float] [:: 0.5%float; 0.5%float] 1%float.

Definition demo_mask : @Mask.t binary64 (@Demo.collaborators binary64) unit :=
  Mask.Make demo_attrs [::] (0, 0) [::] (Ndarray3 2 2 [::]) tt.

(** Two lenses on the same centre, given by [N = 2] and [loc] without radii,
    on a mask of 4 by 4 pixels with a pitch of 1 mm; the other arguments are
    the defaults. *)
Definition two_lenses_same_centre : M (Mask.t MultiLensArray.state) :=
  @MultiLensArray.init binary64 (@Demo.collaborators binary64)
    (Some 2) None (Some [:: (2e-3, 2e-3); (2e-3, 2e-3)]%float)
    1.2%float 532e-9%float 0%Z 1e-3%float
    [:: 4; 4] 4e-3%float None (Some (Mask.FsFloat 1e-3%float))
    default_psf_wavelength.

(** A MURA mask with [n_bits = 1] ([p = 5], a pattern of 4 by 4) at
    resolution 4 by 4, with a pitch of 1 mm. *)
Definition mura5 : M (Mask.t CodedAperture.state) :=
  @CodedAperture.init binary64 (@Demo.collaborators binary64) "MURA" 1%Z
    [:: 4; 4] 4e-3%float None (Some (Mask.FsFloat 1e-3%float)) default_psf_wavelength.

Definition cell_eqb (x y : cell float (float * float)) : bool :=
  match x, y with
  | CInt a, CInt b => (a =? b)%Z
  | CReal a, CReal b => PrimFloat.eqb a b
  | CComplex a, CComplex b => PrimFloat.eqb a.1 b.1 && PrimFloat.eqb a.2 b.2
  | _, _ => false
  end.

Definition field_eqb (A B : matrix (cell float (float * float))) : bool :=
  (size A == size B)
  && all (fun rs => (size rs.1 == size rs.2) && all (fun p => cell_eqb p.1 p.2) (zip rs.1 rs.2))
       (zip A B).

(** A [PhaseContour] of 4 by 4 pixels with a noise period of 2, one
    iteration of phase retrieval and a pitch of 1 mm. *)
Definition phase_contour_demo : M (Mask.t PhaseContour.state) :=
  @PhaseContour.init binary64 (@Demo.collaborators binary64)
    (2, 2) 1.2%float 1 532e-9%float
    [:: 4; 4] 4e-3%float None (Some (Mask.FsFloat 1e-3%float)) default_psf_wavelength.
(** ** [Mask.from_sensor] *)

(** What [from_sensor] reads of a [VirtualSensor]. *)
Module VirtualSensor.

Record t `{Scalar} : Type := Make {
  resolution : seq nat;
  size_ : seq F;
  pixel_size : seq F
}.

End VirtualSensor.

Section FromSensor.

Context `{Collaborators}.

(** [VirtualSensor.from_name(sensor_name, downsample)], of
    [lensless.hardware.sensor]: it raises on a name it does not know. *)
Variable from_name : string -> option F -> result VirtualSensor.t.

(** [cls.from_sensor(sensor_name, downsample, **kwargs)]: the three
    quantities of the sensor are all passed to [__init__]. *)
Definition from_sensor (X : Type) (create_mask : Mask.attrs -> M (matrix (cell F C) * X))
    (sensor_name : string) (downsample : option F) (distance_sensor : F)
    (psf_wavelength : seq F) : M (Mask.t X) :=
  sensor <-- lift (from_name sensor_name downsample) ;;
  Mask.init create_mask (VirtualSensor.resolution sensor) distance_sensor
    (Some (VirtualSensor.size_ sensor))
    (Some (Mask.FsArray (VirtualSensor.pixel_size sensor))) psf_wavelength.

End FromSensor.

(** ** [class FresnelZoneAperture] *)

(** [np.cos], which the masks above do not need. *)
Class Trig `{Scalar} : Type := { fcos : F -> F }.

#[export] Instance real_trig : @Trig real_scalar := @Build_Trig real_scalar cos.

Module FresnelZoneAperture.

Section FresnelZoneAperture.

Context `{Collaborators} {T : Trig}.

(** [x == 0] *)
Definition is_zero (x : F) : bool := (x <= f0)%F && (f0 <= x)%F.

(** [np.linspace(start, stop, num)]: [arange(num) * step + start], with the
    last entry set to [stop]. *)
Definition np_linspace (start stop : F) (num : nat) : seq F :=
  let div := num - 1 in
  let delta := (stop - start)%F in
  let step := (delta / of_nat div)%F in
  [seq if (1 < num) && (i == num - 1) then stop
       else if 0 < div then
              if is_zero step then (of_nat i / of_nat div * delta + start)%F
              else (of_nat i * step + start)%F
            else (of_nat i * delta + start)%F
  | i <- iota 0 num].

(** The attribute of the subclass. *)
Record state : Type := State {
  radius : F
}.

(** [create_mask]: [x] runs along the columns and [y] along the rows of the
    mesh grid. *)
Definition create_mask (radius : F) (a : Mask.attrs) : matrix (cell F C) :=
  let dim0 := nth 0 (Mask.resolution a) 0 in
  let dim1 := nth 0 (Mask.resolution a) 1 in
  let xs := np_linspace (of_Z (- Z.of_nat dim1) / f2)%F (of_nat dim1 / f2 - f1)%F dim1 in
  let ys := np_linspace (of_Z (- Z.of_nat dim0) / f2)%F (of_nat dim0 / f2 - f1)%F dim0 in
  let radius_px := (radius / nth f0 (Mask.feature_size a) 0)%F in
  [seq [seq CReal (fround (half * (f1 + fcos (fpi * (fsqr x + fsqr y) / fsqr radius_px))))%F
       | x <- xs]
  | y <- ys].

(** [FresnelZoneAperture(radius, **kwargs)] *)
Definition init (radius : F) (resolution : seq nat) (distance_sensor : F)
    (size_arg : option (seq F)) (feature_size_arg : option Mask.feature_size_arg)
    (psf_wavelength : seq F) : M (Mask.t state) :=
  Mask.init (fun a => ret (create_mask radius a, State radius))
    resolution distance_sensor size_arg feature_size_arg psf_wavelength.

End FresnelZoneAperture.

End FresnelZoneAperture.

(** [a] is a square modulo [p]. *)
Definition square_mod (p a : nat) : bool :=
  has (fun x => (x ^ 2) %% p == a) (iota 0 p).


(** A sensor of 2 by 2 pixels of pitch 0.5 and of size 1 by 1, and one whose
    pitch is too large for its size. *)
Definition demo_sensor : string -> option float -> result (@VirtualSensor.t binary64) :=
  fun _ _ => Ok (@VirtualSensor.Make binary64 [:: 2; 2] [:: 1%float; 1%float]
                   [:: 0.5%float; 0.5%float]).

Definition demo_sensor_too_small
    : string -> option float -> result (@VirtualSensor.t binary64) :=
  fun _ _ => Ok (@VirtualSensor.Make binary64 [:: 2; 2] [:: 1%float; 1%float]
                   [:: 0.75%float; 0.5%float]).

(** The picture that [PhaseContour.create_mask] hands to [cv.Canny]: the
    noise made binary, interpolated from [(-1, 1)] to [(0, 255)] and cast to
    [uint8]. *)
Definition binary_of_noise `{Scalar} (x : F) : F :=
  np_clip (fround (PhaseContour.np_interp x (fneg f1) f1 f0 f1)) f0 f1.

Definition canny_input `{Scalar} (noise : matrix F) : matrix Z :=
  [seq [seq (to_int (PhaseContour.np_interp (binary_of_noise x) (fneg f1) f1 f0 (of_Z 255))
             mod 256)%Z
       | x <- r]
  | r <- noise].

(** The square of the distance, in pixels, of pixel [(i, j)] from the centre
    [(d0 / 2, d1 / 2)] of the grid. *)
Definition rho2 (d0 d1 i j : nat) : R :=
  ((IZR (Z.of_nat j) - IZR (Z.of_nat d1) / 2) * (IZR (Z.of_nat j) - IZR (Z.of_nat d1) / 2)
   + (IZR (Z.of_nat i) - IZR (Z.of_nat d0) / 2) * (IZR (Z.of_nat i) - IZR (Z.of_nat d0) / 2))%R.

(** A circle that keeps its radius away from the sides of the plane
    [[0, w] x [0, h]]. *)
Definition inside (w h : R) (c : R * R * R) : Prop :=
  (c.2 <= c.1.1 <= w - c.2 /\ c.2 <= c.1.2 <= h - c.2)%R.

(** A grid of 4 by 4 pixels of pitch 1, over the real numbers. *)
Definition grid4 : @Mask.attrs real_scalar :=
  @Mask.Attrs real_scalar [:: 4; 4] [:: 4%R; 4%R] [:: 1%R; 1%R] 1%R.

(** The sum [f 0 + ... + f (n - 1)], added from the left as [np.dot] does. *)
Definition rsum (n : nat) (f : nat -> R) : R :=
  foldl (fun acc k => (acc + f k)%R) 0%R (iota 0 n).

(** An entry of an array of reals, 0 outside of it. *)
Definition entry (A : ndarray2 R) (i j : nat) : R := nth 0%R (nth [::] (cells A) i) j.

(** A mask of one pixel over the real numbers, with [row = col = [1]]. *)
Definition one_pixel_mask
    : @Mask.t real_scalar (@Demo.collaborators real_scalar) CodedAperture.state :=
  Mask.Make (@Mask.Attrs real_scalar [:: 1; 1] [:: 1%R; 1%R] [:: 1%R; 1%R] 1%R)
    [:: [:: CInt 1]] (1, 1) [::] (Ndarray3 1 1 [::])
    (CodedAperture.State "MLS" 1 [:: 1%Z] [:: 1%Z]).

(** ** Arithmetic automation: from ssrnat's boolean order to [lia] *)

Ltac to_coq_nat :=
  repeat match goal with
  | H : is_true (_ && _) |- _ => case/andP: H => ? ?
  | H : is_true (leq _ _) |- _ => move/leP in H
  | H : is_true (~~ leq _ _) |- _ => rewrite -ltnNge in H
  | H : leq _ _ = false |- _ => move/negbT in H
  | H : is_true (eq_op _ _) |- _ => move/eqP in H
  | H : is_true (~~ eq_op _ _) |- _ => move/eqP in H
  end;
  change addn with Nat.add in *; change subn with Nat.sub in *;
  change muln with Nat.mul in *.

Ltac slia :=
  intros; to_coq_nat;
  first [ lia | apply/leP; lia | apply/eqP; lia | apply/negP => ?; to_coq_nat; lia ].

Lemma mem_range (a b i : nat) : (i \in range a b) = (a <= i < b).
Proof.
  rewrite /range mem_iota.
  case: (leqP a i) => //= Hai.
  case: (ltnP i b) => Hib.
  - by apply/idP; slia.
  - by apply/negbTE; rewrite -leqNgt; slia.
Qed.

Lemma mem_range_step2 (a b i : nat) :
  (i \in range_step a b 2) = [&& a <= i, i < b & ~~ odd (i - a)].
Proof.
  apply/mapP/and3P => [[k]|[Ha Hb Ho]].
  - rewrite mem_iota add0n /= leq_divRL // => Hk ->.
    split; [exact: leq_addr | slia |].
    by rewrite addKn mul2n odd_double.
  - exists ((i - a) %/ 2).
    + rewrite mem_iota add0n /= leq_divRL //.
      have := divnK (d:=2) (m:=i - a); rewrite dvdn2 => /(_ Ho) HK.
      slia.
    + by rewrite mulnC divnK ?dvdn2 // subnKC.
Qed.

(** ** Trial division decides primality (from 2 on) *)

Lemma leq_sqrt (a b : nat) : (b <= Nat.sqrt a) = (b * b <= a).
Proof.
  apply/idP/idP => /leP H; apply/leP.
  - by apply/Nat.sqrt_le_square.
  - by apply/Nat.sqrt_le_square; rewrite multE.
Qed.

Lemma odd_mod2 (n : nat) : (n %% 2 == 0) = ~~ odd n.
Proof. by rewrite modn2; case: (odd n). Qed.

Lemma odd_dvd_odd (d n : nat) : odd n -> d %| n -> odd d.
Proof.
  move=> On /dvdnP [k Hk]; move: On; rewrite Hk oddM => /andP [_ Od].
  exact: Od.
Qed.

Lemma is_primeE (n : nat) : 1 < n -> CodedAperture.is_prime n = prime n.
Proof.
  move=> n1; rewrite /CodedAperture.is_prime odd_mod2.
  case On: (odd n) => /=; last first.
  - case: (ltnP 2 n) => n2.
    + symmetry; apply/negbTE/negP => /primeP [_ /(_ 2)].
      rewrite dvdn2 On /= => /(_ isT) /eqP E.
      by move: n2; rewrite -E ltnn.
    + by have -> : n = 2 by slia.
  - apply/allP/idP => [H|Pn i].
    + apply: ltn_pdiv2_prime; first exact: ltnW.
      rewrite ltnNge; apply/negP => Hsq.
      have Pd := pdiv_prime n1; have Dd := pdiv_dvd n.
      have Od := odd_dvd_odd On Dd.
      have d3 : 2 < pdiv n.
        have := prime_gt1 Pd; rewrite leq_eqVlt => /orP [/eqP E|//].
        by move: Od; rewrite -E.
      have /H : pdiv n \in range_step 3 (Nat.sqrt n).+1 2.
        rewrite mem_range_step2 d3 ltnS leq_sqrt mulnn Hsq /=.
        by rewrite oddB // Od.
      by rewrite (eqP Dd).
    + rewrite mem_range_step2 ltnS leq_sqrt => /and3P [i3 isq _].
      apply/negP => /eqP /eqP; rewrite -/(i %| n) => Di.
      have /primeP [_ /(_ i Di)] := Pn.
      case/orP => /eqP E; first by move: i3; rewrite E.
      move: isq i3; rewrite E => H i3.
      have H3 : n * 3 <= n * n by rewrite leq_mul2l i3 orbT.
      by slia.
Qed.

(** ** Quadratic residues modulo a prime [p = 4k + 1] *)

Lemma fact_down_prod (p n : nat) :
  n < p -> (p.-1)`! = (p.-1 - n)`! * down_prod p n.
Proof.
  elim: n => [_|n IH np] /=; first by rewrite subn0 muln1.
  rewrite (IH (ltnW np)).
  have -> : p.-1 - n = (p.-1 - n.+1).+1 by slia.
  have -> : p - n.+1 = (p.-1 - n.+1).+1 by slia.
  by rewrite factS mulnA [in RHS]mulnAC [_ * (_)`!]mulnC.
Qed.

Lemma down_prod_mod (p n : nat) :
  n <= p ->
  if odd n then down_prod p n + n`! = 0 %[mod p]
  else down_prod p n = n`! %[mod p].
Proof.
  elim: n => [//|n IH np] /=.
  have {}IH := IH (ltnW np).
  case On: (odd n) IH => /= IH.
  - set a := down_prod p n * (p - n.+1).
    set b := down_prod p n * n.+1.
    set c := n`! * n.+1.
    have Hab : a + b = 0 %[mod p].
      by rewrite /a /b -mulnDr subnK // modnMl mod0n.
    have Hbc : b + c = 0 %[mod p].
      by rewrite /b /c -mulnDl -modnMml IH mod0n mul0n mod0n.
    rewrite factS [n.+1 * _]mulnC -/c.
    have -> : a %% p = (a + (b + c)) %% p.
      by rewrite -modnDmr Hbc mod0n addn0.
    by rewrite addnA -modnDml Hab mod0n add0n.
  - rewrite factS -modnDml -modnMml IH modnMml modnDml.
    by rewrite [n.+1 * _]mulnC -mulnDr subnK // modnMl mod0n.
Qed.

Section QuadraticResidues.

Variables (p k : nat).
Hypothesis p_prime : prime p.
Hypothesis p_4k1 : p = 4 * k + 1.

Lemma half_p : p %/ 2 = 2 * k.
Proof.
  rewrite p_4k1 -[4]/(2 * 2) -mulnA mulnC divnMDl //.
  by rewrite divn_small // addn0.
Qed.

Lemma p_gt1 : 1 < p.
Proof. exact: prime_gt1. Qed.

Lemma minus_one_square : ((2 * k)`! ^ 2).+1 = 0 %[mod p].
Proof.
  have /eqP W : p %| ((p.-1)`!).+1 by rewrite -Wilson ?p_gt1.
  have H2k : 2 * k < p by rewrite p_4k1; slia.
  have E : (p.-1)`! = (2 * k)`! * down_prod p (2 * k).
    rewrite (fact_down_prod H2k).
    by congr (_`! * _); rewrite p_4k1; slia.
  have := down_prod_mod (ltnW H2k).
  rewrite mul2n odd_double -mul2n => D.
  rewrite mod0n -[RHS]W -addn1 -[in RHS]addn1 -modnDml -[in RHS]modnDml.
  congr ((_ + 1) %% p).
  by rewrite E -modnMmr D modnMmr mulnn.
Qed.

Lemma sq_mod_inj (i j : nat) :
  i <= 2 * k -> j <= 2 * k -> i ^ 2 = j ^ 2 %[mod p] -> i = j.
Proof.
  wlog le_ji : i j / j <= i => [H|] Hi Hj E.
    case: (leqP j i) => [/H|/ltnW /H] ; first exact.
    by move=> /(_ Hj Hi (esym E)).
  have : p %| i ^ 2 - j ^ 2.
    by rewrite -eqn_mod_dvd ?leq_sqr //; apply/eqP.
  rewrite subn_sqr Euclid_dvdM // => /orP [] D.
  - case: (posnP (i - j)) => [/eqP|pos]; first by rewrite subn_eq0 => ?; slia.
    by move: D; rewrite gtnNdvd // p_4k1; slia.
  - case: (posnP (i + j)) => [/eqP|pos]; first by rewrite addn_eq0; slia.
    by move: D; rewrite gtnNdvd // p_4k1; slia.
Qed.

Lemma sq_mod_compl (y : nat) : y <= p -> (p - y) ^ 2 = y ^ 2 %[mod p].
Proof.
  move=> yp; set z := p - y.
  have zy : z + y = p by rewrite /z subnK.
  case: (leqP y z) => [le|/ltnW le]; [|symmetry]; apply/eqP;
    by rewrite eqn_mod_dvd ?leq_sqr // subn_sqr ?zy ?[y + z]addnC ?zy dvdn_mull.
Qed.

Lemma minus_one_residue : exists2 x, x <= 2 * k & (x ^ 2) %% p = 4 * k.
Proof.
  have p0 : 0 < p by exact: ltnW p_gt1.
  pose y := (2 * k)`! %% p.
  have yp : y < p by rewrite ltn_pmod.
  have Hy : (y ^ 2).+1 = 0 %[mod p].
    by rewrite -addn1 -modnDml modnXm modnDml addn1 minus_one_square.
  have last x : (x ^ 2).+1 = 0 %[mod p] -> (x ^ 2) %% p = 4 * k.
    move=> Hx; have rp : (x ^ 2) %% p < p by rewrite ltn_pmod.
    have : p %| ((x ^ 2) %% p).+1.
      by rewrite /dvdn -addn1 modnDml addn1 Hx mod0n.
    move=> /dvdnP [[|[|c]] Hc]; move: rp; rewrite p_4k1 in Hc *; slia.
  case: (leqP y (2 * k)) => Hk; first by exists y => //; exact: last.
  exists (p - y); first by move: yp; rewrite p_4k1; slia.
  apply: last; rewrite -addn1 -modnDml sq_mod_compl ?modnDml ?addn1 //.
  exact: ltnW.
Qed.

Lemma mem_quadratic_residues (a : nat) :
  (a \in CodedAperture.quadratic_residues p)
  = (a \in [seq (i ^ 2) %% p | i <- iota 0 (2 * k + 1)]).
Proof.
  by rewrite /CodedAperture.quadratic_residues mem_sort mem_undup /range subn0 half_p.
Qed.

Lemma count_residues :
  count (mem (CodedAperture.quadratic_residues p)) (iota 0 (4 * k)) = 2 * k.
Proof.
  set S := [seq (i ^ 2) %% p | i <- iota 0 (2 * k + 1)].
  have US : uniq S.
    rewrite map_inj_in_uniq ?iota_uniq // => i j.
    rewrite !mem_iota !add0n /= addn1 !ltnS => Hi Hj.
    exact: sq_mod_inj.
  have szS : size S = 2 * k + 1 by rewrite size_map size_iota.
  have ltS x : x \in S -> x < p.
    by case/mapP => i _ ->; rewrite ltn_pmod // ltnW ?p_gt1.
  have inS : 4 * k \in S.
    have [x Hx <-] := minus_one_residue.
    by apply: map_f; rewrite mem_iota add0n addn1 ltnS.
  rewrite (@eq_count _ _ (mem S) mem_quadratic_residues).
  rewrite -size_filter.
  have /perm_size -> :
      perm_eq [seq x <- iota 0 (4 * k) | x \in S] [seq x <- S | x < 4 * k].
    apply: uniq_perm; rewrite ?filter_uniq ?iota_uniq // => x.
    by rewrite !mem_filter mem_iota add0n /= andbC.
  rewrite size_filter.
  have : count (fun x => x < 4 * k) S + count (pred1 (4 * k)) S = size S.
    rewrite -(count_predC (pred1 (4 * k)) S) addnC; congr (_ + _).
    apply: eq_in_count => x /ltS; rewrite p_4k1 addn1 ltnS /= => Hx.
    by rewrite ltn_neqAle Hx andbT.
  rewrite count_uniq_mem // inS szS => H.
  by apply/eqP; rewrite -(eqn_add2r 1) H.
Qed.

End QuadraticResidues.

(** ** Arrays: reading after writing, and loops of writes *)

Lemma get2_set2 (A : matrix nat) (i j v a b : nat) :
  get2 (set2 A i j v) a b = if (a == i) && (b == j) then v else get2 A a b.
Proof.
  rewrite /get2 /set2 nth_set_nth /=.
  case: (a =P i) => [->|] //=.
  by rewrite nth_set_nth /=; case: (b == j).
Qed.

Lemma well_shaped_set2 (rows cols : nat) (A : matrix nat) (i j v : nat) :
  i < rows -> j < cols -> well_shaped rows cols A ->
  well_shaped rows cols (set2 A i j v).
Proof.
  move=> Hi Hj [sA rA]; split.
  - by rewrite /set2 size_set_nth sA; apply/maxn_idPr.
  - move=> a Ha; rewrite /set2 nth_set_nth /=.
    case: (a =P i) => [_|_]; last exact: rA.
    by rewrite size_set_nth rA //; apply/maxn_idPr.
Qed.

Lemma well_shaped_zeros (rows cols : nat) : well_shaped rows cols (np_zeros rows cols).
Proof.
  split; first by rewrite size_nseq.
  by move=> i Hi; rewrite nth_nseq Hi size_nseq.
Qed.

Lemma get2_zeros (rows cols a b : nat) : get2 (np_zeros rows cols) a b = 0.
Proof.
  rewrite /get2 /np_zeros nth_nseq.
  by case: (a < rows); rewrite ?nth_nseq ?nth_nil //; case: (b < cols).
Qed.

Section WriteLoops.

Variables (rows cols : nat).

(** one column: [for i in is: if c i: A[i, j] = 1] *)
Lemma get2_column_loop (c : pred nat) (j : nat) (idx : seq nat) (A : matrix nat) (a b : nat) :
  get2 (foldl (fun A i => if c i then set2 A i j 1 else A) A idx) a b
  = if [&& b == j, a \in idx & c a] then 1 else get2 A a b.
Proof.
  elim: idx A => [|i idx IH] A /=; first by rewrite andbF.
  rewrite IH in_cons.
  have -> : get2 (if c i then set2 A i j 1 else A) a b
            = if [&& c i, a == i & b == j] then 1 else get2 A a b.
    by case: (c i); rewrite ?get2_set2.
  case: (b == j); rewrite ?andbF //=.
  case: (a =P i) => [->|_] /=; case: (c i) => //=; rewrite ?andbF //.
  by case: (i \in idx).
Qed.

Lemma well_shaped_column_loop (c : pred nat) (j : nat) (idx : seq nat) (A : matrix nat) :
  j < cols -> all (fun i => i < rows) idx -> well_shaped rows cols A ->
  well_shaped rows cols (foldl (fun A i => if c i then set2 A i j 1 else A) A idx).
Proof.
  move=> Hj; elim: idx A => [|i idx IH] A //= /andP [Hi Hidx] wA.
  apply: IH => //.
  by case: (c i) => //; exact: well_shaped_set2.
Qed.

(** the nested loops: [for j in js: for i in is: if c i j: A[i, j] = 1] *)
Lemma get2_nested_loop (c : nat -> nat -> bool) (idx jdx : seq nat) (A : matrix nat) (a b : nat) :
  get2 (foldl (fun A j => foldl (fun A i => if c i j then set2 A i j 1 else A) A idx)
              A jdx) a b
  = if [&& b \in jdx, a \in idx & c a b] then 1 else get2 A a b.
Proof.
  elim: jdx A => [|j jdx IH] A //=.
  rewrite IH in_cons (get2_column_loop (c^~ j)).
  case: (b =P j) => [->|_] //=.
  by case: (j \in jdx) => //=; case: ((a \in idx) && c a j).
Qed.

Lemma well_shaped_nested_loop (c : nat -> nat -> bool) (idx jdx : seq nat) (A : matrix nat) :
  all (fun i => i < rows) idx -> all (fun j => j < cols) jdx ->
  well_shaped rows cols A ->
  well_shaped rows cols
    (foldl (fun A j => foldl (fun A i => if c i j then set2 A i j 1 else A) A idx) A jdx).
Proof.
  move=> Hidx; elim: jdx A => [|j jdx IH] A //= /andP [Hj Hjdx] wA.
  apply: IH => //.
  exact: (well_shaped_column_loop (c^~ j)).
Qed.

End WriteLoops.

Lemma well_shaped_mkseq (rows cols : nat) (A : matrix nat) :
  well_shaped rows cols A ->
  A = mkseq (fun i => mkseq (fun j => get2 A i j) cols) rows.
Proof.
  case=> sA rA; apply: (@eq_from_nth _ [::]); first by rewrite size_mkseq.
  move=> i; rewrite sA => Hi; rewrite nth_mkseq //.
  apply: (@eq_from_nth _ 0); first by rewrite size_mkseq rA.
  by move=> j; rewrite rA // => Hj; rewrite nth_mkseq.
Qed.

Lemma all_range_lt (a b : nat) : all (fun i => i < b) (range a b).
Proof. by apply/allP => i; rewrite mem_range => /andP []. Qed.

(** ** The MURA square pattern, cell by cell *)

Lemma well_shaped_squarepattern (p : nat) :
  well_shaped p p (CodedAperture.squarepattern_body p).
Proof.
  rewrite /CodedAperture.squarepattern_body /CodedAperture.squarepattern_loop.
  apply: well_shaped_nested_loop; try exact: all_range_lt.
  case: p => [|p]; first exact: well_shaped_zeros.
  have := @well_shaped_column_loop p.+1 p.+1 xpredT 0 (range 1 p.+1) (np_zeros p.+1 p.+1).
  by apply => //; [exact: all_range_lt | exact: well_shaped_zeros].
Qed.

Lemma get2_squarepattern (p a b : nat) :
  a < p -> b < p ->
  get2 (CodedAperture.squarepattern_body p) a b
  = if b == 0 then (0 < a : nat)
    else if a == 0 then 0
    else (((a - 1) \in CodedAperture.quadratic_residues p)
          == ((b - 1) \in CodedAperture.quadratic_residues p) : nat).
Proof.
  move=> Ha Hb.
  rewrite /CodedAperture.squarepattern_body /CodedAperture.squarepattern_loop.
  rewrite get2_nested_loop !mem_range Ha Hb !andbT.
  have /= -> := get2_column_loop xpredT 0 (range 1 p) (np_zeros p p) a b.
  rewrite get2_zeros mem_range Ha !andbT.
  case: b {Hb} => [|b] /=; first by case: (0 < a).
  case: a {Ha} => [|a] //=.
  by rewrite negbK; case: (_ == _).
Qed.

Lemma count_ones_mkseq (f : nat -> nat -> nat) (rows cols : nat) :
  count_ones (mkseq (fun i => mkseq (f i) cols) rows)
  = sumn [seq count (fun j => f i j == 1) (iota 0 cols) | i <- iota 0 rows].
Proof.
  rewrite /count_ones /mkseq -map_comp; congr sumn.
  by apply: eq_map => i /=; rewrite count_map.
Qed.

Lemma sumn_if (P : pred nat) (x y : nat) (s : seq nat) :
  sumn [seq (if P a then x else y) | a <- s]
  = count P s * x + count (predC P) s * y.
Proof.
  elim: s => [//|a s IH] /=; rewrite IH.
  by case: (P a) => /=; rewrite ?add0n ?add1n ?mulSn; slia.
Qed.

Lemma sumn_add_const (c : nat) (g : nat -> nat) (s : seq nat) :
  sumn [seq c + g a | a <- s] = size s * c + sumn [seq g a | a <- s].
Proof.
  elim: s => [//|a s IH] /=; rewrite IH mulSn; slia.
Qed.

(** Number of ones of the pattern in terms of the number [m] of residues
    among [0 .. p-2]. *)
Lemma count_ones_squarepattern (p : nat) :
  0 < p ->
  let n := p.-1 in
  let m := count (mem (CodedAperture.quadratic_residues p)) (iota 0 n) in
  count_ones (CodedAperture.squarepattern_body p) = n + (m * m + (n - m) * (n - m)).
Proof.
  case: p => [//|n] _ /=.
  set q := CodedAperture.quadratic_residues n.+1.
  set m := count (mem q) (iota 0 n).
  rewrite [in LHS](well_shaped_mkseq (well_shaped_squarepattern n.+1)).
  rewrite count_ones_mkseq /=.
  have -> : count (fun j => get2 (CodedAperture.squarepattern_body n.+1) 0 j == 1)
              (iota 1 n) = 0.
    rewrite (@eq_in_count _ _ pred0) ?count_pred0 // => j.
    rewrite mem_iota add1n ltnS => /andP [j0 jn].
    by rewrite get2_squarepattern //; case: j j0 jn.
  rewrite get2_squarepattern //= add0n.
  have row a : a \in iota 1 n ->
      (get2 (CodedAperture.squarepattern_body n.+1) a 0 == 1)
      + count (fun j => get2 (CodedAperture.squarepattern_body n.+1) a j == 1) (iota 1 n)
      = 1 + (if (a - 1) \in q then m else n - m).
    rewrite mem_iota add1n ltnS => /andP [a0 an].
    rewrite get2_squarepattern // a0 /=; congr (_ + _).
    rewrite -[iota 1 n]/(iota (1 + 0) n) iotaDl count_map.
    have -> : n - m = count (predC (mem q)) (iota 0 n).
      by rewrite -[in LHS](size_iota 0 n) -(count_predC (mem q) (iota 0 n)) addKn.
    have a0' : (a == 0) = false by apply/negbTE; rewrite -lt0n.
    rewrite /m; case: ifP => Hq; apply: eq_in_count => j;
      rewrite mem_iota add0n /= => jn;
      rewrite get2_squarepattern ?ltnS // add1n /= a0' -/q Hq subn1 /=;
      by case: (j \in q).
  have /eq_in_map -> := row.
  rewrite sumn_add_const size_iota muln1 -[iota 1 n]/(iota (1 + 0) n) iotaDl -map_comp.
  have -> : [seq ((fun a => if (a - 1) \in q then m else n - m) \o addn 1) i
               | i <- iota 0 n]
            = [seq (if mem q a then m else n - m) | a <- iota 0 n].
    by apply: eq_map => a /=; rewrite add1n subn1.
  rewrite sumn_if -/m.
  have -> : count (predC (mem q)) (iota 0 n) = n - m.
    by rewrite -[in RHS](size_iota 0 n) -(count_predC (mem q) (iota 0 n)) addKn.
  by [].
Qed.

(** ** Sanity checks on small inputs *)

Example is_prime_13 : CodedAperture.is_prime 13 = true.
Proof. by []. Qed.
Example is_prime_9 : CodedAperture.is_prime 9 = false.
Proof. by []. Qed.
Example qr_13 : CodedAperture.quadratic_residues 13 = [:: 0; 1; 3; 4; 9; 10; 12].
Proof. by []. Qed.
Example ones_5 : count_ones (CodedAperture.squarepattern_body 5) = 12.
Proof. by vm_compute. Qed.
Example ones_13 : count_ones (CodedAperture.squarepattern_body 13) = 84.
Proof. by vm_compute. Qed.

(** ** Phase retrieval *)

(** C1: with [n_iter = 0] the loop body of [phase_retrieval] never runs, so
    the local variable [M_phi] is read before it is assigned: the call raises
    [UnboundLocalError] (or [IndexError] on a pitch array of fewer than two
    entries) and returns neither a phase nor a height map. *)
Theorem phase_retrieval_zero_iterations_raises
    `{Collaborators} (target_psf : matrix F) (wv dz n : F)
    (d1 : Mask.feature_size_arg) (height_map : bool) :
  PhaseContour.phase_retrieval target_psf wv d1 dz n 0 height_map
  = match d1 with
    | Mask.FsArray xs =>
        if size xs < 2 then Raise (IndexError "index out of range")
        else Raise (UnboundLocalError "M_phi")
    | Mask.FsFloat _ => Raise (UnboundLocalError "M_phi")
    end.
Proof.
  rewrite /PhaseContour.phase_retrieval.
  case: d1 => [x|xs] //=.
  by case: (size xs < 2).
Qed.

(** With at least one iteration the phase is returned. *)
Lemma phase_retrieval_returns
    `{Collaborators} (target_psf : matrix F) (wv dz n d1 : F) (k : nat)
    (height_map : bool) :
  is_ok (PhaseContour.phase_retrieval target_psf wv (Mask.FsFloat d1) dz n k.+1 height_map).
Proof.
  rewrite /PhaseContour.phase_retrieval /=.
  by case: height_map.
Qed.

(** ** The MURA branch of [CodedAperture.create_mask] *)

Lemma to_nat_mura_length (n_bits : nat) :
  Z.to_nat (4 * Z.of_nat n_bits + 1) = 4 * n_bits + 1.
Proof. rewrite -plusE -multE; lia. Qed.

Lemma squarepattern_of_bits_nat (n_bits : nat) :
  CodedAperture.squarepattern_of_bits (Z.of_nat n_bits)
  = CodedAperture.squarepattern (4 * n_bits + 1).
Proof.
  rewrite /CodedAperture.squarepattern_of_bits to_nat_mura_length.
  by have /Z.ltb_ge -> : (0 <= 4 * Z.of_nat n_bits + 1)%Z by lia.
Qed.

(** C5: for a prime [p = 4 * n_bits + 1], [squarepattern(p)] returns a
    [p] by [p] array with exactly [(p^2 - 1) / 2] cells equal to 1. *)
Theorem mura_pattern_density (n_bits : nat) :
  let p := 4 * n_bits + 1 in
  prime p ->
  exists A : matrix nat,
    [/\ CodedAperture.squarepattern_of_bits (Z.of_nat n_bits) = Ok A,
        well_shaped p p A
      & count_ones A = (p ^ 2 - 1) %/ 2].
Proof.
  move=> p Pp; exists (CodedAperture.squarepattern_body p).
  have p1 : 1 < p := prime_gt1 Pp.
  split.
  - by rewrite squarepattern_of_bits_nat /CodedAperture.squarepattern is_primeE // Pp.
  - exact: well_shaped_squarepattern.
  - have /= -> := @count_ones_squarepattern p (ltnW p1).
    have -> : p.-1 = 4 * n_bits by rewrite /p addn1.
    rewrite (count_residues Pp (erefl _)).
    have -> : p ^ 2 - 1 = 2 * (4 * n_bits + (2 * n_bits * (2 * n_bits)
                                 + (4 * n_bits - 2 * n_bits) * (4 * n_bits - 2 * n_bits))).
      rewrite /p -mulnn; to_coq_nat; nia.
    by rewrite mulKn.
Qed.

Lemma mura_pattern_density_witness :
  prime (4 * 3 + 1) /\
  exists A : matrix nat,
    [/\ CodedAperture.squarepattern_of_bits (Z.of_nat 3) = Ok A,
        well_shaped (4 * 3 + 1) (4 * 3 + 1) A
      & count_ones A = ((4 * 3 + 1) ^ 2 - 1) %/ 2].
Proof. split; [reflexivity | apply (@mura_pattern_density 3); reflexivity]. Defined.

(** For every [n_bits] other than 0, [squarepattern(4 * n_bits + 1)] raises
    a [ValueError] exactly when [4 * n_bits + 1] is not a prime number. *)
Lemma mura_error_iff_not_prime (n_bits : Z) :
  n_bits <> 0%Z ->
  let p := (4 * n_bits + 1)%Z in
  (exists msg, CodedAperture.squarepattern_of_bits n_bits = Raise (ValueError msg))
  <-> ~~ ((0 <? p)%Z && prime (Z.to_nat p)).
Proof.
  move=> n0 p; rewrite /CodedAperture.squarepattern_of_bits -/p.
  case: (Z.ltb_spec p 0) => Hp.
  - have /Z.ltb_ge -> : (p <= 0)%Z by lia.
    by split=> // _; eexists.
  - have /Z.ltb_lt -> : (0 < p)%Z by rewrite /p; lia.
    have p1 : 1 < Z.to_nat p by apply/ltP; rewrite /p; lia.
    rewrite /CodedAperture.squarepattern is_primeE //=.
    case: (prime _) => /=; split=> //; first by case.
    by move=> _; eexists.
Qed.

(** C4, at [n_bits = 0]: the length [p = 1] is not prime, yet [is_prime(1)]
    answers [True]; [squarepattern(1)] raises no [ValueError] and returns
    the array [[0]], and [create_mask] fails later, with an [IndexError], on
    the empty array [squarepattern(1)[1:, 1:]]. *)
Theorem mura_length_one_passes_prime_check `{Collaborators} :
  [/\ ~~ prime 1,
      CodedAperture.is_prime 1,
      CodedAperture.squarepattern_of_bits 0 = Ok [:: [:: 0]]
    & CodedAperture.raw_pattern "MURA" 0
      = Raise (IndexError "index 0 is out of bounds for axis 0 with size 0")].
Proof. by []. Qed.

(** ** [Mask.__init__]: size, feature size and their invariant *)

Section MaskInvariant.

Context `{Scalar}.

(** The check [np.all(resolution * feature_size <= size)] on arrays of two. *)
Lemma fits2 (r0 r1 : nat) (p0 p1 s0 s1 : F) :
  Mask.fits [:: r0; r1] [:: p0; p1] [:: s0; s1]
  = Ok ((of_nat r0 * p0 <= s0)%F && (of_nat r1 * p1 <= s1)%F).
Proof. by rewrite /Mask.fits /Mask.broadcast /= andbT. Qed.

(** [size] alone is given. *)
Lemma init_attrs_size (r0 r1 : nat) (dist s0 s1 : F) :
  Mask.init_attrs [:: r0; r1] dist (Some [:: s0; s1]) None
  = let p0 := (s0 / of_nat r0)%F in
    let p1 := (s1 / of_nat r1)%F in
    if (of_nat r0 * p0 <= s0)%F && (of_nat r1 * p1 <= s1)%F
    then Ok (Mask.Attrs [:: r0; r1] [:: s0; s1] [:: p0; p1] dist)
    else Raise (AssertionError "").
Proof.
  rewrite /Mask.init_attrs /= /Mask.broadcast /= andbT.
  by case: (_ && _).
Qed.

(** [feature_size] alone is given, as a float. *)
Lemma init_attrs_feature_float (r0 r1 : nat) (dist x : F) :
  Mask.init_attrs [:: r0; r1] dist None (Some (Mask.FsFloat x))
  = let s0 := (of_nat r0 * x)%F in
    let s1 := (of_nat r1 * x)%F in
    if (f0 < x)%F then
      if (of_nat r0 * x <= s0)%F && (of_nat r1 * x <= s1)%F
      then Ok (Mask.Attrs [:: r0; r1] [:: s0; s1] [:: x; x] dist)
      else Raise (AssertionError "")
    else Raise (AssertionError "Feature size should be positive").
Proof.
  rewrite /Mask.init_attrs /= andbT andbb.
  case: (f0 < x)%F => //=.
  by rewrite /Mask.fits /Mask.broadcast /= andbT; case: (_ && _).
Qed.

(** [feature_size] alone is given, as an array of two. *)
Lemma init_attrs_feature_array (r0 r1 : nat) (dist p0 p1 : F) :
  Mask.init_attrs [:: r0; r1] dist None (Some (Mask.FsArray [:: p0; p1]))
  = let s0 := (of_nat r0 * p0)%F in
    let s1 := (of_nat r1 * p1)%F in
    if (f0 < p0)%F && (f0 < p1)%F then
      if (of_nat r0 * p0 <= s0)%F && (of_nat r1 * p1 <= s1)%F
      then Ok (Mask.Attrs [:: r0; r1] [:: s0; s1] [:: p0; p1] dist)
      else Raise (AssertionError "")
    else Raise (AssertionError "Feature size should be positive").
Proof.
  rewrite /Mask.init_attrs /= /Mask.broadcast /= andbT.
  case: (_ && _) => //=.
  by rewrite /Mask.fits /Mask.broadcast /= andbT; case: (_ && _).
Qed.

Lemma init_attrs_invariant (res : seq nat) (dist : F) (sz : option (seq F))
    (fs : option Mask.feature_size_arg) (a : Mask.attrs) :
  Mask.init_attrs res dist sz fs = Ok a -> invariant a.
Proof.
  case: res => [|r0 [|r1 [|? ?]]] //.
  case: sz => [[|s0 [|s1 [|? ?]]]|]; case: fs => [[x|[|p0 [|p1 [|? ?]]]]|] //;
    rewrite /Mask.init_attrs /Mask.fits /Mask.broadcast /=;
    repeat (match goal with
            | |- context [assert ?b _] =>
                let E := fresh "E" in case E: b => //=
            end);
    repeat (match goal with
            | E : (_ && _) = true |- _ => case/andP: E => ? ?
            | E : is_true (_ && _) |- _ => case/andP: E => ? ?
            end);
    case=> <-;
    first [ by exists r0, r1, x, x, s0, s1; split
          | by exists r0, r1, p0, p1, s0, s1; split
          | by exists r0, r1, (s0 / of_nat r0)%F, (s1 / of_nat r1)%F, s0, s1; split
          | by exists r0, r1, x, x, (of_nat r0 * x)%F, (of_nat r1 * x)%F; split
          | by exists r0, r1, p0, p1, (of_nat r0 * p0)%F, (of_nat r1 * p1)%F; split ].
Qed.

End MaskInvariant.

Section MaskConstruction.

Context `{Collaborators}.

(** What a successful [Mask.__init__] went through. *)
Lemma init_ok (X : Type) (create_mask : Mask.attrs -> M (matrix (cell F C) * X))
    (res : seq nat) (dist : F) (sz : option (seq F))
    (fs : option Mask.feature_size_arg) (wv : seq F) (g g' : rng) (m : Mask.t X) :
  Mask.init create_mask res dist sz fs wv g = Ok (m, g') ->
  [/\ Mask.init_attrs res dist sz fs = Ok (Mask.base m),
      create_mask (Mask.base m) g = Ok ((Mask.mask m, Mask.extra m), g'),
      Mask.compute_psf (Mask.base m) (Mask.mask m) wv = Ok (Mask.psf m)
    & Mask.psf_wavelength m = wv /\ Mask.shape m = shape2 (Mask.mask m)].
Proof.
  rewrite /Mask.init /bindM /lift /ret.
  case Ea: (Mask.init_attrs _ _ _ _) => [a|] //.
  case Ec: (create_mask a g) => [[[mk x] g2]|] //=.
  case Ep: (Mask.compute_psf _ _ _) => [psf|] //.
  by case=> <- <- /=.
Qed.

(** The assertion of [__init__] is what fails when the invariant does not
    hold of the derived quantities. *)
Lemma init_raises_on_violation (X : Type)
    (create_mask : Mask.attrs -> M (matrix (cell F C) * X))
    (r0 r1 : nat) (dist : F) (wv : seq F) (g : rng) :
  (forall s0 s1,
     Mask.fits [:: r0; r1] [:: (s0 / of_nat r0)%F; (s1 / of_nat r1)%F] [:: s0; s1]
     = Ok false ->
     Mask.init create_mask [:: r0; r1] dist (Some [:: s0; s1]) None wv g
     = Raise (AssertionError ""))
  /\ (forall p0 p1,
     Mask.fits [:: r0; r1] [:: p0; p1] [:: (of_nat r0 * p0)%F; (of_nat r1 * p1)%F]
     = Ok false ->
     exists msg,
       Mask.init create_mask [:: r0; r1] dist None (Some (Mask.FsArray [:: p0; p1])) wv g
       = Raise (AssertionError msg)).
Proof.
  split=> [s0 s1|p0 p1]; rewrite fits2 => -[E]; rewrite /Mask.init /bindM /lift.
  - by rewrite init_attrs_size /= E.
  - rewrite init_attrs_feature_array /= E.
    by case: (_ && _); eexists.
Qed.

End MaskConstruction.

(** C3: a [Mask] constructed from exactly one of [size] and [feature_size]
    has the other one derived elementwise ([size = resolution * feature_size],
    or [feature_size = size / resolution]) and satisfies
    [resolution * feature_size <= size] in both components; when the derived
    quantities do not satisfy it, construction fails on the assertion. *)
Theorem mask_size_feature_size_invariant
    `{Collaborators} (X : Type) (create_mask : Mask.attrs -> M (matrix (cell F C) * X))
    (res : seq nat) (dist : F) (sz : option (seq F))
    (fs : option Mask.feature_size_arg) (wv : seq F) (g g' : rng) (m : Mask.t X) :
  isSome sz != isSome fs ->
  Mask.init create_mask res dist sz fs wv g = Ok (m, g') ->
  (exists r0 r1 p0 p1 s0 s1,
     [/\ res = [:: r0; r1] /\ Mask.resolution (Mask.base m) = res,
         Mask.feature_size (Mask.base m) = [:: p0; p1]
         /\ Mask.size_ (Mask.base m) = [:: s0; s1],
         match sz, fs with
         | Some s, None =>
             [/\ s = [:: s0; s1], p0 = (s0 / of_nat r0)%F & p1 = (s1 / of_nat r1)%F]
         | None, Some a =>
             [/\ a = Mask.FsFloat p0 /\ p1 = p0 \/ a = Mask.FsArray [:: p0; p1],
                 s0 = (of_nat r0 * p0)%F & s1 = (of_nat r1 * p1)%F]
         | _, _ => False
         end
       & (of_nat r0 * p0 <= s0)%F /\ (of_nat r1 * p1 <= s1)%F])
  /\ (forall r0 r1 s0 s1 g0,
        Mask.fits [:: r0; r1] [:: (s0 / of_nat r0)%F; (s1 / of_nat r1)%F] [:: s0; s1]
        = Ok false ->
        Mask.init create_mask [:: r0; r1] dist (Some [:: s0; s1]) None wv g0
        = Raise (AssertionError ""))
  /\ (forall r0 r1 p0 p1 g0,
        Mask.fits [:: r0; r1] [:: p0; p1] [:: (of_nat r0 * p0)%F; (of_nat r1 * p1)%F]
        = Ok false ->
        exists msg,
          Mask.init create_mask [:: r0; r1] dist None
            (Some (Mask.FsArray [:: p0; p1])) wv g0
          = Raise (AssertionError msg)).
Proof.
  move=> one /init_ok [Ha _ _ _]; split; last first.
    by split=> r0 r1 ? ? g0;
       have [R1 R2] := init_raises_on_violation create_mask r0 r1 dist wv g0;
       [exact: R1 | exact: R2].
  move: Ha; case: res => [|r0 [|r1 [|? ?]]] //.
  case: sz one => [[|s0 [|s1 [|? ?]]]|]; case: fs => [[x|[|p0 [|p1 [|? ?]]]]|] //= _;
    try by rewrite /Mask.init_attrs /= /Mask.broadcast /=.
  - rewrite init_attrs_size /=; case: ifP => // /andP [E0 E1] [<-] /=.
    by exists r0, r1, (s0 / of_nat r0)%F, (s1 / of_nat r1)%F, s0, s1.
  - rewrite init_attrs_feature_float /=; case: ifP => // _.
    case: ifP => // /andP [E0 E1] [<-] /=.
    exists r0, r1, x, x, (of_nat r0 * x)%F, (of_nat r1 * x)%F; split=> //.
    by split=> //; left.
  - rewrite init_attrs_feature_array /=; case: ifP => // _.
    case: ifP => // /andP [E0 E1] [<-] /=.
    exists r0, r1, p0, p1, (of_nat r0 * p0)%F, (of_nat r1 * p1)%F; split=> //.
    by split=> //; right.
Qed.

Lemma mask_size_feature_size_invariant_witness :
  exists p0 p1 s0 s1 : float,
    [/\ Mask.feature_size (Mask.base demo_mask) = [:: p0; p1],
        Mask.size_ (Mask.base demo_mask) = [:: s0; s1],
        p0 = PrimFloat.div s0 (@of_nat binary64 2)
      & PrimFloat.leb (PrimFloat.mul (@of_nat binary64 2) p0) s0].
Proof.
  have [] := @mask_size_feature_size_invariant binary64 (@Demo.collaborators binary64) unit
               (fun _ => ret ([::], tt)) [:: 2; 2] 1%float
               (Some [:: 1%float; 1%float]) None [::] 0%Z 0%Z demo_mask.
  - reflexivity.
  - reflexivity.
  - move=> [r0 [r1 [p0 [p1 [s0 [s1 [[E1 E2] [Hp Hs] [E3 E4 E5] [H0 H1]]]]]]]] _.
    case: E1 E4 H0 => <- _ E4 H0.
    by exists p0, p1, s0, s1.
Defined.

(** In binary64 the derived pitch can break the invariant by rounding:
    [3 * (0.007 / 3) > 0.007], and [Mask(resolution=(3, 3), size=(0.007,
    0.007))] fails on the assertion. *)
Example init_attrs_rounding :
  @Mask.init_attrs binary64 [:: 3; 3] 1%float
    (Some [:: 0x1.cac083126e979p-8%float; 0x1.cac083126e979p-8%float]) None
  = Raise (AssertionError "").
Proof. reflexivity. Qed.

(** ** [MultiLensArray]: the height map *)

Section HeightMap.

Context `{Scalar}.

Lemma lens_contribution_from_first_cover (idx : nat) (radius : seq F)
    (locs : seq (F * F)) (x y : F) :
  idx + size locs <= size radius ->
  MultiLensArray.lens_contribution_from idx radius locs x y
  = Ok (first_cover_height x y (zip locs (drop idx radius))).
Proof.
  elim: locs idx => [|loc locs IH] idx /=.
    by rewrite /first_cover_height; case: (drop idx radius).
  rewrite addnS => Hsz.
  have Hidx : idx < size radius by apply: leq_trans Hsz; rewrite ltnS leq_addr.
  rewrite Hidx (drop_nth f0 Hidx) /= /first_cover_height /= {1}/covers /=.
  case: ifP => // _.
  by rewrite IH // addSn.
Qed.

Lemma mapM_ok (A B : Type) (f : A -> result B) (g : A -> B) (xs : seq A) :
  (forall x, f x = Ok (g x)) -> mapM f xs = Ok [seq g x | x <- xs].
Proof. by move=> fg; elim: xs => [//|x xs IH] /=; rewrite fg IH. Qed.

Lemma filter_nil_has (A : Type) (p : pred A) (s : seq A) :
  ~~ has p s -> [seq x <- s | p x] = [::].
Proof.
  move=> Hn; apply: size0nil; rewrite size_filter.
  by apply/eqP; rewrite -leqn0 leqNgt -has_count.
Qed.

Lemma first_cover_first (px py : F) (before after : seq lens) (l : lens) :
  ~~ has (covers px py) before -> covers px py l ->
  first_cover_height px py (before ++ l :: after) = cap_height px py l.
Proof.
  move=> /filter_nil_has Hb Hl.
  by rewrite /first_cover_height filter_cat Hb /= Hl.
Qed.

Lemma first_cover_none (px py : F) (lenses : seq lens) :
  ~~ has (covers px py) lenses -> first_cover_height px py lenses = f0.
Proof. by move=> /filter_nil_has Hb; rewrite /first_cover_height Hb. Qed.

End HeightMap.

(** C7: every pixel [(x, y)] of the height map holds the minimum height plus
    the spherical cap [sqrt(r^2 - dx^2 - dy^2)], taken in pixel units at the
    pixel centre and scaled by the pitch [feature_size[0]], of the first lens
    in placement order whose disk strictly covers the centre, and plus 0 when
    no lens covers it; the lenses after the first covering one play no part. *)
Theorem height_map_first_match `{Scalar} (a : Mask.attrs) (min_height : F)
    (radius : seq F) (locs : seq (F * F)) :
  size radius = size locs ->
  let r0 := nth 0 (Mask.resolution a) 0 in
  let r1 := nth 0 (Mask.resolution a) 1 in
  let fs0 := nth f0 (Mask.feature_size a) 0 in
  let lenses := zip locs radius in
  let centre (i : nat) := (of_nat i + half)%F in
  exists height : matrix F,
    [/\ MultiLensArray.height_values a min_height radius locs = Ok height,
        (* the assertion of [create_height_map] is the only way to fail *)
        MultiLensArray.create_height_map a min_height radius locs
        = (if all (all (fun h => (min_height <= h)%F)) height then Ok height
           else Raise (AssertionError "")),
        has_shape height r0 r1,
        forall x y, x < r0 -> y < r1 ->
          nth f0 (nth [::] height x) y
          = (min_height + first_cover_height (centre x) (centre y) lenses * fs0)%F
      & forall px py before l after,
          lenses = before ++ l :: after ->
          ~~ has (covers px py) before -> covers px py l ->
          first_cover_height px py lenses = cap_height px py l].
Proof.
  move=> Hsz r0 r1 fs0 lenses centre.
  pose h x y := (min_height + first_cover_height (centre x) (centre y) lenses * fs0)%F.
  exists [seq [seq h x y | y <- range 0 r1] | x <- range 0 r0].
  have Hv : MultiLensArray.height_values a min_height radius locs
            = Ok [seq [seq h x y | y <- range 0 r1] | x <- range 0 r0].
    rewrite /MultiLensArray.height_values -/r0 -/r1 -/fs0.
    apply: mapM_ok => x; apply: mapM_ok => y.
    have Hle : 0 + size locs <= size radius by rewrite add0n Hsz.
    rewrite /MultiLensArray.lens_contribution.
    by rewrite (lens_contribution_from_first_cover _ _ Hle) drop0.
  split=> //.
  - by rewrite /MultiLensArray.create_height_map Hv /= /assert; case: (all _ _).
  - rewrite /has_shape size_map /range size_iota subn0 eqxx /=.
    by rewrite all_map; apply/allP => x _ /=; rewrite size_map size_iota subn0.
  - move=> x y Hx Hy; rewrite /range !subn0.
    rewrite (nth_map 0) ?size_iota // (nth_map 0) ?size_iota //.
    by rewrite !nth_iota.
  - by move=> px py before l after -> ; exact: first_cover_first.
Qed.

(** One lens of radius 1.5 pixels centred in a mask of 2 by 2 pixels. *)
Lemma height_map_first_match_witness :
  exists height : matrix float,
    @MultiLensArray.height_values binary64 demo_attrs 0.125%float
      [:: 1.5%float] [:: (1%float, 1%float)] = Ok height
    /\ nth 0%float (nth [::] height 0) 0
       = PrimFloat.add 0.125%float
           (PrimFloat.mul
              (@first_cover_height binary64 0.5%float 0.5%float
                 [:: ((1%float, 1%float), 1.5%float)]) 0.5%float).
Proof.
  have [] := @height_map_first_match binary64 demo_attrs 0.125%float
               [:: 1.5%float] [:: (1%float, 1%float)].
  - reflexivity.
  - move=> height [Hv _ _ Hpix _]; exists height; split=> //.
    by rewrite (Hpix 0 0).
Defined.

(** ** [MultiLensArray]: lenses that do not overlap *)

Section Placement.

Context `{Collaborators}.


Lemma no_circle_overlapE (cs : seq MultiLensArray.circle) :
  MultiLensArray.no_circle_overlap cs = listed_apart cs.
Proof.
  elim: cs => [//|c cs IH] /=.
  have -> : all (fun e => ~~ overlap c e) cs = ~~ has (overlap c) cs.
    exact: all_predC.
  rewrite /MultiLensArray.does_circle_overlap -IH -/(overlap c).
  by case: (has _ _).
Qed.

Lemma try_place_ok (k : nat) (placed : seq MultiLensArray.circle) (w h r : F)
    (g g' : rng) (c : MultiLensArray.circle) :
  MultiLensArray.try_place k placed w h r g = Ok (Some c, g') ->
  ~~ MultiLensArray.does_circle_overlap placed c.1.1 c.1.2 c.2 /\ c.2 = r.
Proof.
  elim: k g => [//|k IH] g /=.
  rewrite /bindM /np_random_uniform.
  case: (random_sample g) => u g1 /=.
  case: (random_sample g1) => v g2 /=.
  case: ifP => [Hno|_]; last exact: IH.
  by rewrite /ret => -[<- _] /=.
Qed.

(** The attempts for one radius always come to an end. *)
Lemma try_place_total (k : nat) (placed : seq MultiLensArray.circle) (w h r : F)
    (g : rng) :
  is_ok (MultiLensArray.try_place k placed w h r g).
Proof.
  elim: k g => [//|k IH] g /=.
  rewrite /bindM /np_random_uniform.
  case: (random_sample g) => u g1 /=.
  case: (random_sample g1) => v g2 /=.
  by case: ifP.
Qed.


(** The greedy placement returns, and never loops for ever. *)
Lemma place_loop_total (k : nat) (w h : F) (rs : seq F)
    (placed : seq MultiLensArray.circle) (g : rng) :
  is_ok (MultiLensArray.place_loop k w h rs placed g).
Proof.
  elim: rs placed g => [//|r rs IH] placed g /=.
  rewrite {1}/bindM.
  have := try_place_total k placed w h r g.
  by case: (MultiLensArray.try_place k placed w h r g) => [[c g1]|].
Qed.


(** With radii and locations given, a constructor that goes through has
    tested every circle against the ones after it. *)
Lemma init_lenses_explicit_apart (N : option nat) (rad : seq F) (l : seq (F * F))
    (seed : Z) (min_height : F) (g g' : rng) (r : option nat * seq F * option (seq (F * F))) :
  MultiLensArray.init_lenses N (Some rad) (Some l) seed min_height g = Ok (r, g') ->
  [/\ r = (Some (size rad), rad, Some l), size rad = size l
    & listed_apart [seq (p.1.1, p.1.2, p.2) | p <- zip l rad]].
Proof.
  rewrite /MultiLensArray.init_lenses /bindM /lift /assert.
  case: eqP => // Hsz.
  rewrite no_circle_overlapE.
  by case: ifP => // Hl; rewrite /ret => -[<- _].
Qed.

(** With radii given and locations that overlap, construction fails. *)
Lemma init_lenses_explicit_overlap (N : option nat) (rad : seq F) (l : seq (F * F))
    (seed : Z) (min_height : F) (g : rng) :
  size rad = size l ->
  ~~ listed_apart [seq (p.1.1, p.1.2, p.2) | p <- zip l rad] ->
  MultiLensArray.init_lenses N (Some rad) (Some l) seed min_height g
  = Raise (AssertionError "").
Proof.
  move=> Hsz Hn.
  rewrite /MultiLensArray.init_lenses /bindM /lift /assert Hsz eqxx.
  by rewrite no_circle_overlapE (negbTE Hn).
Qed.

(** With [N] and locations given but no radii, [__init__] draws the radii
    and tests nothing. *)
Lemma init_lenses_mixed (n : nat) (l : seq (F * F)) (seed : Z) (min_height : F) (g : rng) :
  (0 <= seed < 2 ^ 32)%Z ->
  exists rad g',
    np_random_uniform_seq min_height f1e_5 n (seed_state seed) = Ok (rad, g')
    /\ MultiLensArray.init_lenses (Some n) None (Some l) seed min_height g
       = Ok ((Some n, rad, Some l), g').
Proof.
  move=> [/Z.leb_le Hlo /Z.ltb_lt Hhi].
  have [rad [g' [Hd Hs]]] :
      exists rad g', np_random_uniform_seq min_height f1e_5 n (seed_state seed)
                     = Ok (rad, g') /\ size rad = n.
    elim: n (seed_state seed) => [|n IH] g0 /=; first by exists [::], g0.
    rewrite /bindM /np_random_uniform; case: (random_sample g0) => u g1 /=.
    have [rad [g2 [-> Hs]]] := IH g1.
    by exists ((min_height + (f1e_5 - min_height) * u)%F :: rad), g2; rewrite /= Hs.
  exists rad, g'; split=> //.
  rewrite /MultiLensArray.init_lenses /bindM /np_random_seed Hlo Hhi /= Hd.
  by rewrite /lift /assert Hs eqxx.
Qed.

End Placement.

Section PlacementPairs.

Context `{Collaborators}.


Lemma listed_apart_nth (cs : seq MultiLensArray.circle) (d : MultiLensArray.circle)
    (i j : nat) :
  listed_apart cs -> i < j -> j < size cs -> ~~ overlap (nth d cs i) (nth d cs j).
Proof.
  elim: cs i j => [//|c cs IH] i [//|j] /= /andP [Hc Hcs].
  case: i => [_|i]; last by rewrite !ltnS; exact: IH.
  by rewrite ltnS => Hj /=; have /all_nthP := Hc; apply.
Qed.

End PlacementPairs.

(** *** Over the real numbers: distances *)

Section PlacementReal.

Context {K : @Collaborators real_scalar}.

Local Open Scope R_scope.

Lemma centre_distance_sym (c e : R * R * R) : centre_distance c e = centre_distance e c.
Proof. by rewrite /centre_distance; congr R_sqrt.sqrt; ring. Qed.

Lemma RltbP (x y : R) : reflect (x < y) (Rltb x y).
Proof. by rewrite /Rltb; case: (Rlt_dec x y) => Hx; constructor. Qed.

Lemma RlebP (x y : R) : reflect (x <= y) (Rleb x y).
Proof. by rewrite /Rleb; case: (Rle_dec x y) => Hx; constructor. Qed.

Lemma overlap_distance (c e : R * R * R) :
  ~~ @overlap real_scalar c e <-> c.2 + e.2 <= centre_distance c e.
Proof.
  rewrite /overlap /MultiLensArray.overlaps /centre_distance.
  case: e => [[cx cy] cr] /=; rewrite /fsqr /=.
  split=> [/RltbP Hn|Hle]; first exact: Rnot_lt_le.
  by apply/RltbP; apply: Rle_not_lt.
Qed.


Lemma listed_apart_pairwise (cs : seq (R * R * R)) :
  @listed_apart real_scalar cs -> pairwise_apart cs.
Proof.
  move=> Hp i j Hi Hj ij.
  case: (ltngtP i j) => [lt|gt|//].
  - by apply/overlap_distance; exact: listed_apart_nth.
  - rewrite Rplus_comm centre_distance_sym; apply/overlap_distance.
    exact: listed_apart_nth.
Qed.


Lemma explicit_lenses_pairwise_apart (N : option nat) (rad : seq R) (l : seq (R * R))
    (seed : Z) (min_height : R) (g g' : rng)
    (r : option nat * seq R * option (seq (R * R))) :
  @MultiLensArray.init_lenses real_scalar K N (Some rad) (Some l) seed min_height g
  = Ok (r, g') ->
  pairwise_apart [seq (p.1.1, p.1.2, p.2) | p <- zip l rad].
Proof. by case/init_lenses_explicit_apart => _ _ /listed_apart_pairwise. Qed.

(** The path they leave out: lenses given by [N] and [loc] alone.  Whatever
    the generator draws from [0, 1), two lenses on the same centre get
    positive radii, overlap, and are accepted. *)
Lemma mixed_lenses_overlap (x y : R) (seed : Z) (min_height : R) (g : rng) :
  (0 <= seed < 2 ^ 32)%Z -> 0 < min_height ->
  (forall g0, 0 <= (random_sample g0).1 < 1) ->
  exists r1 r2 g',
    @MultiLensArray.init_lenses real_scalar K (Some 2%N) None (Some [:: (x, y); (x, y)])
      seed min_height g
    = Ok ((Some 2%N, [:: r1; r2], Some [:: (x, y); (x, y)]), g')
    /\ centre_distance (x, y, r1) (x, y, r2) < r1 + r2.
Proof.
  move=> Hseed Hmin Hu.
  have [rad [g' [Hd Hi]]] :=
    @init_lenses_mixed real_scalar K 2 [:: (x, y); (x, y)] seed min_height g Hseed.
  move: Hd Hi; rewrite /= /bindM /np_random_uniform.
  have := Hu (seed_state seed); case: (random_sample (seed_state seed)) => u1 g1 /= Hu1.
  have := Hu g1; case: (random_sample g1) => u2 g2 /= Hu2.
  rewrite /ret => -[<- <-] Hi.
  eexists _, _, _; split; first exact: Hi.
  rewrite /centre_distance /= /f1e_5 /f1 /=.
  have -> : (x - x) * (x - x) + (y - y) * (y - y) = 0 by ring.
  rewrite sqrt_0.
  have Hpos u : 0 <= u < 1 -> 0 < min_height + (1 / 100000 - min_height) * u.
    move=> [Hu0 Hu1'].
    have -> : min_height + (1 / 100000 - min_height) * u
              = min_height * (1 - u) + 1 / 100000 * u by ring.
    apply: Rplus_lt_le_0_compat; first by apply: Rmult_lt_0_compat; lra.
    by apply: Rmult_le_pos; lra.
  by have := Hpos _ Hu1; have := Hpos _ Hu2; lra.
Qed.

End PlacementReal.

(** C6, on the path the two checks leave out: [MultiLensArray(N=2, loc=[c, c])]
    is constructed although its two lenses share their centre and overlap. *)
Theorem lenses_from_count_and_locations_overlap :
  match two_lenses_same_centre 0%Z with
  | Ok (m, _) =>
      let st := Mask.extra m in
      (size (MultiLensArray.radius st) == 2)
      && ~~ MultiLensArray.no_circle_overlap
              [seq (p.1.1, p.1.2, p.2)
              | p <- zip (MultiLensArray.loc st) (MultiLensArray.radius st)]
  | Raise _ => false
  end.
Proof. by vm_compute. Qed.

(** ** [CodedAperture]: the separable measurement *)

Lemma ceil_div_mul (n s : nat) : 0 < s -> n <= (n + s.-1) %/ s * s.
Proof.
  move=> s0; have := divn_eq (n + s.-1) s; have := ltn_pmod (n + s.-1) s0.
  move: ((n + s.-1) %/ s * s) ((n + s.-1) %% s) => q r Hr E.
  by slia.
Qed.

Lemma size_flatten_nseq (T : Type) (a : seq T) (m : nat) :
  size (flatten (nseq m a)) = m * size a.
Proof. by elim: m => [//|m IH] /=; rewrite size_cat IH mulSn. Qed.

Lemma nth_flatten_nseq (a : seq Z) (m k : nat) :
  k < m * size a -> nth 0%Z (flatten (nseq m a)) k = nth 0%Z a (k %% size a).
Proof.
  elim: m k => [//|m IH] k /=; rewrite mulSn nth_cat.
  case: (ltnP k (size a)) => [lt _|ge Hk]; first by rewrite modn_small.
  have Hk' : k - size a < m * size a by rewrite ltn_subLR.
  by rewrite (IH _ Hk') -{2}(subnK ge) modnDr.
Qed.

Lemma size_np_resize (a : seq Z) (n : nat) : size (CodedAperture.np_resize a n) = n.
Proof.
  rewrite /CodedAperture.np_resize; case: ifP => [_|/norP]; first by rewrite size_nseq.
  rewrite -lt0n => -[s0 _].
  by rewrite size_takel // size_flatten_nseq ceil_div_mul.
Qed.

(** [np.resize] repeats its argument cyclically. *)
Lemma nth_np_resize (a : seq Z) (n k : nat) :
  0 < size a -> k < n ->
  nth 0%Z (CodedAperture.np_resize a n) k = nth 0%Z a (k %% size a).
Proof.
  move=> s0 kn; rewrite /CodedAperture.np_resize.
  have -> /= : (size a == 0) = false by apply/negbTE; rewrite -lt0n.
  have -> /= : (n == 0) = false by apply/negbTE; rewrite -lt0n; apply: leq_ltn_trans kn.
  rewrite nth_take // nth_flatten_nseq //.
  by apply: leq_trans kn _; exact: ceil_div_mul.
Qed.

Lemma has_shape_conv_matrix (v : seq Z) (n k : nat) :
  has_shape (cells (CodedAperture.conv_matrix v n k)) n (minn k n).
Proof.
  rewrite /has_shape /CodedAperture.conv_matrix /CodedAperture.circulant /=.
  rewrite !size_np_resize !size_map size_iota eqxx /= all_map all_map.
  apply/allP => i _ /=.
  by rewrite size_take size_map size_iota /minn; case: ltnP.
Qed.

(** Entry [(i, j)] of [circulant(np.resize(v, n))[:, :k]]. *)
Lemma nth_conv_matrix (v : seq Z) (n k i j : nat) :
  0 < size v -> i < n -> j < k -> j < n ->
  nth 0%Z (nth [::] (cells (CodedAperture.conv_matrix v n k)) i) j
  = nth 0%Z v (((i + n - j) %% n) %% size v).
Proof.
  move=> v0 Hi Hjk Hjn.
  rewrite /CodedAperture.conv_matrix /CodedAperture.circulant /= !size_np_resize.
  rewrite (nth_map [::]) ?size_map ?size_iota // nth_take //.
  rewrite (nth_map 0) ?size_iota // nth_iota // add0n.
  rewrite (nth_map 0) ?size_iota // nth_iota // add0n.
  by rewrite nth_np_resize // ltn_pmod //; apply: leq_ltn_trans Hi.
Qed.

Section Simulate.

Context `{Collaborators}.

(** The product of three arrays whose shapes chain. *)
Lemma multi_dot3_ok (A B D : ndarray2 F) :
  ncols A = nrows B -> ncols B = nrows D ->
  exists E, CodedAperture.multi_dot3 A B D = Ok E
            /\ nrows E = nrows A /\ ncols E = ncols D.
Proof.
  move=> AB BD; rewrite /CodedAperture.multi_dot3 /CodedAperture.np_dot.
  by case: ifP => _ /=; rewrite AB BD !eqxx /= ?AB ?BD ?eqxx; eexists.
Qed.

(** The product of three arrays whose shapes do not chain. *)
Lemma multi_dot3_raise (A B D : ndarray2 F) :
  ncols A <> nrows B \/ ncols B <> nrows D ->
  CodedAperture.multi_dot3 A B D = Raise (ValueError "shapes not aligned").
Proof.
  rewrite /CodedAperture.multi_dot3 /CodedAperture.np_dot => Hne.
  case: ifP => _ /=.
  - case: (ncols A =P nrows B) => [E1|//] /=.
    by case: (ncols B =P nrows D) Hne => [E2 [|]|].
  - case: (ncols B =P nrows D) => [E2|//] /=.
    by case: (ncols A =P nrows B) Hne => [E1 [|]|].
Qed.

Lemma mapM_all_ok (A B : Type) (f : A -> result B) (p : pred B) (xs : seq A) :
  (forall x, exists2 y, f x = Ok y & p y) ->
  exists ys, [/\ mapM f xs = Ok ys, size ys = size xs & all p ys].
Proof.
  move=> Hf; elim: xs => [|x xs [ys [Hys Hsz HP]]] /=; first by exists [::].
  have [y -> Py] := Hf x; rewrite Hys /=.
  by exists (y :: ys); split=> //=; rewrite ?Hsz ?Py.
Qed.

End Simulate.

(** C10 (for an image with at least one channel): on an image of shape
    [(h, w, c)] with [h <= resolution[0]] and [w <= resolution[1]],
    [get_conv_matrices] returns [P] of shape [(resolution[0], h)] and [Q] of
    shape [(resolution[1], w)], whose entries are [col] and [row] resized
    cyclically to the resolution and laid out as circulant matrices, and
    [simulate] returns a measurement of shape [(resolution[0], resolution[1],
    c)], the shot noise being applied to an array of that shape; on an image
    higher or wider than the mask the product does not exist and [simulate]
    raises. *)
Theorem simulate_measurement_shape `{Collaborators}
    (m : Mask.t CodedAperture.state) (obj : ndarray3 F) (snr_db : option F) :
  let r0 := nth 0 (Mask.resolution (Mask.base m)) 0 in
  let r1 := nth 0 (Mask.resolution (Mask.base m)) 1 in
  let h := dim0 obj in
  let w := dim1 obj in
  let c := size (planes obj) in
  let P := (CodedAperture.get_conv_matrices m (shape3 obj)).1 in
  let Q := (CodedAperture.get_conv_matrices m (shape3 obj)).2 in
  let col := CodedAperture.col (Mask.extra m) in
  let row := CodedAperture.row (Mask.extra m) in
  0 < c ->
  (h <= r0 -> w <= r1 ->
   [/\ (nrows P, ncols P) = (r0, h) /\ has_shape (cells P) r0 h,
       (nrows Q, ncols Q) = (r1, w) /\ has_shape (cells Q) r1 w,
       (forall i j, i < r0 -> j < h -> 0 < size col ->
          nth 0%Z (nth [::] (cells P) i) j = nth 0%Z col (((i + r0 - j) %% r0) %% size col))
       /\ (forall i j, i < r1 -> j < w -> 0 < size row ->
          nth 0%Z (nth [::] (cells Q) i) j = nth 0%Z row (((i + r1 - j) %% r1) %% size row))
     & exists meas,
         shape3 meas = (r0, r1, c)
         /\ CodedAperture.simulate m obj snr_db
            = Ok (if snr_db is Some s then add_shot_noise meas s else meas)])
  /\ (r0 < h \/ r1 < w ->
      CodedAperture.simulate m obj snr_db = Raise (ValueError "shapes not aligned")).
Proof.
  move=> r0 r1 h w c P Q col row c0.
  have EP : P = CodedAperture.conv_matrix col r0 h by [].
  have EQ : Q = CodedAperture.conv_matrix row r1 w by [].
  split=> [hr wr|big].
  - have mh : minn h r0 = h by apply/minn_idPl.
    have mw : minn w r1 = w by apply/minn_idPl.
    split.
    + by rewrite EP /= mh; split=> //; rewrite -{2}mh; exact: has_shape_conv_matrix.
    + by rewrite EQ /= mw; split=> //; rewrite -{2}mw; exact: has_shape_conv_matrix.
    + split=> i j Hi Hj Hs.
      * by rewrite EP nth_conv_matrix //; apply: leq_trans Hj hr.
      * by rewrite EQ nth_conv_matrix //; apply: leq_trans Hj wr.
    + rewrite /CodedAperture.simulate.
      rewrite (surjective_pairing (CodedAperture.get_conv_matrices m (shape3 obj))).
      rewrite -/P -/Q /=.
      pose f k := CodedAperture.multi_dot3 (CodedAperture.to_float2 P) (plane obj k)
                    (CodedAperture.transpose f0 (CodedAperture.to_float2 Q)).
      pose p (E : ndarray2 (@F H)) := (nrows E == r0) && (ncols E == r1).
      have Hf k : exists2 E, f k = Ok E & p E.
        have HA : ncols (CodedAperture.to_float2 P) = nrows (plane obj k).
          by rewrite EP /= mh.
        have HB : ncols (plane obj k)
                  = nrows (CodedAperture.transpose f0 (CodedAperture.to_float2 Q)).
          by rewrite EQ /= mw.
        have [E [HE [E1 E2]]] := multi_dot3_ok HA HB.
        by exists E => //; rewrite /p E1 E2 EP EQ /= !eqxx.
      have [chans [Hc Hsz Hall]] := mapM_all_ok (range 0 c) Hf.
      rewrite -/(f) Hc /= {Hc}.
      move: Hsz Hall; rewrite /range size_iota subn0.
      case: chans => [|x xs] /= Hsz; first by move: c0; rewrite -Hsz.
      case/andP => /andP [/eqP X0 /eqP X1] Hxs.
      have -> : all (fun y => (nrows y == nrows x) && (ncols y == ncols x)) xs.
        by rewrite X0 X1.
      exists (Ndarray3 (nrows x) (ncols x) (cells x :: [seq cells y | y <- xs])).
      by rewrite /shape3 /= size_map X0 X1 Hsz.
  - rewrite /CodedAperture.simulate.
    rewrite (surjective_pairing (CodedAperture.get_conv_matrices m (shape3 obj))).
    rewrite -/P -/Q /= -/c /range subn0.
    have Hr k : CodedAperture.multi_dot3 (CodedAperture.to_float2 P) (plane obj k)
                  (CodedAperture.transpose f0 (CodedAperture.to_float2 Q))
                = Raise (ValueError "shapes not aligned").
      apply: multi_dot3_raise; rewrite EP EQ /=.
      case: big => [lt|lt]; [left|right].
      + by have /minn_idPr -> := ltnW lt; move=> E; move: lt; rewrite E ltnn.
      + by have /minn_idPr -> := ltnW lt; move=> E; move: lt; rewrite -E ltnn.
    by case: c c0 => [//|c'] _ /=; rewrite Hr.
Qed.

Lemma simulate_measurement_shape_witness :
  exists m g,
    mura5 0%Z = Ok (m, g)
    /\ exists meas,
         shape3 meas = (4, 4, 1)
         /\ CodedAperture.simulate m
              (Ndarray3 2 2 [:: [:: [:: 1%float; 0%float]; [:: 0%float; 1%float]]]) None
            = Ok meas.
Proof.
  eexists; eexists; split; first reflexivity.
  set m := (X in CodedAperture.simulate X).
  have [] := @simulate_measurement_shape binary64 (@Demo.collaborators binary64) m
               (Ndarray3 2 2 [:: [:: [:: 1%float; 0%float]; [:: 0%float; 1%float]]]) None.
  - reflexivity.
  - move=> Hok _; have [] := Hok; [reflexivity | reflexivity |].
    by move=> _ _ _ [meas [Hs He]]; exists meas.
Defined.

(** C10 as stated fails on an image without channels: the list of channel
    products is empty and [np.dstack] raises. *)
Lemma simulate_without_channel_raises :
  exists m g,
    mura5 0%Z = Ok (m, g)
    /\ (dim0 (Ndarray3 2 2 [::] : ndarray3 float) <= nth 0 (Mask.resolution (Mask.base m)) 0)
    /\ (dim1 (Ndarray3 2 2 [::] : ndarray3 float) <= nth 0 (Mask.resolution (Mask.base m)) 1)
    /\ CodedAperture.simulate m (Ndarray3 2 2 [::]) None
       = Raise (ValueError "need at least one array to concatenate").
Proof. by eexists; eexists; split; first reflexivity. Qed.

(** ** [HeightVarying]: from the height to the phase and back *)

Lemma init_attrs_resolution `{Scalar} (res : seq nat) (dist : F) (sz : option (seq F))
    (fs : option Mask.feature_size_arg) (a : Mask.attrs) :
  Mask.init_attrs res dist sz fs = Ok a -> Mask.resolution a = res.
Proof.
  rewrite /Mask.init_attrs.
  repeat match goal with
         | |- bind ?r _ = Ok _ -> _ => case: r => [?|?] //=
         end.
  by case=> <-.
Qed.

Section HeightPhase.

Local Open Scope R_scope.

(** The phase lies in [[0, 2 pi)]. *)
Lemma phase_of_height_range (n lambda h : R) :
  0 <= @HeightVarying.phase_of_height real_scalar n lambda h < 2 * PI.
Proof.
  rewrite /HeightVarying.phase_of_height /= /Rmod /f2 /f1 /=.
  set x := h * _.
  have [lo hi] := base_Int_part (x / (2 * PI)).
  have P0 := PI_RGT_0.
  pose d := x / (2 * PI) - IZR (Int_part (x / (2 * PI))).
  have Hd : 0 <= d < 1 by rewrite /d; lra.
  have -> : x - IZR (Int_part (x / (2 * PI))) * (2 * PI) = d * (2 * PI).
    by rewrite /d; field; lra.
  by split; nra.
Qed.

(** Reading the phase back gives the height, up to a whole number of
    [lambda / (n - 1)]. *)
Lemma height_of_phase_of_height (n lambda h : R) :
  n <> 1 -> lambda <> 0 ->
  exists k : Z,
    @HeightVarying.height_of_phase real_scalar n lambda
      (@HeightVarying.phase_of_height real_scalar n lambda h)
    = h - IZR k * (lambda / (n - 1)).
Proof.
  move=> n1 l0.
  rewrite /HeightVarying.height_of_phase /HeightVarying.phase_of_height /= /Rmod /f2 /f1 /=.
  set k := Int_part _; exists k.
  have P0 := PI_RGT_0.
  by field; repeat split; lra.
Qed.

End HeightPhase.

(** C9: for a [HeightVarying] mask constructed with an explicit height map,
    [get_phi()] multiplied back by [wavelength / (2 pi (refractive_index - 1))]
    is the height map up to an integer multiple of
    [wavelength / (refractive_index - 1)] at every pixel (over the real
    numbers, for [refractive_index <> 1] and [wavelength <> 0]). *)
Theorem height_varying_round_trip {K : @Collaborators real_scalar}
    (n lambda : R) (hm : matrix R) (height_range : R * R) (seed : Z)
    (resolution : seq nat) (distance_sensor : R)
    (size_arg : option (seq R))
    (feature_size_arg : option (@Mask.feature_size_arg real_scalar))
    (psf_wavelength : seq R) (g g' : @rng real_scalar K)
    (m : @Mask.t real_scalar K (@HeightVarying.state real_scalar)) :
  HeightVarying.init n lambda (Some hm) height_range seed resolution distance_sensor
    size_arg feature_size_arg psf_wavelength g = Ok (m, g') ->
  n <> 1%R -> lambda <> 0%R ->
  let st := Mask.extra m in
  [/\ @HeightVarying.height_map real_scalar st = hm,
      has_shape hm (nth 0 resolution 0) (nth 0 resolution 1)
    & forall i j, i < size hm -> j < size (nth [::] hm i) ->
        exists k : Z,
          @HeightVarying.height_of_phase real_scalar n lambda
            (nth 0%R (nth [::] (@HeightVarying.get_phi real_scalar st) i) j)
          = (nth 0%R (nth [::] hm i) j - IZR k * (lambda / (n - 1)))%R].
Proof.
  rewrite /HeightVarying.init {1}/bindM /ret /= => /init_ok [Ha Hc _ _] n1 l0 /=.
  move: Hc; rewrite /HeightVarying.create_mask /bindM /ret /lift /assert /=.
  case: ifP => // Hshape [_ Hst _]; rewrite -Hst /=.
  have Hres := init_attrs_resolution Ha.
  split=> //; first by rewrite -Hres.
  move=> i j Hi Hj; rewrite /HeightVarying.get_phi /=.
  rewrite (nth_map [::]) // (nth_map 0%R) //.
  exact: height_of_phase_of_height.
Qed.

Lemma Rltb_true (x y : R) : (x < y)%R -> Rltb x y = true.
Proof. by move=> /RltbP. Qed.

Lemma Rleb_true (x y : R) : (x <= y)%R -> Rleb x y = true.
Proof. by move=> /RlebP. Qed.

(** A height map of one pixel, of height 1, with [refractive_index = 2] and
    [wavelength = 1]. *)
Lemma height_varying_round_trip_witness :
  exists (m : @Mask.t real_scalar (@Demo.collaborators real_scalar)
                (@HeightVarying.state real_scalar)) (g' : Z),
    @HeightVarying.init real_scalar (@Demo.collaborators real_scalar)
      2%R 1%R (Some [:: [:: 1%R]]) (0%R, 1%R) 0%Z [:: 1; 1] 1%R
      None (Some (@Mask.FsFloat real_scalar 1%R)) [::] 0%Z = Ok (m, g')
    /\ exists k : Z,
         @HeightVarying.height_of_phase real_scalar 2%R 1%R
           (nth 0%R (nth [::] (@HeightVarying.get_phi real_scalar (Mask.extra m)) 0) 0)
         = (1 - IZR k * (1 / (2 - 1)))%R.
Proof.
  have E : exists m g',
      @HeightVarying.init real_scalar (@Demo.collaborators real_scalar)
        2%R 1%R (Some [:: [:: 1%R]]) (0%R, 1%R) 0%Z [:: 1; 1] 1%R
        None (Some (@Mask.FsFloat real_scalar 1%R)) [::] 0%Z = Ok (m, g').
    rewrite /HeightVarying.init /bindM /ret /Mask.init /bindM /lift /ret.
    rewrite init_attrs_feature_float /=.
    have -> : Rltb 0 1 = true by apply: Rltb_true; lra.
    have -> : Rleb (1 * 1) (1 * 1) = true by apply: Rleb_true; lra.
    by rewrite /HeightVarying.create_mask /bindM /ret /lift /=; eexists; eexists.
  have [m [g' Hm]] := E; exists m, g'; split=> //.
  have [] := @height_varying_round_trip _ _ _ _ _ _ _ _ _ _ _ _ _ _ Hm.
  - lra.
  - lra.
  - by move=> _ _ /(_ 0 0 isT isT).
Defined.

(** ** [CodedAperture]: upscaling keeps the mask binary *)

Section Binarize.

Local Open Scope R_scope.

Lemma Int_part_small (x : R) : 0 <= x < 1 -> Int_part x = 0%Z.
Proof. by move=> Hx; symmetry; apply: Int_part_spec => /=; lra. Qed.

Lemma Int_part_IZR (z : Z) : Int_part (IZR z) = z.
Proof. by symmetry; apply: Int_part_spec; lra. Qed.

Lemma Rtrunc_IZR (z : Z) : (0 <= z)%Z -> Rtrunc (IZR z) = z.
Proof.
  move=> z0; have L : Rleb 0 (IZR z) = true by apply: Rleb_true; exact: IZR_le.
  by rewrite /Rtrunc L Int_part_IZR.
Qed.


(** [np.round] of a number between 0 and 1 is 0 or 1. *)
Lemma Rround_unit (y : R) : 0 <= y <= 1 -> Rround y = 0 \/ Rround y = 1.
Proof.
  move=> [y0 y1]; rewrite /Rround.
  case: (Req_dec y 1) => [->|ne1].
  - have L : Rltb (1 - 1) (1 / 2) = true by apply: Rltb_true; lra.
    by rewrite Int_part_IZR L; right.
  - have S : Int_part y = 0%Z by apply: Int_part_small; lra.
    rewrite S Rminus_0_r /=.
    by case: Rltb; [left | case: Rltb; [right | left]].
Qed.


End Binarize.

Section Upscaling.

Context `{Collaborators}.


Lemma has_shape_map2 (A B : Type) (f : A -> B) (m : matrix A) (r c : nat) :
  has_shape [seq [seq f x | x <- row] | row <- m] r c = has_shape m r c.
Proof.
  rewrite /has_shape size_map all_map; congr (_ && _).
  by apply: eq_all => row /=; rewrite size_map.
Qed.


End Upscaling.

Section UpscalingReal.

Context {K : @Collaborators real_scalar}.



End UpscalingReal.




(** ** Randomised synthesis and the process-wide generator *)

(** C2, as the code has it: [MultiLensArray] (radii drawn and lenses placed)
    and [HeightVarying] (random height map) re-seed the process-wide
    generator when they are constructed, so the whole result of the
    constructor, the generator state it leaves included, is the same from
    any two states of the generator; nothing that was drawn before matters. *)
Theorem seeded_masks_ignore_generator_state `{Collaborators} :
  (forall (N : option nat) (loc : option (seq (F * F)))
          (refractive_index design_wv : F) (seed : Z) (min_height : F)
          (resolution : seq nat) (distance_sensor : F) (size_arg : option (seq F))
          (feature_size_arg : option Mask.feature_size_arg) (psf_wavelength : seq F)
          (g1 g2 : rng),
     MultiLensArray.init N None loc refractive_index design_wv seed min_height
       resolution distance_sensor size_arg feature_size_arg psf_wavelength g1
     = MultiLensArray.init N None loc refractive_index design_wv seed min_height
         resolution distance_sensor size_arg feature_size_arg psf_wavelength g2)
  /\ (forall (refractive_index wavelength : F) (height_range : F * F) (seed : Z)
             (resolution : seq nat) (distance_sensor : F) (size_arg : option (seq F))
             (feature_size_arg : option Mask.feature_size_arg) (psf_wavelength : seq F)
             (g1 g2 : rng),
        HeightVarying.init refractive_index wavelength None height_range seed
          resolution distance_sensor size_arg feature_size_arg psf_wavelength g1
        = HeightVarying.init refractive_index wavelength None height_range seed
            resolution distance_sensor size_arg feature_size_arg psf_wavelength g2).
Proof.
  split=> [N loc n lambda seed min_height res dist sz fs wv g1 g2
          |n lambda height_range seed res dist sz fs wv g1 g2].
  - rewrite /MultiLensArray.init /bindM /MultiLensArray.init_lenses.
    by case: N => [k|].
  - by rewrite /HeightVarying.init /bindM /np_random_seed.
Qed.

(** C2 as stated fails for [PhaseContour]: it has no seed, and two masks
    constructed one after the other with the same parameters in the same
    process have different fields. *)
Lemma phase_contour_not_reproducible :
  match phase_contour_demo 0%Z with
  | Ok (m1, g1) =>
      match phase_contour_demo g1 with
      | Ok (m2, _) => ~~ field_eqb (Mask.mask m1) (Mask.mask m2)
      | Raise _ => false
      end
  | Raise _ => false
  end.
Proof. by vm_compute. Qed.
(** * Further properties of the module *)

(** ** [Mask.__init__] and [from_sensor]: both quantities given *)

Section MaskBoth.

Context `{Scalar}.

(** [size] and [feature_size] are both given, as arrays of two. *)
Lemma init_attrs_both (r0 r1 : nat) (dist s0 s1 p0 p1 : F) :
  Mask.init_attrs [:: r0; r1] dist (Some [:: s0; s1]) (Some (Mask.FsArray [:: p0; p1]))
  = if (f0 < p0)%F && (f0 < p1)%F then
      if (of_nat r0 * p0 <= s0)%F && (of_nat r1 * p1 <= s1)%F
      then Ok (Mask.Attrs [:: r0; r1] [:: s0; s1] [:: p0; p1] dist)
      else Raise (AssertionError "")
    else Raise (AssertionError "Feature size should be positive").
Proof.
  rewrite /Mask.init_attrs /= andbT.
  case: (_ && _) => //=.
  by rewrite /Mask.fits /Mask.broadcast /= andbT; case: (_ && _).
Qed.

End MaskBoth.

(** X1: a mask built by [from_sensor] has the resolution, the size and the
    pixel size of the sensor as they are (nothing is derived), the pixel size
    is positive and [resolution * pixel_size <= size] holds in both
    components. *)
Theorem from_sensor_keeps_sensor_geometry `{Collaborators}
    (from_name : string -> option F -> result VirtualSensor.t)
    (X : Type) (create_mask : Mask.attrs -> M (matrix (cell F C) * X))
    (sensor_name : string) (downsample : option F) (dist : F) (wv : seq F)
    (g g' : rng) (m : Mask.t X) :
  from_sensor from_name create_mask sensor_name downsample dist wv g = Ok (m, g') ->
  exists sensor r0 r1 p0 p1 s0 s1,
    [/\ from_name sensor_name downsample = Ok sensor,
        [/\ VirtualSensor.resolution sensor = [:: r0; r1],
            VirtualSensor.size_ sensor = [:: s0; s1]
          & VirtualSensor.pixel_size sensor = [:: p0; p1]],
        [/\ Mask.resolution (Mask.base m) = [:: r0; r1],
            Mask.size_ (Mask.base m) = [:: s0; s1]
          & Mask.feature_size (Mask.base m) = [:: p0; p1]],
        (f0 < p0)%F /\ (f0 < p1)%F
      & (of_nat r0 * p0 <= s0)%F /\ (of_nat r1 * p1 <= s1)%F].
Proof.
  rewrite /from_sensor {1}/bindM /lift.
  case Es: (from_name _ _) => [[res sz px]|] //= /init_ok [Ha _ _ _].
  move: Ha Es.
  case: res => [|r0 [|r1 [|? ?]]] //.
  case: sz => [|s0 [|s1 [|? ?]]] //; case: px => [|p0 [|p1 [|? ?]]] //;
    try by rewrite /Mask.init_attrs /= /Mask.broadcast /=.
  rewrite init_attrs_both.
  case: ifP => // /andP [P0 P1]; case: ifP => // /andP [L0 L1] [<-] /= Es.
  by exists (VirtualSensor.Make [:: r0; r1] [:: s0; s1] [:: p0; p1]),
            r0, r1, p0, p1, s0, s1.
Qed.

Lemma from_sensor_keeps_sensor_geometry_witness :
  exists m,
    @from_sensor binary64 (@Demo.collaborators binary64) demo_sensor
      unit (fun _ => ret ([::], tt)) "rpi_hq" None 1%float [::] 0%Z = Ok (m, 0%Z)
    /\ Mask.feature_size (Mask.base m) = [:: 0.5%float; 0.5%float].
Proof.
  eexists; split; first reflexivity.
  have [s [r0 [r1 [p0 [p1 [s0 [s1 [Es [_ _ Ep] [_ _ Ef] _ _]]]]]]]] :=
    @from_sensor_keeps_sensor_geometry binary64 (@Demo.collaborators binary64)
      demo_sensor unit (fun _ => ret ([::], tt)) "rpi_hq" None 1%float [::] 0%Z 0%Z _
      (erefl _).
  by rewrite Ef -Ep; case: Es => <-.
Defined.

(** X2: when [from_sensor] is given a sensor whose pixel size is positive
    but whose [resolution * pixel_size] exceeds its size in a component,
    construction fails on the assertion of [__init__]; with a pixel size that
    is not positive it fails with "Feature size should be positive". *)
Theorem from_sensor_rejects_inconsistent_sensor `{Collaborators}
    (from_name : string -> option F -> result VirtualSensor.t)
    (X : Type) (create_mask : Mask.attrs -> M (matrix (cell F C) * X))
    (sensor_name : string) (downsample : option F) (dist : F) (wv : seq F)
    (g : rng) (r0 r1 : nat) (s0 s1 p0 p1 : F) :
  from_name sensor_name downsample
  = Ok (VirtualSensor.Make [:: r0; r1] [:: s0; s1] [:: p0; p1]) ->
  ~~ [&& (f0 < p0)%F, (f0 < p1)%F, (of_nat r0 * p0 <= s0)%F & (of_nat r1 * p1 <= s1)%F] ->
  from_sensor from_name create_mask sensor_name downsample dist wv g
  = Raise (AssertionError (if (f0 < p0)%F && (f0 < p1)%F then EmptyString
                           else "Feature size should be positive"%string)).
Proof.
  move=> Es Hn; rewrite /from_sensor {1}/bindM /lift Es /= /Mask.init {1}/bindM /lift.
  rewrite init_attrs_both.
  move: Hn; rewrite andbA; case: ((f0 < p0)%F && (f0 < p1)%F) => //=.
  by move=> /negbTE ->.
Qed.

Lemma from_sensor_rejects_inconsistent_sensor_witness :
  @from_sensor binary64 (@Demo.collaborators binary64) demo_sensor_too_small
    unit (fun _ => ret ([::], tt)) "rpi_hq" None 1%float [::] 0%Z
  = Raise (AssertionError "").
Proof.
  exact: (@from_sensor_rejects_inconsistent_sensor binary64 (@Demo.collaborators binary64)
            demo_sensor_too_small unit (fun _ => ret ([::], tt)) "rpi_hq" None 1%float
            [::] 0%Z 2 2 1%float 1%float 0.75%float 0.5%float (erefl _) (erefl _)).
Defined.

(** ** [Mask.__init__]: what is checked and what is not *)



(** X4: a pitch that is given and is not positive in both components is
    rejected with "Feature size should be positive", whether or not a size
    is given with it. *)
Theorem nonpositive_feature_size_is_rejected `{Scalar} (r0 r1 : nat) (dist p0 p1 : F)
    (sz : option (seq F)) (fs : Mask.feature_size_arg) :
  (if sz is Some s then size s == 2 else true) ->
  fs = Mask.FsFloat p0 /\ p1 = p0 \/ fs = Mask.FsArray [:: p0; p1] ->
  ~~ ((f0 < p0)%F && (f0 < p1)%F) ->
  Mask.init_attrs [:: r0; r1] dist sz (Some fs)
  = Raise (AssertionError "Feature size should be positive").
Proof.
  move=> Hsz Hfs /negbTE Hn; rewrite /Mask.init_attrs /=.
  case: Hfs => [[-> E]|->]; rewrite ?E in Hn *.
  - move: Hn; rewrite andbb => Hn.
    by case: sz Hsz => [s /= ->|_] /=; rewrite andbT Hn.
  - case: sz Hsz => [s /= ->|_] /=; first by rewrite andbT Hn.
    by rewrite /Mask.broadcast /= andbT Hn.
Qed.

Lemma nonpositive_feature_size_is_rejected_witness :
  @Mask.init_attrs binary64 [:: 4; 4] 1%float (Some [:: 1%float; 1%float])
    (Some (Mask.FsArray [:: 0.25%float; 0%float]))
  = Raise (AssertionError "Feature size should be positive").
Proof.
  apply: (@nonpositive_feature_size_is_rejected binary64 4 4 1%float 0.25%float 0%float
            (Some [:: 1%float; 1%float]) (Mask.FsArray [:: 0.25%float; 0%float])).
  - reflexivity.
  - by right.
  - reflexivity.
Defined.

(** ** [compute_psf] *)

Section ComputePsf.

Context `{Collaborators}.

(** [compute_psf] in closed form. *)
Lemma compute_psfE (a : Mask.attrs) (mask : matrix (cell F C)) (wvs : seq F) :
  let r0 := nth 0 (Mask.resolution a) 0 in
  let r1 := nth 0 (Mask.resolution a) 1 in
  let field wv := angular_spectrum mask wv (Mask.feature_size a) (Mask.distance_sensor a) in
  Mask.compute_psf a mask wvs
  = if all (fun wv => has_shape (field wv) r0 r1) wvs
    then Ok (Ndarray3 r0 r1
               [seq [seq [seq (cabs c * cabs c)%F | c <- row] | row <- field wv] | wv <- wvs])
    else Raise (ValueError "could not broadcast input array").
Proof.
  move=> r0 r1 field; rewrite /Mask.compute_psf -/r0 -/r1.
  set step := (X in foldr X).
  have -> : foldr step (Ok [::]) wvs
            = if all (fun wv => has_shape (field wv) r0 r1) wvs
              then Ok [seq field wv | wv <- wvs]
              else Raise (ValueError "could not broadcast input array").
    elim: wvs => [//|wv wvs IH] /=; rewrite IH {1}/step.
    case: (all _ wvs) => /=; last by rewrite andbF.
    by rewrite -/(field wv); case: (has_shape _ _ _).
  by case: (all _ _) => //=; rewrite -map_comp.
Qed.

End ComputePsf.

(** X5: the PSF that [compute_psf] stores has one plane per wavelength, in
    the order of [psf_wavelength]; each plane has the shape of the
    resolution and holds the squared modulus of the field that
    [angular_spectrum] returns for that wavelength. *)
Theorem compute_psf_planes `{Collaborators} (a : Mask.attrs) (mask : matrix (cell F C))
    (wvs : seq F) (psf : ndarray3 F) :
  let r0 := nth 0 (Mask.resolution a) 0 in
  let r1 := nth 0 (Mask.resolution a) 1 in
  let field wv := angular_spectrum mask wv (Mask.feature_size a) (Mask.distance_sensor a) in
  Mask.compute_psf a mask wvs = Ok psf ->
  shape3 psf = (r0, r1, size wvs)
  /\ forall k, k < size wvs ->
       has_shape (nth [::] (planes psf) k) r0 r1
       /\ forall i j, i < r0 -> j < r1 ->
            nth f0 (nth [::] (nth [::] (planes psf) k) i) j
            = (let c := nth (c_of_real f0) (nth [::] (field (nth f0 wvs k)) i) j in
               cabs c * cabs c)%F.
Proof.
  move=> r0 r1 field; rewrite compute_psfE -/r0 -/r1 -/field.
  case: ifP => // Hall [<-]; split; first by rewrite /shape3 /= size_map.
  move=> k Hk /=.
  have Hs : has_shape (field (nth f0 wvs k)) r0 r1.
    by move/(all_nthP f0): Hall; apply.
  rewrite (nth_map f0) //; split; first by rewrite has_shape_map2.
  move=> i j Hi Hj.
  case/andP: Hs => /eqP Hr /(all_nthP [::]) Hc.
  rewrite (nth_map [::]) ?Hr // (nth_map (c_of_real f0)) //.
  have Hi' : i < size (field (nth f0 wvs k)) by rewrite Hr.
  by have /eqP -> := Hc i Hi'.
Qed.

Lemma compute_psf_planes_witness :
  exists psf,
    @Mask.compute_psf binary64 (@Demo.collaborators binary64) demo_attrs
      [:: [:: CInt 1; CInt 0]; [:: CInt 0; CInt 1]] default_psf_wavelength = Ok psf
    /\ shape3 psf = (2, 2, 3).
Proof.
  eexists; split; first reflexivity.
  by have [] := @compute_psf_planes binary64 (@Demo.collaborators binary64) demo_attrs
                  [:: [:: CInt 1; CInt 0]; [:: CInt 0; CInt 1]] default_psf_wavelength
                  _ (erefl _).
Defined.

(** ** Trial division, completely *)

Lemma is_prime_small_or_prime (n : nat) : CodedAperture.is_prime n = (n < 2) || prime n.
Proof.
  case: n => [//|[//|n]].
  by rewrite is_primeE.
Qed.

(** X6: [is_prime(n)] answers [True] exactly when [n] is 0, 1 or a prime
    number, for [n] below 2^52, where [sqrt] is exact on the float of [n]. *)
Theorem is_prime_decides_primality (n : nat) :
  (Z.of_nat n < 2 ^ 52)%Z ->
  CodedAperture.is_prime n = (n < 2) || prime n.
Proof. by move=> _; exact: is_prime_small_or_prime. Qed.

Lemma is_prime_decides_primality_witness :
  CodedAperture.is_prime 91 = (91 < 2) || prime 91.
Proof. by apply: is_prime_decides_primality. Defined.

(** X7: what [squarepattern(4 * n_bits + 1)] does for every integer [n_bits]
    with [p = 4 * n_bits + 1] below 2^52: on a negative [p] the square root
    of [is_prime] raises; for [p = 1] and for a prime [p] the pattern is
    returned; otherwise the [ValueError] of [squarepattern] is raised. *)
Theorem squarepattern_raises_or_returns (n_bits : Z) :
  let p := (4 * n_bits + 1)%Z in
  (p < 2 ^ 52)%Z ->
  CodedAperture.squarepattern_of_bits n_bits
  = if (p <? 0)%Z then Raise (ValueError "math domain error")
    else if (p =? 1)%Z || prime (Z.to_nat p)
         then Ok (CodedAperture.squarepattern_body (Z.to_nat p))
         else Raise (ValueError CodedAperture.not_prime_msg).
Proof.
  move=> p _; rewrite /CodedAperture.squarepattern_of_bits -/p.
  case: (Z.ltb_spec p 0) => // Hp.
  rewrite /CodedAperture.squarepattern is_prime_small_or_prime.
  have -> : (Z.to_nat p < 2) = (p =? 1)%Z.
    case: (Z.eqb_spec p 1) => [->//|Hn].
    by apply/negbTE; rewrite -leqNgt; apply/leP; rewrite /p in Hp Hn *; lia.
  by case: (_ || _).
Qed.

Lemma squarepattern_raises_or_returns_witness :
  CodedAperture.squarepattern_of_bits 2
  = Raise (ValueError CodedAperture.not_prime_msg).
Proof. by apply: (@squarepattern_raises_or_returns 2). Defined.

(** The residues that sympy lists are the squares modulo [p]. *)
Lemma mem_quadratic_residues_square (p a : nat) :
  0 < p ->
  (a \in CodedAperture.quadratic_residues p) = square_mod p a.
Proof.
  move=> p0.
  rewrite /CodedAperture.quadratic_residues mem_sort mem_undup /range subn0 /square_mod.
  apply/mapP/hasP => [[x]|[x]]; rewrite !mem_iota !add0n /=.
  - move=> Hx ->; exists x => //.
    rewrite mem_iota /= add0n; apply: leq_trans Hx _.
    have := divn_eq p 2; have := ltn_pmod p (d:=2) isT.
    move: (p %/ 2) (p %% 2) => h r; slia.
  - move=> Hx /eqP <-.
    case: (leqP x (p %/ 2)) => Hh; first by exists x; rewrite ?mem_iota ?add0n ?addn1.
    exists (p - x); last by rewrite sq_mod_compl // ltnW.
    rewrite mem_iota add0n addn1 ltnS /=.
    have := divn_eq p 2; have := ltn_pmod p (d:=2) isT.
    move: (p %/ 2) (p %% 2) Hh => h r; slia.
Qed.

(** X8: the cells of the array that [squarepattern(p)] returns: the first
    row is 0, the rest of the first column is 1, and cell [(i + 1, j + 1)]
    is 1 exactly when [i] and [j] are both squares modulo [p] or both not. *)
Theorem squarepattern_cells (p : nat) (A : matrix nat) :
  CodedAperture.squarepattern p = Ok A ->
  [/\ well_shaped p p A,
      forall j, j < p -> get2 A 0 j = 0,
      forall i, 0 < i < p -> get2 A i 0 = 1
    & forall i j, i < p.-1 -> j < p.-1 ->
        get2 A i.+1 j.+1 = (square_mod p i == square_mod p j)].
Proof.
  rewrite /CodedAperture.squarepattern; case: ifP => // _ [<-].
  split; first exact: well_shaped_squarepattern.
  - move=> j Hj; have p0 : 0 < p by apply: leq_ltn_trans Hj.
    by rewrite get2_squarepattern //; case: j Hj.
  - case=> [//|i] /andP [_ Hi]; have p0 : 0 < p by apply: leq_ltn_trans Hi.
    by rewrite get2_squarepattern.
  - case: p => [//|p] i j /= Hi Hj.
    rewrite get2_squarepattern ?ltnS //= !subn1 /=.
    by rewrite !mem_quadratic_residues_square.
Qed.

Lemma squarepattern_cells_witness :
  exists A,
    CodedAperture.squarepattern 5 = Ok A
    /\ get2 A 0 3 = 0 /\ get2 A 2 0 = 1
    /\ get2 A 2 3 = (square_mod 5 1 == square_mod 5 2).
Proof.
  exists (CodedAperture.squarepattern_body 5).
  have [] := @squarepattern_cells 5 (CodedAperture.squarepattern_body 5); first reflexivity.
  move=> _ H0 H1 H2; split; first reflexivity.
  by rewrite H0 // H1 // H2.
Defined.

Lemma drop_first_row_col_mkseq (p : nat) (A : matrix nat) :
  well_shaped p p A ->
  drop_first_row_col A
  = mkseq (fun i => mkseq (fun j => get2 A i.+1 j.+1) p.-1) p.-1.
Proof.
  case=> sA rA; rewrite /drop_first_row_col.
  apply: (@eq_from_nth _ [::]); first by rewrite size_map size_behead sA size_mkseq.
  move=> i; rewrite size_map size_behead sA => Hi.
  rewrite (nth_map [::]) ?size_behead ?sA // nth_behead nth_mkseq //.
  have Hi' : i.+1 < p by case: p Hi {sA rA}.
  apply: (@eq_from_nth _ 0); first by rewrite size_behead rA // size_mkseq.
  move=> j; rewrite size_behead rA // => Hj.
  by rewrite nth_behead nth_mkseq.
Qed.

Lemma square_mod0 (p : nat) : 0 < p -> square_mod p 0.
Proof.
  move=> p0; apply/hasP; exists 0; first by rewrite mem_iota.
  by rewrite mod0n.
Qed.

(** The stored MURA pattern, [squarepattern(p)[1:, 1:]], cell by cell. *)
Lemma mura_cells (n : nat) :
  drop_first_row_col (CodedAperture.squarepattern_body n.+1)
  = mkseq (fun i => mkseq (fun j => (square_mod n.+1 i == square_mod n.+1 j : nat)) n) n.
Proof.
  rewrite (drop_first_row_col_mkseq (well_shaped_squarepattern n.+1)) /=.
  apply/eq_in_map => i; rewrite mem_iota add0n /= => Hi.
  apply/eq_in_map => j; rewrite mem_iota add0n /= => Hj.
  by rewrite get2_squarepattern ?ltnS //= !subn1 /= !mem_quadratic_residues_square.
Qed.

(** X9: the MURA pattern is separable.  [row] and [col] are the same
    sequence of 1 and -1, which marks the squares modulo [p], and the stored
    pattern [squarepattern(p)[1:, 1:]] is [(outer(col, row) + 1) / 2]. *)
Theorem mura_mask_separable `{Collaborators} (n_bits : Z) (m : matrix (cell F C))
    (row col : seq Z) :
  CodedAperture.raw_pattern "MURA" n_bits = Ok (m, row, col) ->
  let n := Z.to_nat (4 * n_bits) in
  [/\ (0 < n_bits)%Z,
      has_shape m n n /\ size row = n,
      col = row,
      forall j, j < n ->
        nth 0%Z row j = if square_mod n.+1 j then 1%Z else (-1)%Z
    & forall i j, i < n -> j < n ->
        nth (CInt 0) (nth [::] m i) j
        = CInt ((nth 0%Z col i * nth 0%Z row j + 1) / 2)].
Proof.
  move=> Hraw n; move: Hraw.
  rewrite /CodedAperture.raw_pattern.
  have -> : String.eqb (upper "MURA") "MURA" = true by [].
  rewrite [assert _ _]/= [bind (Ok tt) _]/=.
  rewrite /CodedAperture.squarepattern_of_bits.
  set p := (4 * n_bits + 1)%Z.
  case: (Z.ltb_spec p 0) => // Hp.
  rewrite /CodedAperture.squarepattern; case: ifP => // _.
  case: (Z.eq_dec n_bits 0) => [E0|Hn0]; first by rewrite /p E0.
  have Hpos : (0 < n_bits)%Z by rewrite /p in Hp; lia.
  have Ep : Z.to_nat p = n.+1 by rewrite /n /p; lia.
  have n0 : 0 < n by apply/ltP; rewrite /n; lia.
  rewrite Ep [bind (Ok _) _]/= mura_cells.
  have S0 : square_mod n.+1 0 by exact: square_mod0.
  set f := fun i => mkseq (fun j => (square_mod n.+1 i == square_mod n.+1 j : nat)) n.
  have -> : all (fun r : seq nat => 0 < size r) (mkseq f n).
    by apply/allP => r /mapP [i _ ->]; rewrite size_mkseq.
  have [rest E] : exists rest, mkseq f n = f 0 :: rest.
    by clearbody n; case: n n0 f {Ep S0} => [//|n] _ f; eexists.
  rewrite {1}E; cbv beta iota delta [bind].
  case=> <- <- <-.
  have Erow j : j < n ->
      nth 0%Z [seq (2 * Z.of_nat x - 1)%Z | x <- f 0] j
      = if square_mod n.+1 j then 1%Z else (-1)%Z.
    move=> Hj; rewrite (nth_map 0) ?size_mkseq // nth_mkseq // S0.
    by case: (square_mod n.+1 j).
  have Ecol i : i < n ->
      nth 0%Z [seq (2 * Z.of_nat x - 1)%Z | x <- [seq head 0 r | r <- mkseq f n]] i
      = if square_mod n.+1 i then 1%Z else (-1)%Z.
    move=> Hi; rewrite (nth_map 0) ?size_map ?size_mkseq ?size_iota //.
    rewrite (nth_map [::]) ?size_mkseq // nth_mkseq // -nth0 nth_mkseq // S0.
    by case: (square_mod n.+1 i).
  split=> //.
  - split; last by rewrite size_map size_mkseq.
    rewrite /has_shape size_map size_mkseq eqxx /=.
    by rewrite all_map; apply/allP => r /mapP [i _ ->] /=; rewrite !size_map size_iota.
  - apply: (@eq_from_nth _ 0%Z); first by rewrite !size_map !size_iota.
    move=> i; rewrite !size_map size_iota => Hi.
    by rewrite Ecol // Erow.
  - move=> i j Hi Hj; rewrite Ecol // Erow //.
    rewrite (nth_map [::]) ?size_mkseq // nth_mkseq //.
    rewrite (nth_map 0) ?size_mkseq // nth_mkseq //.
    by case: (square_mod n.+1 i); case: (square_mod n.+1 j).
Qed.

Lemma mura_mask_separable_witness :
  exists m row col,
    @CodedAperture.raw_pattern binary64 (@Demo.collaborators binary64) "MURA" 1
    = Ok (m, row, col)
    /\ col = row /\ size row = 4.
Proof.
  eexists; eexists; eexists; split; first reflexivity.
  by have [_ [_ Hs] Hc _ _] :=
    @mura_mask_separable binary64 (@Demo.collaborators binary64) 1 _ _ _ (erefl _).
Defined.

Lemma count_same_class (s : pred nat) (n : nat) :
  let m := count s (iota 0 n) in
  count_ones (mkseq (fun i => mkseq (fun j => (s i == s j : nat)) n) n)
  = m * m + (n - m) * (n - m).
Proof.
  move=> m; rewrite count_ones_mkseq.
  have Em : count (predC s) (iota 0 n) = n - m.
    by rewrite -[in RHS](size_iota 0 n) -(count_predC s (iota 0 n)) addKn.
  have -> : [seq count (fun j => (s i == s j : nat) == 1) (iota 0 n) | i <- iota 0 n]
            = [seq (if s i then m else n - m) | i <- iota 0 n].
    apply: eq_map => i; case Si: (s i); rewrite -?Em; apply: eq_count => j /=;
      by case: (s j).
  by rewrite sumn_if Em.
Qed.

(** X10: exactly half of the cells of the stored MURA pattern are open: for a
    prime [p = 4 * n_bits + 1], the pattern [squarepattern(p)[1:, 1:]] that
    [create_mask] starts from has [p - 1] rows and columns and
    [(p - 1)^2 / 2] cells equal to 1. *)
Theorem mura_mask_half_open `{Collaborators} (n_bits : nat) :
  let p := 4 * n_bits + 1 in
  prime p ->
  exists (pattern : matrix nat) (row col : seq Z),
    [/\ CodedAperture.raw_pattern "MURA" (Z.of_nat n_bits)
        = Ok ([seq [seq CInt (Z.of_nat x) | x <- r] | r <- pattern], row, col),
        has_shape pattern p.-1 p.-1
      & 2 * count_ones pattern = p.-1 ^ 2].
Proof.
  move=> p Pp.
  have p1 := prime_gt1 Pp.
  have Hn : 0 < n_bits by move: p1; rewrite /p; case: (n_bits).
  have En : p.-1 = 4 * n_bits by rewrite /p addn1.
  have Ep : p = (4 * n_bits).+1 by rewrite /p addn1.
  case E: (CodedAperture.raw_pattern "MURA" (Z.of_nat n_bits)) => [[[m row] col]|e].
  - move: (E); rewrite /CodedAperture.raw_pattern.
    have -> : String.eqb (upper "MURA") "MURA" = true by [].
    rewrite [assert _ _]/= [bind (Ok tt) _]/= squarepattern_of_bits_nat -/p.
    rewrite /CodedAperture.squarepattern is_primeE // Pp [bind (Ok _) _]/=.
    rewrite {1 2 3 4}Ep mura_cells -Ep -En.
    set pattern := mkseq _ _.
    have -> : all (fun r : seq nat => 0 < size r) pattern.
      apply/allP => r /mapP [i _ ->]; rewrite size_mkseq.
      by rewrite En muln_gt0.
    case Ehd: pattern => [|r0 rest]; first by [].
    rewrite -Ehd; cbv beta iota delta [bind]; case=> Em _ _.
    exists pattern, row, col; split; first by rewrite Em.
    + rewrite /has_shape size_mkseq eqxx /=.
      by apply/allP => r /mapP [i _ ->]; rewrite size_mkseq.
    + rewrite /pattern count_same_class.
      have Eq : square_mod p =1 mem (CodedAperture.quadratic_residues p).
        by move=> a /=; rewrite mem_quadratic_residues_square // ltnW.
      rewrite (eq_count Eq) En (count_residues Pp (erefl _)).
      rewrite -mulnn; to_coq_nat; nia.
  - exfalso; move: E; rewrite /CodedAperture.raw_pattern.
    have -> : String.eqb (upper "MURA") "MURA" = true by [].
    rewrite [assert _ _]/= [bind (Ok tt) _]/= squarepattern_of_bits_nat -/p.
    rewrite /CodedAperture.squarepattern is_primeE // Pp [bind (Ok _) _]/=.
    rewrite {1 2 3 4}Ep mura_cells -Ep -En.
    set pattern := mkseq _ _.
    have -> : all (fun r : seq nat => 0 < size r) pattern.
      apply/allP => r /mapP [i _ ->]; rewrite size_mkseq.
      by rewrite En muln_gt0.
    case Ehd: pattern => [|r0 rest] //.
    by move: Ehd; rewrite /pattern En; case: (n_bits) Hn.
Qed.

Lemma mura_mask_half_open_witness :
  prime (4 * 3 + 1) /\
  exists (pattern : matrix nat) (row col : seq Z),
    [/\ @CodedAperture.raw_pattern binary64 (@Demo.collaborators binary64) "MURA"
          (Z.of_nat 3)
        = Ok ([seq [seq CInt (Z.of_nat x) | x <- r] | r <- pattern], row, col),
        has_shape pattern (4 * 3 + 1).-1 (4 * 3 + 1).-1
      & 2 * count_ones pattern = (4 * 3 + 1).-1 ^ 2].
Proof.
  split; first reflexivity.
  apply: (@mura_mask_half_open binary64 (@Demo.collaborators binary64) 3).
  reflexivity.
Defined.

(** ** The MLS pattern *)

(** X11: the MLS pattern is the outer product of the sequence of 1 and -1
    with itself, laid out twice in each direction: with [s] the [L] bits of
    [max_len_seq(n_bits)] and [h(i) = 2 * s[i mod L] - 1], [row] and [col]
    are both [h(0), ..., h(2 L - 1)] and the cell [(i, j)] of the
    [2 L] by [2 L] pattern is [(h(i) * h(j) + 1) / 2]. *)
Theorem mls_mask_is_tiled `{Collaborators} (n_bits : Z) (s : seq Z)
    (m : matrix (cell F C)) (row col : seq Z) :
  max_len_seq n_bits = Ok s ->
  CodedAperture.raw_pattern "MLS" n_bits = Ok (m, row, col) ->
  let L := size s in
  let h i := (nth 0%Z s (i %% L) * 2 - 1)%Z in
  [/\ col = row, size row = 2 * L, has_shape m (2 * L) (2 * L),
      forall i, i < 2 * L -> nth 0%Z row i = h i
    & forall i j, i < 2 * L -> j < 2 * L ->
        nth (CInt 0) (nth [::] m i) j = CReal ((of_Z (h i * h j) + f1) / f2)%F].
Proof.
  move=> Hs Hraw L h; move: Hraw; rewrite /CodedAperture.raw_pattern.
  have -> : upper "MLS" = "MLS"%string by [].
  rewrite Hs /= => -[<- <- <-].
  set sq := [seq (b * 2 - 1)%Z | b <- s].
  have Hsz : size (sq ++ sq) = 2 * L by rewrite size_cat size_map addnn mul2n.
  have Hh i : i < 2 * L -> nth 0%Z (sq ++ sq) i = h i.
    move=> Hi; rewrite nth_cat size_map -/L /h.
    case: (ltnP i L) => HiL; first by rewrite (nth_map 0%Z) // modn_small.
    have HiL' : i - L < L by rewrite ltn_subLR // addnn -mul2n.
    rewrite (nth_map 0%Z) //; congr (nth _ _ _ * 2 - 1)%Z.
    by rewrite -{2}(subnK HiL) modnDr modn_small.
  split=> //.
  - rewrite /has_shape size_map Hsz eqxx /=.
    by rewrite all_map; apply/(all_nthP 0%Z) => i _ /=; rewrite size_map Hsz.
  - move=> i j Hi Hj.
    rewrite (nth_map 0%Z) ?Hsz // (nth_map 0%Z) ?Hsz //.
    by rewrite !Hh.
Qed.

Lemma mls_mask_is_tiled_witness :
  exists m row col,
    @CodedAperture.raw_pattern binary64 (@Demo.collaborators binary64) "MLS" 2
    = Ok (m, row, col)
    /\ col = row /\ size row = 2 * 3.
Proof.
  have [[[m row] col] E] : exists res,
      @CodedAperture.raw_pattern binary64 (@Demo.collaborators binary64) "MLS" 2 = Ok res.
    eexists; vm_compute; reflexivity.
  exists m, row, col; split; first exact E.
  have Hs : @max_len_seq binary64 (@Demo.collaborators binary64) 2 = Ok [:: 1; 1; 0]%Z.
    vm_compute; reflexivity.
  have [Hc Hr _ _ _] := @mls_mask_is_tiled binary64 (@Demo.collaborators binary64)
                          2 [:: 1; 1; 0]%Z m row col Hs E.
  split; [exact Hc | exact Hr].
Defined.

(** ** [simulate] computes the separable model [P @ img @ Q.T] *)

Section Sums.

Local Open Scope R_scope.

Lemma rsumS (n : nat) (f : nat -> R) : rsum n.+1 f = rsum n f + f n.
Proof. by rewrite /rsum -addn1 iotaD add0n /= cats1 foldl_rcons. Qed.

Lemma rsum_ext (n : nat) (f g : nat -> R) :
  (forall k, (k < n)%N -> f k = g k) -> rsum n f = rsum n g.
Proof.
  elim: n => [//|n IH] Hfg; rewrite !rsumS IH ?Hfg // => k Hk.
  by apply: Hfg; exact: ltnW.
Qed.

Lemma rsum_mull (n : nat) (x : R) (f : nat -> R) :
  x * rsum n f = rsum n (fun k => x * f k).
Proof.
  elim: n => [|n IH]; first by rewrite /rsum /=; ring.
  by rewrite !rsumS -IH; ring.
Qed.

Lemma rsum_mulr (n : nat) (x : R) (f : nat -> R) :
  rsum n f * x = rsum n (fun k => f k * x).
Proof.
  elim: n => [|n IH]; first by rewrite /rsum /=; ring.
  by rewrite !rsumS -IH; ring.
Qed.

Lemma rsum_add (n : nat) (f g : nat -> R) :
  rsum n (fun k => f k + g k) = rsum n f + rsum n g.
Proof.
  elim: n => [|n IH]; first by rewrite /rsum /=; ring.
  by rewrite !rsumS IH; ring.
Qed.

Lemma rsum_exchange (n m : nat) (f : nat -> nat -> R) :
  rsum n (fun k => rsum m (fun l => f k l)) = rsum m (fun l => rsum n (fun k => f k l)).
Proof.
  elim: n => [|n IH].
    by rewrite {1}/rsum /=; elim: m => [//|m IHm]; rewrite rsumS -IHm /rsum /=; ring.
  rewrite rsumS IH -rsum_add; apply: rsum_ext => l _.
  by rewrite rsumS.
Qed.

End Sums.

Section DotProducts.

Context {K : @Collaborators real_scalar}.

Local Open Scope R_scope.

Lemma np_dot_entry (A B E : ndarray2 R) (i j : nat) :
  @CodedAperture.np_dot real_scalar A B = Ok E ->
  (i < nrows A)%N -> (j < ncols B)%N ->
  entry E i j = rsum (ncols A) (fun k => entry A i k * entry B k j).
Proof.
  rewrite /CodedAperture.np_dot; case: ifP => // _ [<-] Hi Hj.
  rewrite /entry /= (nth_map 0%N) ?size_iota // (nth_map 0%N) ?size_iota //.
  by rewrite !nth_iota // !add0n.
Qed.

Lemma np_dot_shape (A B E : ndarray2 R) :
  @CodedAperture.np_dot real_scalar A B = Ok E ->
  [/\ ncols A = nrows B, nrows E = nrows A & ncols E = ncols B].
Proof. by rewrite /CodedAperture.np_dot; case: eqP => // ? [<-]. Qed.

(** The product of three arrays does not depend on the order in which
    [multi_dot] multiplies them. *)
Lemma multi_dot3_entry (A B D E : ndarray2 R) (i j : nat) :
  @CodedAperture.multi_dot3 real_scalar A B D = Ok E ->
  (i < nrows A)%N -> (j < ncols D)%N ->
  entry E i j
  = rsum (ncols A) (fun k => rsum (ncols B) (fun l => entry A i k * entry B k l * entry D l j)).
Proof.
  rewrite /CodedAperture.multi_dot3; case: ifP => _.
  - case EAB: (@CodedAperture.np_dot real_scalar A B) => [AB|] //= EE Hi Hj.
    have [_ rAB cAB] := np_dot_shape EAB.
    rewrite (np_dot_entry EE) ?rAB // cAB.
    rewrite rsum_exchange; apply: rsum_ext => l Hl.
    by rewrite (np_dot_entry EAB) // rsum_mulr.
  - case EBD: (@CodedAperture.np_dot real_scalar B D) => [BD|] //= EE Hi Hj.
    have [_ rBD cBD] := np_dot_shape EBD.
    have [cA _ _] := np_dot_shape EE.
    rewrite (np_dot_entry EE) ?cBD //; apply: rsum_ext => k Hk.
    rewrite (np_dot_entry EBD) ?cBD // -?rBD -?cA // rsum_mull.
    by apply: rsum_ext => l _; ring.
Qed.

Lemma entry_to_float2 (A : ndarray2 Z) (i j : nat) :
  entry (@CodedAperture.to_float2 real_scalar A) i j
  = IZR (nth 0%Z (nth [::] (cells A) i) j).
Proof.
  rewrite /entry /=.
  case: (ltnP i (size (cells A))) => Hi; last first.
    by rewrite !nth_default ?size_map // !nth_nil.
  rewrite (nth_map [::]) //.
  case: (ltnP j (size (nth [::] (cells A) i))) => Hj; first by rewrite (nth_map 0%Z).
  by rewrite [LHS]nth_default ?size_map // [nth 0%Z _ j]nth_default.
Qed.

Lemma entry_transpose (A : ndarray2 R) (i j : nat) :
  (i < ncols A)%N -> (j < nrows A)%N ->
  entry (CodedAperture.transpose 0 A) i j = entry A j i.
Proof.
  move=> Hi Hj; rewrite /entry /=.
  rewrite (nth_map 0%N) ?size_iota // (nth_map 0%N) ?size_iota //.
  by rewrite !nth_iota.
Qed.

Lemma mapM_nth (A B : Type) (f : A -> result B) (xs : seq A) (ys : seq B)
    (a : A) (b : B) (k : nat) :
  mapM f xs = Ok ys -> (k < size xs)%N -> f (nth a xs k) = Ok (nth b ys k).
Proof.
  elim: xs ys k => [//|x xs IH] ys k /=.
  case Ex: (f x) => [y|] //=.
  case Es: (mapM f xs) => [zs|] //= [<-].
  by case: k => [//|k] Hk /=; exact: IH.
Qed.

Lemma mapM_size (A B : Type) (f : A -> result B) (xs : seq A) (ys : seq B) :
  mapM f xs = Ok ys -> size ys = size xs.
Proof.
  elim: xs ys => [|x xs IH] ys /=; first by case=> <-.
  case Ex: (f x) => [y|] //=.
  by case Es: (mapM f xs) => [zs|] //= [<-] /=; rewrite (IH zs).
Qed.

End DotProducts.

Section Separable.

Context {K : @Collaborators real_scalar}.

Local Open Scope R_scope.

Lemma multi_dot3_shape (A B D E : ndarray2 R) :
  @CodedAperture.multi_dot3 real_scalar A B D = Ok E ->
  ncols A = nrows B /\ ncols B = nrows D.
Proof.
  rewrite /CodedAperture.multi_dot3; case: ifP => _.
  - case EAB: (@CodedAperture.np_dot real_scalar A B) => [AB|] //= EE.
    have [H1 _ cAB] := np_dot_shape EAB.
    by have [H2 _ _] := np_dot_shape EE; rewrite -cAB.
  - case EBD: (@CodedAperture.np_dot real_scalar B D) => [BD|] //= EE.
    have [H1 rBD _] := np_dot_shape EBD.
    by have [H2 _ _] := np_dot_shape EE; rewrite H2 rBD.
Qed.

Lemma np_dstack_planes (xs : seq (ndarray2 R)) (meas : ndarray3 R) :
  np_dstack xs = Ok meas -> planes meas = [seq cells y | y <- xs].
Proof. by case: xs => [//|x xs] /=; case: ifP => // _ [<-]. Qed.

End Separable.

(** X12: without noise [simulate] returns the separable model
    [P @ img @ Q.T] channel by channel: over the real numbers, whichever
    order [multi_dot] multiplies in, the measurement at [(i, j)] in a
    channel is the sum over the pixels [(k, l)] of the image of
    [P[i, k] * img[k, l] * Q[j, l]], where [P] and [Q] are the matrices of
    [get_conv_matrices]. *)
Theorem simulate_is_separable {K : @Collaborators real_scalar}
    (m : @Mask.t real_scalar K (@CodedAperture.state)) (obj meas : ndarray3 R) :
  @CodedAperture.simulate real_scalar K m obj None = Ok meas ->
  let P := (CodedAperture.get_conv_matrices m (shape3 obj)).1 in
  let Q := (CodedAperture.get_conv_matrices m (shape3 obj)).2 in
  forall ch i j,
    ch < size (planes obj) ->
    i < nth 0 (Mask.resolution (Mask.base m)) 0 ->
    j < nth 0 (Mask.resolution (Mask.base m)) 1 ->
    nth 0%R (nth [::] (nth [::] (planes meas) ch) i) j
    = rsum (dim0 obj) (fun k => rsum (dim1 obj) (fun l =>
        (IZR (nth 0%Z (nth [::] (cells P) i) k)
         * nth 0%R (nth [::] (nth [::] (planes obj) ch) k) l
         * IZR (nth 0%Z (nth [::] (cells Q) j) l))%R)).
Proof.
  move=> Hsim P Q ch i j Hch Hi Hj; move: Hsim.
  rewrite /CodedAperture.simulate.
  rewrite (surjective_pairing (CodedAperture.get_conv_matrices m (shape3 obj))).
  rewrite -/P -/Q /=.
  set f := fun c => @CodedAperture.multi_dot3 real_scalar _ (plane obj c) _.
  case Ec: (mapM f _) => [chans|] //=.
  case Ed: (np_dstack chans) => [meas'|] //= [<-].
  have Hsz := mapM_size Ec; rewrite /range size_iota subn0 in Hsz.
  rewrite (np_dstack_planes Ed) (nth_map (Ndarray2 0 0 [::])) ?Hsz //.
  have := mapM_nth 0%N (Ndarray2 0 0 [::]) (k:=ch) Ec.
  rewrite /range size_iota subn0 nth_iota // add0n => /(_ Hch) Ef.
  have [HA HB] := multi_dot3_shape Ef.
  have HP : nrows (@CodedAperture.to_float2 real_scalar P)
            = nth 0 (Mask.resolution (Mask.base m)) 0 by [].
  have HQ : ncols (CodedAperture.transpose 0%R (@CodedAperture.to_float2 real_scalar Q))
            = nth 0 (Mask.resolution (Mask.base m)) 1 by [].
  have Hi' : i < nrows (@CodedAperture.to_float2 real_scalar P) by rewrite HP.
  have Hj' : j < ncols (CodedAperture.transpose 0%R
                          (@CodedAperture.to_float2 real_scalar Q)) by rewrite HQ.
  rewrite -/(entry _ i j) (multi_dot3_entry Ef Hi' Hj') HA.
  apply: rsum_ext => k Hk; apply: rsum_ext => l Hl.
  rewrite entry_to_float2 entry_transpose ?entry_to_float2 //.
  by move: Hl; rewrite HB.
Qed.

Lemma simulate_is_separable_witness :
  exists meas,
    @CodedAperture.simulate real_scalar (@Demo.collaborators real_scalar)
      one_pixel_mask (Ndarray3 1 1 [:: [:: [:: 2%R]]]) None = Ok meas
    /\ nth 0%R (nth [::] (nth [::] (planes meas) 0) 0) 0
       = rsum 1 (fun k => rsum 1 (fun l =>
           (IZR (nth 0%Z (nth [::] (cells (CodedAperture.get_conv_matrices one_pixel_mask
                                             (1, 1, 1)%N).1) 0) k)
            * nth 0%R (nth [::] [:: [:: 2%R]] k) l
            * IZR (nth 0%Z (nth [::] (cells (CodedAperture.get_conv_matrices one_pixel_mask
                                               (1, 1, 1)%N).2) 0) l))%R)).
Proof.
  have [meas E] : exists res,
      @CodedAperture.simulate real_scalar (@Demo.collaborators real_scalar)
        one_pixel_mask (Ndarray3 1 1 [:: [:: [:: 2%R]]]) None = Ok res.
    eexists; reflexivity.
  exists meas; split; first exact E.
  exact: (@simulate_is_separable (@Demo.collaborators real_scalar) one_pixel_mask
            (Ndarray3 1 1 [:: [:: [:: 2%R]]]) meas E 0 0 0 isT isT isT).
Defined.

(** ** [MultiLensArray]: the checks on lenses that are given *)

Section ExplicitLenses.

Context {K : @Collaborators real_scalar}.

Local Open Scope R_scope.

Lemma pairwise_apart_behead (c : R * R * R) (cs : seq (R * R * R)) :
  pairwise_apart (c :: cs) -> pairwise_apart cs.
Proof.
  move=> Hp i j Hi Hj ij.
  by apply: (Hp i.+1 j.+1) => //; move=> [].
Qed.

Lemma pairwise_listed_apart (cs : seq (R * R * R)) :
  pairwise_apart cs -> @listed_apart real_scalar cs.
Proof.
  elim: cs => [//|c cs IH] Hp /=; apply/andP; split; last first.
    by apply: IH; exact: pairwise_apart_behead Hp.
  apply/(all_nthP (0, 0, 0)) => j Hj.
  by apply/overlap_distance; exact: (Hp 0%N j.+1).
Qed.

End ExplicitLenses.

(** X13: lenses given by their radii and locations pass [__init__] exactly
    when there are as many radii as locations and the circles are pairwise
    apart (over the real numbers: the centres of any two are at least the sum
    of their radii apart); [N] is then the number of radii, whatever was
    given for it, and the generator is not touched.  Otherwise [__init__]
    fails on an assertion. *)
Theorem explicit_lenses_are_checked {K : @Collaborators real_scalar}
    (N : option nat) (rad : seq R) (l : seq (R * R)) (seed : Z) (min_height : R)
    (g : rng) :
  let circles := [seq (p.1.1, p.1.2, p.2) | p <- zip l rad] in
  (size rad = size l /\ pairwise_apart circles ->
   @MultiLensArray.init_lenses real_scalar K N (Some rad) (Some l) seed min_height g
   = Ok ((Some (size rad), rad, Some l), g))
  /\ (~ (size rad = size l /\ pairwise_apart circles) ->
      @MultiLensArray.init_lenses real_scalar K N (Some rad) (Some l) seed min_height g
      = Raise (AssertionError "")).
Proof.
  move=> circles; rewrite /MultiLensArray.init_lenses /bindM /lift /assert.
  rewrite no_circle_overlapE -/circles.
  split=> [[Hs /pairwise_listed_apart ->]|Hn]; first by rewrite Hs eqxx.
  case: eqP => // Hs.
  case Hl: (@listed_apart real_scalar circles) => //.
  by case: Hn; split=> //; exact: listed_apart_pairwise.
Qed.

(** ** [MultiLensArray]: the greedy placement *)

Section Greedy.

Context `{Collaborators}.

Lemma try_place_radius (k : nat) (placed : seq MultiLensArray.circle) (w h r : F)
    (g g' : rng) (c : option MultiLensArray.circle) :
  MultiLensArray.try_place k placed w h r g = Ok (c, g') ->
  if c is Some c' then c'.2 = r else True.
Proof.
  by case: c => [c|] // /try_place_ok [].
Qed.

(** The radii of the circles placed are taken, in order, from the radii
    that the loop goes through. *)
Lemma place_loop_mask (k : nat) (w h : F) (rs : seq F)
    (placed placed' : seq MultiLensArray.circle) (g g' : rng) :
  MultiLensArray.place_loop k w h rs placed g = Ok (placed', g') ->
  exists bits,
    [/\ size bits = size rs,
        [seq c.2 | c <- placed'] = [seq c.2 | c <- placed] ++ mask bits rs
      & size placed' = size placed + count id bits].
Proof.
  elim: rs placed g => [|r rs IH] placed g /=.
    by rewrite /ret => -[<- _]; exists [::]; rewrite cats0 addn0.
  rewrite {1}/bindM.
  case E: (MultiLensArray.try_place k placed w h r g) => [[c g1]|] //.
  have := try_place_radius E.
  case: c {E} => [c|] Hc /IH [bits [Hs Hm Hn]].
  - exists (true :: bits); split; rewrite /= ?Hs //.
    + by rewrite Hm map_rcons Hc -cats1 -catA.
    + by rewrite Hn size_rcons addSn addnS.
  - by exists (false :: bits); split; rewrite /= ?Hs // add0n.
Qed.

End Greedy.

Lemma placement_returns_sorted_subsequence_aux `{Collaborators} (w h : F)
    (radius : seq F) (k : nat) (g g' : rng) (locs : seq (F * F)) (rad : seq F) :
  MultiLensArray.place_spheres_on_plane w h radius k g = Ok ((locs, rad), g') ->
  exists bits,
    [/\ size bits = size radius,
        rad = mask bits (sort (fun a b => (b <= a)%F) radius),
        size locs = size rad
      & 0 < size rad <= size radius].
Proof.
  rewrite /MultiLensArray.place_spheres_on_plane {1}/bindM.
  case E: (MultiLensArray.place_loop _ _ _ _ _ _) => [[placed g1]|] //.
  have [bits [Hs Hm Hn]] := place_loop_mask E.
  case: placed Hm Hn {E} => [//|c cs] Hm Hn; rewrite /ret => -[<- <- _].
  move: Hs; rewrite size_sort => Hs.
  exists bits; split=> //; first by rewrite /= !size_map.
  move: Hn; rewrite /= size_map add0n => -> /=.
  by rewrite -Hs; exact: count_size.
Qed.

(** X14: the radii that [place_spheres_on_plane] returns are taken, in
    order, from the given radii sorted in decreasing order: a radius for
    which every attempt failed is left out, so fewer lenses than asked for
    can come back (at least one does), each with its location. *)
Theorem placement_returns_sorted_subsequence `{Collaborators} (w h : F) (radius : seq F)
    (k : nat) (g g' : rng) (locs : seq (F * F)) (rad : seq F) :
  MultiLensArray.place_spheres_on_plane w h radius k g = Ok ((locs, rad), g') ->
  exists bits,
    [/\ size bits = size radius,
        rad = mask bits (sort (fun a b => (b <= a)%F) radius),
        size locs = size rad
      & 0 < size rad <= size radius].
Proof. exact: placement_returns_sorted_subsequence_aux. Qed.

Lemma placement_returns_sorted_subsequence_witness :
  exists locs rad g',
    @MultiLensArray.place_spheres_on_plane binary64 (@Demo.collaborators binary64)
      4%float 4%float [:: 0.5%float; 1%float] 1000 0%Z = Ok ((locs, rad), g')
    /\ size locs = size rad /\ 0 < size rad <= 2.
Proof.
  have [[[locs rad] g'] E] :
      exists res,
        @MultiLensArray.place_spheres_on_plane binary64 (@Demo.collaborators binary64)
          4%float 4%float [:: 0.5%float; 1%float] 1000 0%Z = Ok res.
    eexists; vm_compute; reflexivity.
  exists locs, rad, g'; split; first exact E.
  have [bits [_ _ Hs Hn]] := placement_returns_sorted_subsequence E.
  split; [exact Hs | exact Hn].
Defined.

(** X15: with no radius to place, or with no attempt allowed, nothing is
    placed and [place_spheres_on_plane] fails on the slice of an empty
    array, whatever the state of the generator. *)
Theorem placement_of_nothing_raises `{Collaborators} (w h : F) (radius : seq F)
    (k : nat) (g : rng) :
  radius = [::] \/ k = 0 ->
  MultiLensArray.place_spheres_on_plane w h radius k g
  = Raise (IndexError "too many indices for array").
Proof.
  rewrite /MultiLensArray.place_spheres_on_plane {1}/bindM.
  case=> [->|->] //=.
  set rs := sort _ _.
  have -> // : forall placed g0,
      MultiLensArray.place_loop 0 w h rs placed g0 = Ok (placed, g0).
  by elim: rs => [//|r rs IH] placed g0 /=; rewrite /bindM /= IH.
Qed.

Lemma placement_of_nothing_raises_witness :
  @MultiLensArray.place_spheres_on_plane binary64 (@Demo.collaborators binary64)
    4%float 4%float [::] 1000 0%Z
  = Raise (IndexError "too many indices for array").
Proof.
  apply: (@placement_of_nothing_raises binary64 (@Demo.collaborators binary64)).
  by left.
Defined.

(** ** [MultiLensArray] over the real numbers: where the lenses are and how
    high they rise *)

Section SampleRange.

Context {K : @Collaborators real_scalar}.

Local Open Scope R_scope.

(** The generator draws from [[0, 1)], as [np.random.random_sample] does. *)
Hypothesis sample_range : forall g : rng, 0 <= (random_sample g).1 < 1.

Lemma uniform_range (low high : R) (g g' : rng) (x : R) :
  low <= high ->
  @np_random_uniform real_scalar K low high g = Ok (x, g') -> low <= x <= high.
Proof.
  move=> Hlh; rewrite /np_random_uniform.
  have := sample_range g; case: (random_sample g) => u g1 /= [Hu0 Hu1] [<- _].
  have H0 : 0 <= (high - low) * u by apply: Rmult_le_pos; lra.
  split; first by rewrite /=; lra.
  have : (high - low) * u <= (high - low) * 1.
    by apply: Rmult_le_compat_l; lra.
  by lra.
Qed.

Lemma try_place_inside (k : nat) (placed : seq (R * R * R)) (w h r : R)
    (g g' : rng) (c : R * R * R) :
  2 * r <= w -> 2 * r <= h ->
  @MultiLensArray.try_place real_scalar K k placed w h r g = Ok (Some c, g') ->
  inside w h c.
Proof.
  move=> Hw Hh; elim: k g => [//|k IH] g /=.
  rewrite {1}/bindM.
  case Ex: (np_random_uniform _ _ _) => [[x g1]|] //.
  rewrite {1}/bindM.
  case Ey: (np_random_uniform _ _ _) => [[y g2]|] //.
  case: ifP => [_|_]; last exact: IH.
  rewrite /ret => -[<- _]; split=> /=.
  - by apply: (uniform_range _ Ex) => /=; lra.
  - by apply: (uniform_range _ Ey) => /=; lra.
Qed.

Lemma place_loop_inside (k : nat) (w h : R) (rs : seq R)
    (placed placed' : seq (R * R * R)) (g g' : rng) :
  all (fun r => Rleb (2 * r) w && Rleb (2 * r) h) rs ->
  @MultiLensArray.place_loop real_scalar K k w h rs placed g = Ok (placed', g') ->
  (forall i, (i < size placed)%N -> inside w h (nth (0, 0, 0) placed i)) ->
  forall i, (i < size placed')%N -> inside w h (nth (0, 0, 0) placed' i).
Proof.
  elim: rs placed g => [|r rs IH] placed g /=; first by move=> _; rewrite /ret => -[<- _].
  case/andP => /andP [/RlebP Hw /RlebP Hh] Hrs.
  rewrite {1}/bindM.
  case E: (@MultiLensArray.try_place real_scalar K k placed w h r g) => [[[c|] g1]|] //;
    last exact: IH.
  move=> /(IH _ _ Hrs) Hrec Hp; apply: Hrec => i.
  rewrite size_rcons ltnS nth_rcons leq_eqVlt.
  case: ltnP => [Hi _|_]; first exact: Hp.
  rewrite orbF => /eqP ->; rewrite eqxx.
  exact: try_place_inside E.
Qed.

End SampleRange.

(** X16: over the real numbers, with a generator that draws from [[0, 1)]
    and radii of which none is more than half the width or the height of the
    plane, every lens that [place_spheres_on_plane] returns has its centre at
    least its radius away from the four sides of the plane. *)
Theorem placed_lenses_lie_inside_plane {K : @Collaborators real_scalar}
    (w h : R) (radius : seq R) (k : nat) (g g' : rng) (locs : seq (R * R))
    (rad : seq R) :
  (forall g0 : rng, (0 <= (random_sample g0).1 < 1)%R) ->
  all (fun r => Rleb (2 * r) w && Rleb (2 * r) h) radius ->
  @MultiLensArray.place_spheres_on_plane real_scalar K w h radius k g
  = Ok ((locs, rad), g') ->
  forall i, i < size rad ->
    let c := nth (0, 0)%R locs i in
    let r := nth 0%R rad i in
    (r <= c.1 <= w - r)%R /\ (r <= c.2 <= h - r)%R.
Proof.
  move=> Hu Hr; rewrite /MultiLensArray.place_spheres_on_plane {1}/bindM.
  case E: (@MultiLensArray.place_loop real_scalar K _ _ _ _ _ _) => [[placed g1]|] //.
  have Hs : all (fun r => Rleb (2 * r) w && Rleb (2 * r) h)
              (sort (fun a b : R => Rleb b a) radius) by rewrite all_sort.
  have Hin := place_loop_inside Hu Hs E (fun i (Hi : i < 0) => False_ind _ (notF Hi)).
  have Hall i : i < size [seq c.2 | c <- placed] ->
      let c := nth (0, 0)%R [seq (c.1.1, c.1.2) | c <- placed] i in
      let r := nth 0%R [seq c.2 | c <- placed] i in
      (r <= c.1 <= w - r)%R /\ (r <= c.2 <= h - r)%R.
    rewrite size_map => Hi /=.
    by rewrite (nth_map (0, 0, 0)%R) // (nth_map (0, 0, 0)%R) //; exact: Hin.
  by case: placed Hall {E Hin} => [//|c cs] Hall; rewrite /ret => -[<- <- _].
Qed.

Lemma lcg_sample_range (g : Z) : (0 <= (@Demo.lcg_sample real_scalar g).1 < 1)%R.
Proof.
  rewrite /Demo.lcg_sample /Demo.lcg_next.
  set s := ((g * _ + _) mod _)%Z.
  set q := (s / 2 ^ 11)%Z.
  have Hs : (0 <= s < 2 ^ 64)%Z by apply: Z.mod_pos_bound.
  have Hq : (0 <= q < 2 ^ 53)%Z.
    split; first by apply: Z.div_pos; lia.
    by apply: Z.div_lt_upper_bound; lia.
  have H53 : (0 < IZR (2 ^ 53))%R by apply: IZR_lt.
  have Hq0 : (0 <= IZR q)%R by apply: IZR_le; lia.
  have Hq1 : (IZR q < IZR (2 ^ 53))%R by apply: IZR_lt; lia.
  rewrite [X in (0 <= X < 1)%R]/=.
  split.
  - by apply: Rmult_le_pos => //; left; apply: Rinv_0_lt_compat.
  - apply: (Rmult_lt_reg_r (IZR (2 ^ 53))) => //.
    by rewrite /Rdiv Rmult_assoc Rinv_l ?Rmult_1_r ?Rmult_1_l //; apply: Rgt_not_eq.
Qed.

Lemma placed_lenses_lie_inside_plane_witness :
  exists locs rad g',
    @MultiLensArray.place_spheres_on_plane real_scalar (@Demo.collaborators real_scalar)
      4%R 4%R [:: 1%R] 1 0%Z = Ok ((locs, rad), g')
    /\ forall i, i < size rad ->
         (nth 0%R rad i <= (nth (0, 0)%R locs i).1 <= 4 - nth 0%R rad i)%R
         /\ (nth 0%R rad i <= (nth (0, 0)%R locs i).2 <= 4 - nth 0%R rad i)%R.
Proof.
  have [[[locs rad] g'] E] :
      exists res,
        @MultiLensArray.place_spheres_on_plane real_scalar
          (@Demo.collaborators real_scalar) 4%R 4%R [:: 1%R] 1 0%Z = Ok res.
    eexists; reflexivity.
  exists locs, rad, g'; split; first exact E.
  apply: (@placed_lenses_lie_inside_plane (@Demo.collaborators real_scalar)
            4%R 4%R [:: 1%R] 1 0%Z g' locs rad _ _ E).
  - exact: lcg_sample_range.
  - by rewrite /= andbT; apply/andP; split; apply: Rleb_true; lra.
Defined.

Section DrawnRadii.

Context {K : @Collaborators real_scalar}.

Local Open Scope R_scope.

Hypothesis sample_range : forall g : rng, 0 <= (random_sample g).1 < 1.

Lemma uniform_between (low high : R) (g g' : rng) (x : R) :
  @np_random_uniform real_scalar K low high g = Ok (x, g') ->
  Rmin low high <= x <= Rmax low high.
Proof.
  rewrite /np_random_uniform.
  have := sample_range g; case: (random_sample g) => u g1 /= [Hu0 Hu1] [<- _].
  change (Rmin low high <= low + (high - low) * u <= Rmax low high).
  rewrite /Rmin /Rmax; case: (Rle_dec low high) => Hlh.
  - have H0 : 0 <= (high - low) * u by apply: Rmult_le_pos; lra.
    have H1 : (high - low) * u <= (high - low) * 1 by apply: Rmult_le_compat_l; lra.
    by lra.
  - have H0 : 0 <= (low - high) * u by apply: Rmult_le_pos; lra.
    have H1 : (low - high) * u <= (low - high) * 1 by apply: Rmult_le_compat_l; lra.
    by lra.
Qed.

Lemma uniform_seq_between (low high : R) (n : nat) (g g' : rng) (xs : seq R) :
  @np_random_uniform_seq real_scalar K low high n g = Ok (xs, g') ->
  size xs = n
  /\ forall i, (i < n)%N -> Rmin low high <= nth 0 xs i <= Rmax low high.
Proof.
  elim: n g g' xs => [|n IH] g g' xs /=; first by rewrite /ret => -[<- _].
  rewrite {1}/bindM.
  case Ex: (np_random_uniform _ _ _) => [[x g1]|] //.
  rewrite {1}/bindM.
  case Es: (np_random_uniform_seq _ _ _ _) => [[ys g2]|] //.
  rewrite /ret => -[<- _].
  have [Hs Hy] := IH _ _ _ Es.
  split; first by rewrite /= Hs.
  case=> [_|i Hi] /=; first exact: uniform_between Ex.
  exact: Hy.
Qed.

End DrawnRadii.

(** X17: when no radius is given, [__init__] re-seeds the generator and
    draws one radius for each of the [N] lenses; over the real numbers, with
    a generator that draws from [[0, 1)], every radius lies between
    [min_height] and [1e-5], in the order that puts the smaller one first
    (the lower end of the draw is [min_height], whatever its size). *)
Theorem drawn_radii_lie_between_bounds {K : @Collaborators real_scalar}
    (n : nat) (loc : option (seq (R * R))) (seed : Z) (min_height : R)
    (g g' : rng) (res : option nat * seq R * option (seq (R * R))) :
  (forall g0 : rng, (0 <= (random_sample g0).1 < 1)%R) ->
  @MultiLensArray.init_lenses real_scalar K (Some n) None loc seed min_height g
  = Ok (res, g') ->
  exists rad,
    [/\ res = (Some n, rad, loc),
        size rad = n
      & forall i, i < n ->
          (Rmin min_height (1 / 100000) <= nth 0%R rad i
           <= Rmax min_height (1 / 100000))%R].
Proof.
  move=> Hu; rewrite /MultiLensArray.init_lenses {1}/bindM.
  case: (np_random_seed seed g) => [[_ g1]|] //.
  rewrite {1}/bindM.
  case Es: (np_random_uniform_seq _ _ _ _) => [[rad g2]|] //.
  have [Hs Hr] := uniform_seq_between Hu Es.
  rewrite /bindM /lift /assert Hs eqxx /ret => -[<- _].
  by exists rad.
Qed.

Lemma drawn_radii_lie_between_bounds_witness :
  exists rad g',
    @MultiLensArray.init_lenses real_scalar (@Demo.collaborators real_scalar)
      (Some 2) None None 0%Z (1 / 1000)%R 7%Z = Ok ((Some 2, rad, None), g')
    /\ (1 / 100000 <= nth 0%R rad 1 <= 1 / 1000)%R.
Proof.
  have [[[[n rad] l] g'] E] :
      exists res,
        @MultiLensArray.init_lenses real_scalar (@Demo.collaborators real_scalar)
          (Some 2) None None 0%Z (1 / 1000)%R 7%Z = Ok res.
    eexists; reflexivity.
  have [rad' [Er Hs Hr]] :=
    @drawn_radii_lie_between_bounds (@Demo.collaborators real_scalar) 2 None 0%Z
      (1 / 1000)%R 7%Z g' (n, rad, l) lcg_sample_range E.
  case: Er E Hr => -> <- -> E Hr.
  exists rad, g'; split; first exact E.
  have := Hr 1 isT.
  rewrite Rmin_right ?Rmax_left; lra.
Defined.

(** ** [lens_contribution]: radii and locations of different lengths *)

Section LensMismatch.

Context `{Scalar}.

Lemma lens_contribution_from_raises (idx : nat) (radius : seq F) (locs : seq (F * F))
    (x y : F) :
  idx <= size radius -> size radius < idx + size locs ->
  ~~ has (covers x y) (zip locs (drop idx radius)) ->
  MultiLensArray.lens_contribution_from idx radius locs x y
  = Raise (IndexError "index out of bounds").
Proof.
  elim: locs idx => [|loc locs IH] idx /=.
    by rewrite addn0 => H1 H2; move: (leq_ltn_trans H1 H2); rewrite ltnn.
  rewrite leq_eqVlt => /orP [/eqP ->|Hidx]; first by rewrite ltnn.
  rewrite Hidx (drop_nth f0 Hidx) /= addnS ltnS negb_or => Hsz /andP [Hc Hn].
  rewrite /covers /= in Hc; rewrite (negbTE Hc).
  by apply: IH => //; rewrite addSn.
Qed.

End LensMismatch.

(** X18: with fewer radii than locations, as [MultiLensArray(N, loc)] allows
    when [N] is less than the number of locations, [lens_contribution] fails
    with an [IndexError] at every point that none of the lenses that have a
    radius covers. *)
Theorem lens_without_radius_raises `{Scalar} (radius : seq F) (locs : seq (F * F))
    (x y : F) :
  size radius < size locs ->
  ~~ has (covers x y) (zip locs radius) ->
  exists msg, MultiLensArray.lens_contribution radius locs x y = Raise (IndexError msg).
Proof.
  move=> Hsz Hn; eexists; rewrite /MultiLensArray.lens_contribution.
  by apply: lens_contribution_from_raises; rewrite ?add0n ?drop0.
Qed.

Lemma lens_without_radius_raises_witness :
  exists msg,
    @MultiLensArray.lens_contribution binary64 [:: 1%float]
      [:: (1%float, 1%float); (5%float, 5%float)] 3.5%float 3.5%float
    = Raise (IndexError msg).
Proof.
  apply: (@lens_without_radius_raises binary64 [:: 1%float]
            [:: (1%float, 1%float); (5%float, 5%float)] 3.5%float 3.5%float).
  - reflexivity.
  - reflexivity.
Defined.

Lemma first_cover_height_cons `{Scalar} (px py : F) (l : lens) (ls : seq lens) :
  first_cover_height px py (l :: ls)
  = if covers px py l then cap_height px py l else first_cover_height px py ls.
Proof. by rewrite /first_cover_height /=; case: (covers px py l). Qed.

Section HeightBounds.

Context {K : @Collaborators real_scalar}.

Local Open Scope R_scope.

Lemma sqrt_le_abs (r d : R) : 0 <= d -> 0 <= r * r - d ->
  0 <= R_sqrt.sqrt (r * r - d) <= Rabs r.
Proof.
  move=> Hd Hrd; split; first exact: sqrt_pos.
  rewrite -sqrt_Rsqr_abs /Rsqr.
  by apply: sqrt_le_1_alt; lra.
Qed.

(** The cap of a lens over a point that it covers lies between 0 and the
    radius. *)
Lemma cap_height_range (px py : R) (l : @lens real_scalar) :
  @covers real_scalar px py l ->
  0 <= @cap_height real_scalar px py l <= Rabs l.2.
Proof.
  move=> /RltbP Hc.
  change ((px - l.1.1) * (px - l.1.1) + (py - l.1.2) * (py - l.1.2) < l.2 * l.2) in Hc.
  change (0 <= R_sqrt.sqrt (l.2 * l.2 - (px - l.1.1) * (px - l.1.1)
                            - (py - l.1.2) * (py - l.1.2)) <= Rabs l.2).
  move: (px - l.1.1) (py - l.1.2) Hc => dx dy Hc.
  have Hx : 0 <= dx * dx by apply: Rle_0_sqr.
  have Hy : 0 <= dy * dy by apply: Rle_0_sqr.
  have -> : l.2 * l.2 - dx * dx - dy * dy = l.2 * l.2 - (dx * dx + dy * dy) by ring.
  by apply: sqrt_le_abs; lra.
Qed.

Lemma first_cover_height_range (px py B : R) (lenses : seq (@lens real_scalar)) :
  0 <= B ->
  (forall i, (i < size lenses)%N -> Rabs (nth (0, 0, 0) lenses i).2 <= B) ->
  0 <= @first_cover_height real_scalar px py lenses <= B.
Proof.
  move=> HB; elim: lenses => [|l ls IH] Hb.
    by rewrite /first_cover_height /= /f0 /=; lra.
  have {}IH : 0 <= @first_cover_height real_scalar px py ls <= B.
    by apply: IH => i Hi; exact: (Hb i.+1).
  rewrite first_cover_height_cons.
  case Hc: (@covers real_scalar px py l) => //.
  have [H0 H1] := cap_height_range Hc.
  have H2 := Hb 0%N isT.
  by split; [exact: H0 | exact: Rle_trans H1 H2].
Qed.

End HeightBounds.

Lemma create_height_map_bounded (a : @Mask.attrs real_scalar) (min_height B : R)
    (radius : seq R) (locs : seq (R * R)) :
  let r0 := nth 0 (Mask.resolution a) 0 in
  let r1 := nth 0 (Mask.resolution a) 1 in
  let fs0 := nth 0%R (Mask.feature_size a) 0 in
  size locs <= size radius ->
  (0 <= fs0)%R -> (0 <= B)%R ->
  (forall i, i < size radius -> (Rabs (nth 0%R radius i) <= B)%R) ->
  exists height : matrix R,
    [/\ @MultiLensArray.create_height_map real_scalar a min_height radius locs = Ok height,
        has_shape height r0 r1
      & forall x y, x < r0 -> y < r1 ->
          (min_height <= nth 0%R (nth [::] height x) y <= min_height + B * fs0)%R].
Proof.
  move=> r0 r1 fs0 Hsz Hfs HB Hb.
  pose centre (i : nat) := (IZR (Z.of_nat i) + 1 / 2)%R.
  pose c x y := @first_cover_height real_scalar (centre x) (centre y) (zip locs radius).
  pose hgt x y := (min_height + c x y * fs0)%R.
  have Hc x y : (0 <= c x y <= B)%R.
    apply: first_cover_height_range => // i; rewrite size_zip => Hi.
    rewrite -[(0, 0, 0)%R]/((0, 0)%R, 0%R) nth_zip_cond size_zip Hi /=.
    by apply: Hb; apply: leq_trans Hi _; exact: geq_minr.
  have Hh x y : (min_height <= hgt x y <= min_height + B * fs0)%R.
    have [H0 H1] := Hc x y; rewrite /hgt.
    have : (0 <= c x y * fs0)%R by apply: Rmult_le_pos.
    have : (c x y * fs0 <= B * fs0)%R by apply: Rmult_le_compat_r.
    by lra.
  have Hv : @MultiLensArray.height_values real_scalar a min_height radius locs
            = Ok [seq [seq hgt x y | y <- range 0 r1] | x <- range 0 r0].
    rewrite /MultiLensArray.height_values -/r0 -/r1 -/fs0.
    apply: mapM_ok => x; apply: mapM_ok => y.
    have Hle : 0 + size locs <= size radius by rewrite add0n.
    rewrite /MultiLensArray.lens_contribution.
    by rewrite (@lens_contribution_from_first_cover real_scalar _ _ _ _ _ Hle) drop0.
  exists [seq [seq hgt x y | y <- range 0 r1] | x <- range 0 r0]; split.
  - rewrite /MultiLensArray.create_height_map Hv /=.
    have -> // : all (all (fun h => (@fle real_scalar min_height h))) 
                  [seq [seq hgt x y | y <- range 0 r1] | x <- range 0 r0].
    rewrite all_map; apply/allP => x _ /=; rewrite all_map; apply/allP => y _ /=.
    by apply: Rleb_true; have := Hh x y; lra.
  - rewrite /has_shape size_map /range size_iota subn0 eqxx /=.
    by rewrite all_map; apply/allP => x _ /=; rewrite size_map size_iota subn0.
  - move=> x y Hx Hy; rewrite /range !subn0.
    rewrite (nth_map 0%N) ?size_iota // (nth_map 0%N) ?size_iota //.
Qed.

(** X19: over the real numbers, with at least as many radii as locations, a
    pitch that is not negative and radii bounded by [B] (in pixels),
    [create_height_map] returns: its assertion [height >= min_height] cannot
    fail, the map has the shape of the resolution, and every height lies
    between [min_height] and [min_height + B * feature_size[0]]. *)
Theorem height_map_is_bounded (a : @Mask.attrs real_scalar) (min_height B : R)
    (radius : seq R) (locs : seq (R * R)) :
  let r0 := nth 0 (Mask.resolution a) 0 in
  let r1 := nth 0 (Mask.resolution a) 1 in
  let fs0 := nth 0%R (Mask.feature_size a) 0 in
  size locs <= size radius ->
  (0 <= fs0)%R -> (0 <= B)%R ->
  (forall i, i < size radius -> (Rabs (nth 0%R radius i) <= B)%R) ->
  exists height : matrix R,
    [/\ @MultiLensArray.create_height_map real_scalar a min_height radius locs = Ok height,
        has_shape height r0 r1
      & forall x y, x < r0 -> y < r1 ->
          (min_height <= nth 0%R (nth [::] height x) y <= min_height + B * fs0)%R].
Proof. exact: create_height_map_bounded. Qed.

Lemma height_map_is_bounded_witness :
  exists height : matrix R,
    @MultiLensArray.create_height_map real_scalar
      (@Mask.Attrs real_scalar [:: 2; 2] [:: 1; 1]%R [:: 1 / 2; 1 / 2]%R 1%R)
      (1 / 8)%R [:: (3 / 2)%R] [:: (1, 1)%R] = Ok height
    /\ (1 / 8 <= nth 0%R (nth [::] height 0) 0 <= 1 / 8 + 3 / 2 * (1 / 2))%R.
Proof.
  have [] := @height_map_is_bounded
               (@Mask.Attrs real_scalar [:: 2; 2] [:: 1; 1]%R [:: 1 / 2; 1 / 2]%R 1%R)
               (1 / 8)%R (3 / 2)%R [:: (3 / 2)%R] [:: (1, 1)%R].
  - reflexivity.
  - rewrite /=; lra.
  - lra.
  - by case=> [|//] _ /=; rewrite Rabs_pos_eq; lra.
  - move=> height [Hv _ Hpix]; exists height; split; first exact: Hv.
    exact: (Hpix 0 0).
Defined.



(** ** [phase_retrieval] and [PhaseContour] over the real numbers *)

Section PhaseRange.

Local Open Scope R_scope.

(** numpy's remainder by a positive number lies in [[0, y)]. *)
Lemma Rmod_range (x y : R) : 0 < y -> 0 <= Rmod x y < y.
Proof.
  move=> y0; rewrite /Rmod.
  have [lo hi] := base_Int_part (x / y).
  pose d := x / y - IZR (Int_part (x / y)).
  have Hd : 0 <= d < 1 by rewrite /d; lra.
  have -> : x - IZR (Int_part (x / y)) * y = d * y by rewrite /d; field; lra.
  by split; nra.
Qed.

Lemma wrapped_phase_range {K : @Collaborators real_scalar} (m : matrix C) (i j : nat) :
  let phi := PhaseContour.map2
               (fun z => @fmod real_scalar (cangle z + f2 * fpi)%F (f2 * fpi)%F) m in
  (i < size phi)%N -> (j < size (nth [::] phi i))%N ->
  0 <= nth 0 (nth [::] phi i) j < 2 * PI.
Proof.
  rewrite /PhaseContour.map2 /= size_map => Hi.
  rewrite (nth_map [::]) // size_map => Hj.
  rewrite (nth_map (@c_of_real real_scalar K 0)) //.
  by apply: Rmod_range; have := PI_RGT_0; rewrite /f2 /=; lra.
Qed.

End PhaseRange.

(** X21: with at least one iteration, over the real numbers,
    [phase_retrieval] returns a phase of which every entry lies in
    [[0, 2 pi)]; a height map is returned exactly when it is asked for; for
    [n <> 1] it is [wv * phi / (2 pi (n - 1))] entry by entry, and it lies
    in [[0, wv / (n - 1))] when [n > 1] and [wv > 0]. *)
Theorem phase_retrieval_wraps_phase {K : @Collaborators real_scalar}
    (target_psf : matrix R) (wv dz n : R) (d1 : @Mask.feature_size_arg real_scalar)
    (k : nat) (height_map : bool) (phi : matrix R) (h : option (matrix R)) :
  @PhaseContour.phase_retrieval real_scalar K target_psf wv d1 dz n k.+1 height_map
  = Ok (phi, h) ->
  [/\ forall i j, i < size phi -> j < size (nth [::] phi i) ->
        (0 <= nth 0%R (nth [::] phi i) j < 2 * PI)%R,
      (isSome h = height_map
       /\ forall hm, h = Some hm -> (n <> 1)%R ->
            hm = [seq [seq (wv * p / (2 * PI * (n - 1)))%R | p <- r] | r <- phi])
    & forall hm i j, h = Some hm -> (1 < n)%R -> (0 < wv)%R ->
        i < size hm -> j < size (nth [::] hm i) ->
        (0 <= nth 0%R (nth [::] hm i) j < wv / (n - 1))%R].
Proof.
  rewrite /PhaseContour.phase_retrieval.
  case: (match d1 with Mask.FsFloat x => _ | Mask.FsArray xs => _ end) => [d|] //.
  rewrite /=.
  set m := PhaseContour.map2 (fun z => cexp_i (cangle z)) _.
  have /= Hrange := @wrapped_phase_range K m.
  move: Hrange; set phi0 := PhaseContour.map2 _ m => Hrange.
  have P0 := PI_RGT_0.
  case: height_map => -[<- <-]; split=> //; first by split=> // hm [<-].
  move=> hm i j [<-] n1 wv0; rewrite /PhaseContour.map2 size_map => Hi.
  rewrite (nth_map [::]) // size_map => Hj.
  rewrite (nth_map 0%R) //.
  have [H0 H1] := Hrange i j Hi Hj.
  move: H0 H1; set p := nth 0%R _ j => H0 H1.
  change (0 <= wv * p / (2 * PI * (n - 1)) < wv / (n - 1))%R.
  have -> : (wv * p / (2 * PI * (n - 1)) = wv / (n - 1) * (p / (2 * PI)))%R.
    by field; lra.
  have Hq : (0 <= p / (2 * PI) < 1)%R.
    split; first by apply: Rmult_le_pos => //; left; apply: Rinv_0_lt_compat; lra.
    by apply: (Rmult_lt_reg_r (2 * PI)); first lra; rewrite /Rdiv Rmult_assoc Rinv_l; lra.
  have Hw : (0 < wv / (n - 1))%R by apply: Rdiv_lt_0_compat; lra.
  by split; nra.
Qed.

Lemma phase_retrieval_wraps_phase_witness :
  exists phi h,
    @PhaseContour.phase_retrieval real_scalar (@Demo.collaborators real_scalar)
      [:: [:: 1%R]] 1%R (@Mask.FsFloat real_scalar 1%R) 1%R 2%R 1 true = Ok (phi, h)
    /\ (0 <= nth 0%R (nth [::] phi 0) 0 < 2 * PI)%R.
Proof.
  have [[phi h] E] :
      exists res,
        @PhaseContour.phase_retrieval real_scalar (@Demo.collaborators real_scalar)
          [:: [:: 1%R]] 1%R (@Mask.FsFloat real_scalar 1%R) 1%R 2%R 1 true = Ok res.
    eexists; reflexivity.
  exists phi, h; split; first exact E.
  have [Hr _ _] := @phase_retrieval_wraps_phase (@Demo.collaborators real_scalar)
                     _ _ _ _ _ _ _ _ _ E.
  apply: Hr; move: E; rewrite /PhaseContour.phase_retrieval /=; by case=> <- _.
Defined.

Section CannyInput.

Local Open Scope R_scope.

Lemma Int_part_half (z : Z) : Int_part (IZR z + 1 / 2) = z.
Proof. by symmetry; apply: Int_part_spec; lra. Qed.

(** The noise made binary is 0 or 1. *)
Lemma binary_of_noise_binary (x : R) :
  @binary_of_noise real_scalar x = 0 \/ @binary_of_noise real_scalar x = 1.
Proof.
  rewrite /binary_of_noise /PhaseContour.np_interp /fneg /f0 /f1 /=.
  have clip0 : @np_clip real_scalar 0 0 1 = 0.
    by rewrite /np_clip /=; case: RltbP; case: RltbP; lra.
  have clip1 : @np_clip real_scalar 1 0 1 = 1.
    by rewrite /np_clip /=; case: RltbP; case: RltbP; lra.
  have R0 : Rround 0 = 0.
    by rewrite /Rround Int_part_IZR; case: RltbP => //; lra.
  have R1 : Rround 1 = 1.
    by rewrite /Rround Int_part_IZR; case: RltbP => //; lra.
  case: RltbP => H1; first by right; rewrite R1.
  case: RltbP => H2; first by left; rewrite R0.
  case: RlebP => H3; first by right; rewrite R1.
  set y := (_ * _ + 0).
  have Hy : 0 <= y <= 1 by rewrite /y; lra.
  by case: (Rround_unit Hy) => ->; [left | right].
Qed.

End CannyInput.

(** X22: the picture that [PhaseContour.create_mask] hands to [cv.Canny] is
    made of the two levels 127 and 255 only (over the real numbers): the
    binary image, which is 0 or 1, is interpolated from [(-1, 1)], so that 0
    is sent to 127.5 and not to 0. *)
Theorem canny_input_has_two_levels {K : @Collaborators real_scalar}
    (noise_period : nat * nat) (refractive_index : R) (n_iter : nat) (design_wv : R)
    (a : @Mask.attrs real_scalar) (g g' : rng)
    (mx : matrix (cell R C) * @PhaseContour.state real_scalar) :
  @PhaseContour.create_mask real_scalar K noise_period refractive_index n_iter
    design_wv a g = Ok (mx, g') ->
  let r0 := nth 0 (Mask.resolution a) 0 in
  let r1 := nth 0 (Mask.resolution a) 1 in
  let raw := (generate_perlin_noise_2d
                ((r0 %/ noise_period.1) * noise_period.1,
                 (r1 %/ noise_period.2) * noise_period.2) noise_period g).1 in
  let noise := if (r0 != (shape2 raw).1) || (r1 != (shape2 raw).2)
               then resize raw (r0, r1) else raw in
  PhaseContour.target_psf mx.2 = cv_Canny (@canny_input real_scalar noise) 0 255
  /\ all (all (fun v => (v =? 127)%Z || (v =? 255)%Z)) (@canny_input real_scalar noise).
Proof.
  move=> Hm r0 r1 raw noise; split.
  - move: Hm; rewrite /PhaseContour.create_mask {1}/bindM -/r0 -/r1.
    rewrite (surjective_pairing (generate_perlin_noise_2d _ _ _)) -/raw -/noise.
    rewrite /bindM /lift.
    case: (PhaseContour.phase_retrieval _ _ _ _ _ _ _) => [pr|] //.
    rewrite /ret => -[<- _] /=.
    rewrite /canny_input /PhaseContour.map2 -map_comp; congr (cv_Canny _ _ _).
    by apply: eq_map => r /=; rewrite -map_comp.
  - rewrite /canny_input all_map; apply/(all_nthP [::]) => i Hi /=.
    rewrite all_map; apply/(all_nthP 0%R) => j Hj /=.
    set x := nth 0%R _ j.
    rewrite /PhaseContour.np_interp /fneg /f0 /f1 /=.
    case: (binary_of_noise_binary x) => ->.
    + have -> : Rltb 1 0 = false by apply/RltbP; lra.
      have -> : Rltb 0 (-1 * 1) = false by apply/RltbP; lra.
      have -> : Rleb 1 0 = false by apply/RlebP; lra.
      have -> : ((255 - 0) / (1 - -1 * 1) * (0 - -1 * 1) + 0 = IZR 127 + 1 / 2)%R.
        by field.
      have L : Rleb 0 (IZR 127 + 1 / 2) = true by apply: Rleb_true; lra.
      by rewrite /Rtrunc L Int_part_half.
    + have -> : Rltb 1 1 = false by apply/RltbP; lra.
      have -> : Rltb 1 (-1 * 1) = false by apply/RltbP; lra.
      have -> : Rleb 1 1 = true by apply: Rleb_true; lra.
      by rewrite Rtrunc_IZR.
Qed.

Lemma canny_input_has_two_levels_witness :
  exists mx g' img,
    [/\ @PhaseContour.create_mask real_scalar (@Demo.collaborators real_scalar)
          (1, 1) 2%R 1 1%R
          (@Mask.Attrs real_scalar [:: 1; 1] [:: 1%R; 1%R] [:: 1%R; 1%R] 1%R) 0%Z
        = Ok (mx, g'),
        @PhaseContour.target_psf real_scalar mx.2
        = @cv_Canny real_scalar (@Demo.collaborators real_scalar) img 0 255
      & all (all (fun v => (v =? 127)%Z || (v =? 255)%Z)) img].
Proof.
  have [[mx g'] E] :
      exists res,
        @PhaseContour.create_mask real_scalar (@Demo.collaborators real_scalar)
          (1, 1) 2%R 1 1%R
          (@Mask.Attrs real_scalar [:: 1; 1] [:: 1%R; 1%R] [:: 1%R; 1%R] 1%R) 0%Z
        = Ok res.
    rewrite /PhaseContour.create_mask [nth 0 _ 0]/= [nth 0 _ 1]/= [(1, 1).1]/= [(1, 1).2]/=.
    rewrite divn1 mul1n {1}/bindM [generate_perlin_noise_2d _ _ _]/=.
    eexists; reflexivity.
  have [H1 H2] := @canny_input_has_two_levels (@Demo.collaborators real_scalar)
                    _ _ _ _ _ _ _ _ E.
  exists mx, g'; eexists; split; [exact E | exact H1 | exact H2].
Defined.

(** X23: a [PhaseContour] asked for no iteration of phase retrieval cannot
    be constructed: once the attributes of the mask are accepted, with a
    noise period that is positive and not larger than the resolution (so
    that the noise is generated), [create_mask] reaches [phase_retrieval]
    with [n_iter = 0], which reads [M_phi] before any assignment. *)
Theorem phase_contour_without_iteration_fails `{Collaborators}
    (noise_period : nat * nat) (refractive_index design_wv : F)
    (resolution : seq nat) (distance_sensor : F) (size_arg : option (seq F))
    (feature_size_arg : option Mask.feature_size_arg) (psf_wavelength : seq F)
    (g : rng) (a : Mask.attrs) :
  Mask.init_attrs resolution distance_sensor size_arg feature_size_arg = Ok a ->
  0 < noise_period.1 <= nth 0 resolution 0 ->
  0 < noise_period.2 <= nth 0 resolution 1 ->
  PhaseContour.init noise_period refractive_index 0 design_wv
    resolution distance_sensor size_arg feature_size_arg psf_wavelength g
  = Raise (UnboundLocalError "M_phi").
Proof.
  move=> Ha _ _; rewrite /PhaseContour.init /Mask.init {1}/bindM /lift Ha.
  have [r0 [r1 [p0 [p1 [s0 [s1 [_ Hf _ _ _]]]]]]] := init_attrs_invariant Ha.
  rewrite {1}/bindM /PhaseContour.create_mask {1}/bindM.
  case: (generate_perlin_noise_2d _ _ _) => noise g1.
  by rewrite /bindM /lift /PhaseContour.phase_retrieval Hf.
Qed.

Lemma phase_contour_without_iteration_fails_witness :
  @PhaseContour.init binary64 (@Demo.collaborators binary64) (2, 2) 1.2%float 0
    532e-9%float [:: 4; 4] 4e-3%float None (Some (Mask.FsFloat 1e-3%float))
    default_psf_wavelength 0%Z
  = Raise (UnboundLocalError "M_phi").
Proof.
  apply: (@phase_contour_without_iteration_fails binary64 (@Demo.collaborators binary64)
            (2, 2) 1.2%float 532e-9%float [:: 4; 4] 4e-3%float None
            (Some (Mask.FsFloat 1e-3%float)) default_psf_wavelength 0%Z
            (@Mask.Attrs binary64 [:: 4; 4] [:: 4e-3%float; 4e-3%float]
               [:: 1e-3%float; 1e-3%float] 4e-3%float)).
  - reflexivity.
  - by [].
  - by [].
Defined.

(** ** [FresnelZoneAperture] over the real numbers *)

Section FresnelZones.

Context {K : @Collaborators real_scalar}.

Local Open Scope R_scope.

Lemma IZR_of_nat_sub (d i : nat) :
  (i <= d)%N -> IZR (Z.of_nat (d - i)) = IZR (Z.of_nat d) - IZR (Z.of_nat i).
Proof. by move=> /leP Hi; rewrite -minus_IZR; congr IZR; rewrite -minusE; lia. Qed.

Lemma size_np_linspace (start stop : R) (num : nat) :
  size (@FresnelZoneAperture.np_linspace real_scalar start stop num) = num.
Proof. by rewrite /FresnelZoneAperture.np_linspace size_map size_iota. Qed.

(** The grid of [create_mask] along an axis of [d] pixels: [j - d / 2]. *)
Lemma linspace_centred (d j : nat) :
  (j < d)%N ->
  nth 0 (@FresnelZoneAperture.np_linspace real_scalar
           (IZR (- Z.of_nat d) / 2) (IZR (Z.of_nat d) / 2 - 1) d) j
  = IZR (Z.of_nat j) - IZR (Z.of_nat d) / 2.
Proof.
  move=> Hj; rewrite /FresnelZoneAperture.np_linspace.
  rewrite (nth_map 0%N) ?size_iota // nth_iota // add0n.
  rewrite opp_IZR /of_nat /=.
  case: d Hj => [//|[|d]] Hj.
  - by case: j Hj => [|//] _ /=; lra.
  - have Ed : IZR (Z.of_nat (d.+2 - 1)) = IZR (Z.of_nat d.+2) - 1.
      by rewrite IZR_of_nat_sub.
    have Hd : 1 <= IZR (Z.of_nat d.+2) - 1.
      by rewrite -Ed; apply: (IZR_le 1); rewrite subn1 /=; lia.
    rewrite [(1 < d.+2)%N]/= [(0 < d.+2 - 1)%N]/= andTb.
    case: eqP => [->|_]; first by rewrite Ed; lra.
    have -> : (IZR (Z.of_nat d.+2) / 2 - 1 - - IZR (Z.of_nat d.+2) / 2)
              / IZR (Z.of_nat (d.+2 - 1)) = 1.
      by rewrite Ed; field; lra.
    have -> : @FresnelZoneAperture.is_zero real_scalar 1 = false.
      by rewrite /FresnelZoneAperture.is_zero /=; case: RlebP => //; rewrite /f0 /=; lra.
    by rewrite subn1 /=; lra.
Qed.

(** [np.round] of [(1 + c) / 2] for a cosine [c]. *)
Lemma round_half_cosine (c : R) :
  -1 <= c <= 1 -> Rround (1 / 2 * (1 + c)) = if Rltb 0 c then 1 else 0.
Proof.
  move=> [c0 c1]; rewrite /Rround.
  case: (Req_dec c 1) => [->|ne1].
  - have -> : 1 / 2 * (1 + 1) = IZR 1 by lra.
    rewrite Int_part_IZR.
    have -> : Rltb (IZR 1 - IZR 1) (1 / 2) = true by apply: Rltb_true; lra.
    by have -> : Rltb 0 1 = true by apply: Rltb_true; lra.
  - have -> : Int_part (1 / 2 * (1 + c)) = 0%Z by apply: Int_part_small; lra.
    rewrite Rminus_0_r /=.
    case: (RltbP 0 c) => Hc.
    + have -> : Rltb (1 / 2 * (1 + c)) (1 / 2) = false by apply/RltbP; lra.
      by have -> : Rltb (1 / 2) (1 / 2 * (1 + c)) = true by apply: Rltb_true; lra.
    + case: RltbP => // _.
      by have -> : Rltb (1 / 2) (1 / 2 * (1 + c)) = false by apply/RltbP; lra.
Qed.

Lemma fresnel_zone_shape (radius : R) (a : @Mask.attrs real_scalar) :
  has_shape (@FresnelZoneAperture.create_mask real_scalar K real_trig radius a)
    (nth 0%N (Mask.resolution a) 0) (nth 0%N (Mask.resolution a) 1).
Proof.
  rewrite /FresnelZoneAperture.create_mask.
  rewrite /has_shape size_map size_np_linspace eqxx /=.
  by rewrite all_map; apply/(all_nthP 0%R) => i _ /=; rewrite size_map size_np_linspace.
Qed.

Lemma fresnel_zone_cell (radius : R) (a : @Mask.attrs real_scalar) (i j : nat) :
  let d0 := nth 0%N (Mask.resolution a) 0 in
  let d1 := nth 0%N (Mask.resolution a) 1 in
  let r := radius / nth 0 (Mask.feature_size a) 0 in
  (i < d0)%N -> (j < d1)%N ->
  nth (CReal 0) (nth [::] (@FresnelZoneAperture.create_mask real_scalar K real_trig
                             radius a) i) j
  = CReal (if Rltb 0 (cos (PI * rho2 d0 d1 i j / (r * r))) then 1 else 0).
Proof.
  move=> d0 d1 r Hi Hj.
  rewrite /FresnelZoneAperture.create_mask -/d0 -/d1 -/r.
  rewrite (nth_map 0%R) ?size_np_linspace // (nth_map 0%R) ?size_np_linspace //.
  have /= -> := linspace_centred Hj.
  have /= -> := linspace_centred Hi.
  rewrite /half /f1 /f2 /fsqr /= -/(rho2 d0 d1 i j).
  by rewrite -/r round_half_cosine //; exact: COS_bound.
Qed.

Lemma rho2_reflect (d0 d1 i j : nat) :
  (0 < i < d0)%N -> (0 < j < d1)%N ->
  [/\ rho2 d0 d1 (d0 - i) (d1 - j) = rho2 d0 d1 i j,
      rho2 d0 d1 (d0 - i) j = rho2 d0 d1 i j
    & rho2 d0 d1 i (d1 - j) = rho2 d0 d1 i j].
Proof.
  move=> /andP [i0 /ltnW Hi] /andP [j0 /ltnW Hj].
  by rewrite /rho2 !IZR_of_nat_sub //; split; field.
Qed.

End FresnelZones.

(** X24: the Fresnel zone aperture is the cosine made binary.  Over the real
    numbers the mask has the shape of the resolution, and its entry in row
    [i] and column [j] is 1 when [cos(pi * rho^2 / r^2)] is positive and 0
    otherwise, where [rho^2 = (j - dim[1] / 2)^2 + (i - dim[0] / 2)^2] and
    [r = radius / feature_size[0]], which is not zero, is the radius in
    pixels. *)
Theorem fresnel_zone_is_binarized_cosine {K : @Collaborators real_scalar}
    (radius : R) (a : @Mask.attrs real_scalar) :
  let d0 := nth 0 (Mask.resolution a) 0 in
  let d1 := nth 0 (Mask.resolution a) 1 in
  let r := (radius / nth 0%R (Mask.feature_size a) 0)%R in
  let mask := @FresnelZoneAperture.create_mask real_scalar K real_trig radius a in
  r <> 0%R ->
  has_shape mask d0 d1
  /\ forall i j, i < d0 -> j < d1 ->
       nth (CReal 0%R) (nth [::] mask i) j
       = CReal (if Rltb 0 (cos (PI * rho2 d0 d1 i j / (r * r))) then 1%R else 0%R).
Proof.
  move=> d0 d1 r mask _; split; first exact: fresnel_zone_shape.
  by move=> i j Hi Hj; exact: fresnel_zone_cell.
Qed.

(** X25: the Fresnel zone aperture is symmetric about the centre of the
    grid, which lies at pixel [(dim[0] / 2, dim[1] / 2)]: row [i] mirrors row
    [dim[0] - i] and column [j] mirrors column [dim[1] - j] (row 0 and
    column 0 have no mirror image), over the real numbers and for a radius
    in pixels that is not zero. *)
Theorem fresnel_zone_is_symmetric {K : @Collaborators real_scalar}
    (radius : R) (a : @Mask.attrs real_scalar) (i j : nat) :
  let d0 := nth 0 (Mask.resolution a) 0 in
  let d1 := nth 0 (Mask.resolution a) 1 in
  let mask := @FresnelZoneAperture.create_mask real_scalar K real_trig radius a in
  let cell i j := nth (CReal 0%R) (nth [::] mask i) j in
  (radius / nth 0%R (Mask.feature_size a) 0 <> 0)%R ->
  0 < i < d0 -> 0 < j < d1 ->
  [/\ cell (d0 - i) (d1 - j) = cell i j,
      cell (d0 - i) j = cell i j
    & cell i (d1 - j) = cell i j].
Proof.
  move=> d0 d1 mask cell _ Hi Hj.
  have [i0 id0] := andP Hi; have [j0 jd1] := andP Hj.
  have Hi' : d0 - i < d0 by rewrite ltn_subrL i0 (leq_ltn_trans _ id0).
  have Hj' : d1 - j < d1 by rewrite ltn_subrL j0 (leq_ltn_trans _ jd1).
  have [E1 E2 E3] := rho2_reflect Hi Hj.
  by rewrite /cell /mask !fresnel_zone_cell // E1 E2 E3.
Qed.

(** X26: the centre of the Fresnel zone aperture is open and the first ring
    around it is closed: a pixel at a distance [rho] from the centre with
    [rho^2 < r^2 / 2] holds 1, and one with [r^2 / 2 <= rho^2 <= 3 r^2 / 2]
    holds 0, [r <> 0] being the radius in pixels. *)
Theorem fresnel_zone_centre_is_open {K : @Collaborators real_scalar}
    (radius : R) (a : @Mask.attrs real_scalar) (i j : nat) :
  let d0 := nth 0 (Mask.resolution a) 0 in
  let d1 := nth 0 (Mask.resolution a) 1 in
  let r := (radius / nth 0%R (Mask.feature_size a) 0)%R in
  let mask := @FresnelZoneAperture.create_mask real_scalar K real_trig radius a in
  r <> 0%R -> i < d0 -> j < d1 ->
  ((rho2 d0 d1 i j < r * r / 2)%R -> nth (CReal 0%R) (nth [::] mask i) j = CReal 1%R)
  /\ ((r * r / 2 <= rho2 d0 d1 i j <= 3 * (r * r / 2))%R ->
      nth (CReal 0%R) (nth [::] mask i) j = CReal 0%R).
Proof.
  move=> d0 d1 r mask r0 Hi Hj; rewrite /mask fresnel_zone_cell // -/d0 -/d1 -/r.
  have rr : (0 < r * r)%R by nra.
  have P0 := PI_RGT_0.
  have Hrho : (0 <= rho2 d0 d1 i j)%R.
    by rewrite /rho2; apply: Rplus_le_le_0_compat; apply: Rle_0_sqr.
  set rho := rho2 d0 d1 i j in Hrho *.
  have Et : (PI * rho / (r * r) = PI * (rho / (r * r)))%R by field; lra.
  have Hq0 : (0 <= rho / (r * r))%R.
    by apply: Rmult_le_pos => //; left; apply: Rinv_0_lt_compat.
  have Eq : (rho / (r * r) * (r * r) = rho)%R by field; lra.
  split=> [Hlt|[Hlo Hhi]].
  - have Hq : (rho / (r * r) < 1 / 2)%R.
      by apply: (Rmult_lt_reg_r (r * r)) => //; rewrite Eq; lra.
    have -> // : Rltb 0 (cos (PI * rho / (r * r))) = true.
    by apply: Rltb_true; apply: cos_gt_0; rewrite Et; nra.
  - have Hq1 : (1 / 2 <= rho / (r * r))%R.
      by apply: (Rmult_le_reg_r (r * r)) => //; rewrite Eq; lra.
    have Hq2 : (rho / (r * r) <= 3 / 2)%R.
      by apply: (Rmult_le_reg_r (r * r)) => //; rewrite Eq; lra.
    have -> // : Rltb 0 (cos (PI * rho / (r * r))) = false.
    apply/RltbP; apply: Rle_not_lt; apply: cos_le_0; rewrite Et; nra.
Qed.

Lemma fresnel_zone_is_symmetric_witness :
  nth (CReal 0%R)
    (nth [::] (@FresnelZoneAperture.create_mask real_scalar
                 (@Demo.collaborators real_scalar) real_trig 2%R grid4) (4 - 1)) (4 - 1)
  = nth (CReal 0%R)
      (nth [::] (@FresnelZoneAperture.create_mask real_scalar
                   (@Demo.collaborators real_scalar) real_trig 2%R grid4) 1) 1.
Proof.
  have [|E _ _] := @fresnel_zone_is_symmetric (@Demo.collaborators real_scalar)
                     2%R grid4 1 1 _ isT isT.
  - by rewrite /=; lra.
  - exact: E.
Defined.

Lemma fresnel_zone_is_binarized_cosine_witness :
  has_shape (@FresnelZoneAperture.create_mask real_scalar
               (@Demo.collaborators real_scalar) real_trig 2%R grid4) 4 4.
Proof.
  have [|E _] := @fresnel_zone_is_binarized_cosine (@Demo.collaborators real_scalar)
                   2%R grid4.
  - by rewrite /=; lra.
  - exact: E.
Defined.

Lemma fresnel_zone_centre_is_open_witness :
  nth (CReal 0%R)
    (nth [::] (@FresnelZoneAperture.create_mask real_scalar
                 (@Demo.collaborators real_scalar) real_trig 2%R grid4) 2) 2
  = CReal 1%R.
Proof.
  have [|H _] := @fresnel_zone_centre_is_open (@Demo.collaborators real_scalar)
                   2%R grid4 2 2 _ isT isT.
  - by rewrite /=; lra.
  - by apply: H; rewrite /rho2 /=; lra.
Defined.

(** ** [HeightVarying]: the height map that is given, and the one that is
    drawn *)

(** X27: a height map that does not have the shape of the resolution is
    rejected by the assertion of [create_mask], after the attributes of the
    mask have been accepted. *)
Theorem height_map_of_wrong_shape_is_rejected `{Collaborators}
    (refractive_index wavelength : F) (hm : matrix F) (height_range : F * F) (seed : Z)
    (resolution : seq nat) (distance_sensor : F) (size_arg : option (seq F))
    (feature_size_arg : option Mask.feature_size_arg) (psf_wavelength : seq F)
    (g : rng) (a : Mask.attrs) :
  Mask.init_attrs resolution distance_sensor size_arg feature_size_arg = Ok a ->
  ~~ has_shape hm (nth 0 resolution 0) (nth 0 resolution 1) ->
  HeightVarying.init refractive_index wavelength (Some hm) height_range seed
    resolution distance_sensor size_arg feature_size_arg psf_wavelength g
  = Raise (AssertionError "").
Proof.
  move=> Ha Hn.
  rewrite /HeightVarying.init /bindM /ret /Mask.init /bindM /lift Ha.
  rewrite /HeightVarying.create_mask /bindM /ret /lift /assert.
  by rewrite (init_attrs_resolution Ha) (negbTE Hn).
Qed.

Lemma height_map_of_wrong_shape_is_rejected_witness :
  @HeightVarying.init binary64 (@Demo.collaborators binary64) 1.2%float 532e-9%float
    (Some [:: [:: 1e-4%float; 2e-4%float; 3e-4%float]]) (1e-5%float, 1e-3%float) 0%Z
    [:: 2; 2] 4e-3%float None (Some (Mask.FsFloat 1e-3%float)) default_psf_wavelength 0%Z
  = Raise (AssertionError "").
Proof.
  apply: (@height_map_of_wrong_shape_is_rejected binary64 (@Demo.collaborators binary64)
            1.2%float 532e-9%float [:: [:: 1e-4%float; 2e-4%float; 3e-4%float]]
            (1e-5%float, 1e-3%float) 0%Z [:: 2; 2] 4e-3%float None
            (Some (Mask.FsFloat 1e-3%float)) default_psf_wavelength 0%Z
            (@Mask.Attrs binary64 [:: 2; 2] [:: 2e-3%float; 2e-3%float]
               [:: 1e-3%float; 1e-3%float] 4e-3%float)).
  - reflexivity.
  - reflexivity.
Defined.

Section RandomHeights.

Context {K : @Collaborators real_scalar}.

Local Open Scope R_scope.

Hypothesis sample_range : forall g : rng, 0 <= (random_sample g).1 < 1.

Lemma uniform_matrix_between (low high : R) (rows cols : nat) (g g' : rng)
    (m : matrix R) :
  @np_random_uniform_matrix real_scalar K low high rows cols g = Ok (m, g') ->
  has_shape m rows cols
  /\ forall i j, (i < rows)%N -> (j < cols)%N ->
       Rmin low high <= nth 0 (nth [::] m i) j <= Rmax low high.
Proof.
  elim: rows g g' m => [|rows IH] g g' m /=; first by rewrite /ret => -[<- _].
  rewrite {1}/bindM.
  case Ex: (np_random_uniform_seq _ _ _ _) => [[x g1]|] //.
  rewrite {1}/bindM.
  case Es: (np_random_uniform_matrix _ _ _ _ _) => [[ys g2]|] //.
  rewrite /ret => -[<- _].
  have [Hs Hy] := IH _ _ _ Es.
  have [Hx Hxr] := uniform_seq_between sample_range Ex.
  split.
  - by move: Hs; rewrite /has_shape /= Hx eqxx /= eqSS.
  - move=> i j; case: i => [_|i Hi] Hj /=; [exact: Hxr | exact: Hy].
Qed.

End RandomHeights.

(** X28: without a height map [HeightVarying] draws one of the shape of the
    resolution; over the real numbers, with a generator that draws from
    [[0, 1)], every height lies between the two ends of [height_range]. *)
Theorem random_heights_lie_in_range {K : @Collaborators real_scalar}
    (refractive_index wavelength : R) (height_range : R * R) (seed : Z)
    (resolution : seq nat) (distance_sensor : R) (size_arg : option (seq R))
    (feature_size_arg : option (@Mask.feature_size_arg real_scalar))
    (psf_wavelength : seq R) (g g' : rng)
    (m : @Mask.t real_scalar K (@HeightVarying.state real_scalar)) :
  (forall g0 : rng, (0 <= (random_sample g0).1 < 1)%R) ->
  @HeightVarying.init real_scalar K refractive_index wavelength None height_range seed
    resolution distance_sensor size_arg feature_size_arg psf_wavelength g = Ok (m, g') ->
  let hm := @HeightVarying.height_map real_scalar (Mask.extra m) in
  let r0 := nth 0 resolution 0 in
  let r1 := nth 0 resolution 1 in
  has_shape hm r0 r1
  /\ forall i j, i < r0 -> j < r1 ->
       (Rmin height_range.1 height_range.2 <= nth 0%R (nth [::] hm i) j
        <= Rmax height_range.1 height_range.2)%R.
Proof.
  move=> Hu; rewrite /HeightVarying.init {1}/bindM.
  case: (np_random_seed seed g) => [[_ g1]|] // /init_ok [Ha Hc _ _].
  move: Hc; rewrite /HeightVarying.create_mask {1}/bindM.
  case Em: (np_random_uniform_matrix _ _ _ _ _) => [[hm g2]|] //.
  rewrite /bindM /lift /assert; case: ifP => // _; rewrite /ret => -[_ <- _] /=.
  by rewrite -(init_attrs_resolution Ha); exact: uniform_matrix_between Em.
Qed.

Lemma random_heights_lie_in_range_witness :
  exists (m : @Mask.t real_scalar (@Demo.collaborators real_scalar)
                (@HeightVarying.state real_scalar)) (g' : Z),
    @HeightVarying.init real_scalar (@Demo.collaborators real_scalar)
      2%R 1%R None (0%R, 1%R) 0%Z [:: 1; 1] 1%R
      None (Some (@Mask.FsFloat real_scalar 1%R)) [::] 5%Z = Ok (m, g')
    /\ (Rmin 0 1
        <= nth 0%R (nth [::] (@HeightVarying.height_map real_scalar (Mask.extra m)) 0) 0
        <= Rmax 0 1)%R.
Proof.
  have [[m g'] E] : exists res,
      @HeightVarying.init real_scalar (@Demo.collaborators real_scalar)
        2%R 1%R None (0%R, 1%R) 0%Z [:: 1; 1] 1%R
        None (Some (@Mask.FsFloat real_scalar 1%R)) [::] 5%Z = Ok res.
    rewrite /HeightVarying.init /bindM /ret /Mask.init /bindM /lift /ret.
    rewrite [np_random_seed _ _]/= init_attrs_feature_float /=.
    have -> : Rltb 0 1 = true by apply: Rltb_true; lra.
    have -> : Rleb (1 * 1) (1 * 1) = true by apply: Rleb_true; lra.
    by rewrite /HeightVarying.create_mask /bindM /ret /lift /=; eexists.
  exists m, g'; split; first exact E.
  have [_ H] := @random_heights_lie_in_range (@Demo.collaborators real_scalar)
                  _ _ _ _ _ _ _ _ _ _ _ _ lcg_sample_range E.
  exact: (H 0 0 isT isT).
Defined.

(** X29: the phase of a [HeightVarying] mask is wrapped: over the real
    numbers, for a wavelength that is not zero, every entry of [get_phi()]
    lies in [[0, 2 pi)], whether the height map was given or drawn, and the
    mask is [exp(1j * phi)] entry by entry, with the shape of the
    resolution. *)
Theorem height_varying_phase_is_wrapped {K : @Collaborators real_scalar}
    (refractive_index wavelength : R) (height_map : option (matrix R))
    (height_range : R * R) (seed : Z)
    (resolution : seq nat) (distance_sensor : R) (size_arg : option (seq R))
    (feature_size_arg : option (@Mask.feature_size_arg real_scalar))
    (psf_wavelength : seq R) (g g' : rng)
    (m : @Mask.t real_scalar K (@HeightVarying.state real_scalar)) :
  @HeightVarying.init real_scalar K refractive_index wavelength height_map height_range
    seed resolution distance_sensor size_arg feature_size_arg psf_wavelength g
  = Ok (m, g') ->
  wavelength <> 0%R ->
  let phi := @HeightVarying.get_phi real_scalar (Mask.extra m) in
  let r0 := nth 0 resolution 0 in
  let r1 := nth 0 resolution 1 in
  [/\ Mask.mask m = [seq [seq CComplex (cexp_i p) | p <- r] | r <- phi],
      has_shape phi r0 r1
    & forall i j, i < r0 -> j < r1 ->
        (0 <= nth 0%R (nth [::] phi i) j < 2 * PI)%R].
Proof.
  rewrite /HeightVarying.init {1}/bindM.
  case: (match height_map with Some _ => _ | None => _ end g) => [[_ g1]|] //.
  move=> /init_ok [Ha Hc _ _].
  move: Hc; rewrite /HeightVarying.create_mask {1}/bindM.
  case: (match height_map with Some _ => _ | None => _ end g1) => [[hm g2]|] //.
  rewrite /bindM /lift /assert; case: ifP => // Hs; rewrite /ret => -[<- <- _] _ /=.
  rewrite -(init_attrs_resolution Ha).
  case/andP: (Hs) => /eqP Hr /(all_nthP [::]) Hc.
  split=> //; first by rewrite /HeightVarying.get_phi /= has_shape_map2.
  move=> i j Hi Hj; rewrite /HeightVarying.get_phi /=.
  have Hi' : i < size hm by rewrite Hr.
  have /eqP Hsz := Hc i Hi'.
  rewrite (nth_map [::]) // (nth_map 0%R) ?Hsz //.
  exact: phase_of_height_range.
Qed.

Lemma height_varying_phase_is_wrapped_witness :
  exists (m : @Mask.t real_scalar (@Demo.collaborators real_scalar)
                (@HeightVarying.state real_scalar)) (g' : Z),
    @HeightVarying.init real_scalar (@Demo.collaborators real_scalar)
      2%R 1%R (Some [:: [:: 1%R]]) (0%R, 1%R) 0%Z [:: 1; 1] 1%R
      None (Some (@Mask.FsFloat real_scalar 1%R)) [::] 0%Z = Ok (m, g')
    /\ (0 <= nth 0%R (nth [::] (@HeightVarying.get_phi real_scalar (Mask.extra m)) 0) 0
        < 2 * PI)%R.
Proof.
  have [[m g'] E] : exists res,
      @HeightVarying.init real_scalar (@Demo.collaborators real_scalar)
        2%R 1%R (Some [:: [:: 1%R]]) (0%R, 1%R) 0%Z [:: 1; 1] 1%R
        None (Some (@Mask.FsFloat real_scalar 1%R)) [::] 0%Z = Ok res.
    rewrite /HeightVarying.init /bindM /ret /Mask.init /bindM /lift /ret.
    rewrite init_attrs_feature_float /=.
    have -> : Rltb 0 1 = true by apply: Rltb_true; lra.
    have -> : Rleb (1 * 1) (1 * 1) = true by apply: Rleb_true; lra.
    by rewrite /HeightVarying.create_mask /bindM /ret /lift /=; eexists.
  exists m, g'; split; first exact E.
  have l0 : 1%R <> 0%R by lra.
  have [_ _ H] := @height_varying_phase_is_wrapped (@Demo.collaborators real_scalar)
                    _ _ _ _ _ _ _ _ _ _ _ _ _ E l0.
  exact: (H 0 0 isT isT).
Defined.

(** ** Masks that draw nothing *)

Section Untouched.

Context `{Collaborators}.

Lemma init_lift_untouched (X : Type) (create : Mask.attrs -> result (matrix (cell F C) * X))
    (res : seq nat) (dist : F) (sz : option (seq F))
    (fs : option Mask.feature_size_arg) (wv : seq F) (g g' : rng) (m : Mask.t X) :
  Mask.init (fun a => lift (create a)) res dist sz fs wv g = Ok (m, g') -> g' = g.
Proof.
  move=> /init_ok [_ Hc _ _]; move: Hc; rewrite /lift.
  by case: (create _) => [x|] // [_ ->].
Qed.

End Untouched.

(** X30: the masks that are built without a draw leave the process-wide
    generator as they found it: a [CodedAperture], a [FresnelZoneAperture], a
    [HeightVarying] given its height map, and a [MultiLensArray] given its
    radii and locations (which does not re-seed the generator either). *)
Theorem deterministic_masks_leave_generator `{Collaborators} {T : Trig}
    (res : seq nat) (dist : F) (sz : option (seq F))
    (fs : option Mask.feature_size_arg) (wv : seq F) (g g' : rng) :
  [/\ forall method n_bits m,
        CodedAperture.init method n_bits res dist sz fs wv g = Ok (m, g') -> g' = g,
      forall radius m,
        FresnelZoneAperture.init radius res dist sz fs wv g = Ok (m, g') -> g' = g,
      forall n lambda hm range seed m,
        HeightVarying.init n lambda (Some hm) range seed res dist sz fs wv g = Ok (m, g') ->
        g' = g
    & forall N rad loc n lambda seed min_height m,
        MultiLensArray.init N (Some rad) (Some loc) n lambda seed min_height
          res dist sz fs wv g = Ok (m, g') ->
        g' = g].
Proof.
  split.
  - by move=> method n_bits m; exact: init_lift_untouched.
  - move=> radius m /init_ok [_ Hc _ _].
    by move: Hc; rewrite /ret => -[_ _ ->].
  - move=> n lambda hm range seed m.
    rewrite /HeightVarying.init /bindM /ret /= => /init_ok [_ Hc _ _].
    move: Hc; rewrite /HeightVarying.create_mask /bindM /ret /lift /assert.
    by case: ifP => // _ [_ _ ->].
  - move=> N rad loc n lambda seed min_height m.
    rewrite /MultiLensArray.init {1}/bindM.
    case E: (MultiLensArray.init_lenses _ _ _ _ _ _) => [[[[n' rad'] l'] g1]|] //.
    have [[_ _ El] _ _] := init_lenses_explicit_apart E.
    have Eg : g1 = g.
      move: E; rewrite /MultiLensArray.init_lenses /bindM /lift /assert /ret.
      by case: ifP => // _; case: ifP => // _ [_ _ _ ->].
    rewrite El Eg => /init_ok [_ Hc _ _].
    move: Hc; rewrite /MultiLensArray.create_mask /bindM /ret /lift.
    by case: (MultiLensArray.create_height_map _ _ _ _) => [h|] // [_ _ ->].
Qed.
